(** * PBG: a shallow embedding of [pbg.c]

    The Prefix Boolean Grammar library parses a textual prefix expression
    into two node arenas, evaluates it against a dictionary callback and
    renders it back to text.  This development embeds the C functions of
    [pbg.c] as executable Rocq functions and states the properties of the
    specification over them.

    Conventions of the embedding.
    - A C [char] is its byte, a [Z] in [0, 256); where the code computes
      with a [char], the value of the signed [char] is taken.  A [char*] is
      a buffer together with an offset, so that [str[i-1]], [str[n]] and
      [str + k] mean what they mean in C.
    - A C [int] is a [Z]; all sizes stay far below [2^31], so no wrap-around
      is written out.
    - Every access the C standard leaves undefined (a read outside the
      buffer, a read of memory that was never written, a null dereference,
      falling off the end of a non-void function) is a [fault]; functions
      return [res A = fault + A].
    - [malloc] returns memory whose cells are [None] until written;
      [realloc] to no bytes frees the block and returns NULL; [pbg_free] is
      modelled by the blocks it hands to [free].
    - The branch of [pbg_parse_r] for a field that is no valid literal
      leaves [ret.nodeidx] unassigned; the embedding stops there with the
      fault [InvalidLiteral].
    - The byte order is little-endian, [int] has 32 bits and [double] is
      IEEE-754 binary64. *)

From Stdlib Require Import ZArith Lia Ascii String.
From stdpp Require Import base list strings.

Local Open Scope Z_scope.

(** ** Faults and the error monad *)

Inductive fault : Type :=
| OutOfBounds      (* access outside the allocated object *)
| Uninitialized    (* read of a cell that was never written *)
| NullDeref        (* dereference of a NULL [_data] pointer *)
| InvalidLiteral   (* the parser's "not a valid literal" branch: no node built *)
| BadCast          (* [_data] used at a type it does not hold *)
| NoReturn         (* control reaches the end of a non-void function *)
| OutOfFuel.       (* recursion budget of the model exhausted *)

Definition res (A : Type) : Type := (fault + A)%type.

Definition ret {A : Type} (x : A) : res A := inr x.
Definition raise {A : Type} (e : fault) : res A := inl e.
Definition bind {A B : Type} (m : res A) (f : A -> res B) : res B :=
  match m with inl e => inl e | inr x => f x end.

Notation "x <- m ;; k" := (bind m (fun x => k))
  (at level 100, m at next level, right associativity).

(** C's short-circuit [a && b] and [a || b] over conditions that may fault:
    the right operand is only consulted when the left one does not decide. *)
Definition and_then (a b : res bool) : res bool :=
  x <- a;; if x then b else ret false.
Definition or_else (a b : res bool) : res bool :=
  x <- a;; if x then ret true else b.

Infix "&&&" := and_then (at level 40, left associativity).
Infix "|||" := or_else (at level 50, left associativity).

(** [for (i = a; k iterations; i++) body] threading a state. *)
Fixpoint for_up {S : Type} (k : nat) (i : Z) (body : Z -> S -> res S) (s : S)
  : res S :=
  match k with
  | O => ret s
  | S k' => s' <- body i s;; for_up k' (i + 1) body s'
  end.

(** ** Characters, buffers and arrays *)

Definition chr (c : ascii) : Z := Z.of_N (N_of_ascii c).
Definition bytes_of (s : string) : list Z := map chr (list_ascii_of_string s).

(** A [char*]: the underlying buffer and the offset the pointer stands at. *)
Record charp : Type := CharP { mem : list Z; pos : Z }.

Definition cstr (s : string) : charp := CharP (bytes_of s) 0.

(** [str[i]] *)
Definition rd (str : charp) (i : Z) : res Z :=
  let k := pos str + i in
  if k <? 0 then raise OutOfBounds
  else match mem str !! Z.to_nat k with
       | Some c => ret c
       | None => raise OutOfBounds
       end.

(** [str + k] *)
Definition padd (str : charp) (k : Z) : charp := CharP (mem str) (pos str + k).

(** A [malloc]ed array of [A]: cells are [None] until written. *)
Abbreviation array A := (list (option A)).

Definition malloc {A : Type} (n : Z) : array A := replicate (Z.to_nat n) None.

Definition aget {A : Type} (a : array A) (i : Z) : res A :=
  if i <? 0 then raise OutOfBounds
  else match a !! Z.to_nat i with
       | Some (Some x) => ret x
       | Some None => raise Uninitialized
       | None => raise OutOfBounds
       end.

Definition aset {A : Type} (a : array A) (i : Z) (x : A) : res (array A) :=
  if (i <? 0) || (Z.of_nat (length a) <=? i) then raise OutOfBounds
  else ret (<[Z.to_nat i := Some x]> a).

(** ** The data model of [pbg.h] *)

(** Modelled from the spec: the enumeration [pbg_node_type] of [pbg.h],
    which is not among the sources.  Its literal kinds lie below
    [PBG_MAX_LT] and its operator kinds between [PBG_MAX_LT] and
    [PBG_MAX_OP]; [PBG_UNKNOWN] is the sentinel literal kind. *)
Inductive pbg_node_type : Type :=
| PBG_UNKNOWN
| PBG_LT_TRUE | PBG_LT_FALSE | PBG_LT_NUMBER | PBG_LT_STRING | PBG_LT_DATE
| PBG_LT_KEY
| PBG_OP_NOT | PBG_OP_AND | PBG_OP_OR | PBG_OP_EQ | PBG_OP_LT | PBG_OP_GT
| PBG_OP_EXST | PBG_OP_NEQ | PBG_OP_LTE | PBG_OP_GTE.

#[global] Instance pbg_node_type_eq_dec : EqDecision pbg_node_type.
Proof. solve_decision. Defined.

(** [t < PBG_MAX_LT] *)
Definition below_MAX_LT (t : pbg_node_type) : bool :=
  match t with
  | PBG_UNKNOWN | PBG_LT_TRUE | PBG_LT_FALSE | PBG_LT_NUMBER | PBG_LT_STRING
  | PBG_LT_DATE | PBG_LT_KEY => true
  | _ => false
  end.

(** [t < PBG_MAX_OP]: every kind of the enumeration. *)
Definition below_MAX_OP (t : pbg_node_type) : bool := true.

(** What a node's [void* _data] points to.  [DInts] is an [int] array (an
    operator's child references), [DDate] a [pbg_type_date], [DBytes] raw
    bytes (string and key payloads, and the 8 bytes of a [double]);
    [DUnset] is a pointer that was never assigned. *)
Inductive pbg_data : Type :=
| DUnset
| DNull
| DBytes (bs : list Z)
| DInts (cs : list Z)
| DDate (yyyy mm dd : Z).

Record pbg_expr_node : Type := Node {
  _type : pbg_node_type;
  _int : Z;
  _data : pbg_data
}.

Record pbg_expr : Type := Expr {
  _static : array pbg_expr_node;
  _dynamic : array pbg_expr_node;
  _staticsz : Z;
  _dynamicsz : Z
}.

#[global] Instance pbg_data_eq_dec : EqDecision pbg_data.
Proof. solve_decision. Defined.
#[global] Instance pbg_expr_node_eq_dec : EqDecision pbg_expr_node.
Proof. solve_decision. Defined.
#[global] Instance pbg_expr_eq_dec : EqDecision pbg_expr.
Proof. solve_decision. Defined.

(** Object representation: a 32-bit little-endian two's complement [int]. *)
Definition le_bytes (k : nat) (x : Z) : list Z :=
  map (fun i => (x / 2 ^ (8 * Z.of_nat i)) mod 256) (seq 0 k).

Definition of_le_bytes (bs : list Z) : Z :=
  foldr (fun b acc => b + 256 * acc) 0 bs.

Definition int_bytes (x : Z) : list Z := le_bytes 4 (x mod 2 ^ 32).

(** Modelled from the spec: [pbg_type_date] of [pbg.h] is the triple of
    year, month and day as integers, here three [int]s. *)
Definition sizeof_date : Z := 12.
Definition sizeof_double : Z := 8.

(** The bytes [_data] points to, as [(char* )_data] sees them. *)
Definition data_bytes (d : pbg_data) : list Z :=
  match d with
  | DUnset | DNull => []
  | DBytes bs => bs
  | DInts cs => concat (map int_bytes cs)
  | DDate y m d => int_bytes y ++ int_bytes m ++ int_bytes d
  end.

(** [((char* )d)[j]] *)
Definition data_byte (d : pbg_data) (j : Z) : res Z :=
  match d with
  | DUnset => raise Uninitialized
  | DNull => raise NullDeref
  | _ => rd (CharP (data_bytes d) 0) j
  end.

(** [((int* )d)[i]] *)
Definition data_int (d : pbg_data) (i : Z) : res Z :=
  match d with
  | DUnset => raise Uninitialized
  | DNull => raise NullDeref
  | DInts cs => rd (CharP cs 0) i
  | _ => raise BadCast
  end.

(** ** Helper functions *)

Definition is_a_digit (c : Z) : bool := (chr "0" <=? c) && (c <=? chr "9").

Definition get_expr_node (e : pbg_expr) (index : Z) : res pbg_expr_node :=
  if index <? 0 then aget (_dynamic e) (- (index + 1))
  else aget (_static e) index.

Record int2arg : Type := Int2Arg { field : Z; closing : Z }.
Record int2ret : Type := Int2Ret { arg : int2arg; nodeidx : Z }.

(** ** Conversion and checking functions *)

Definition is_ch (str : charp) (i : Z) (c : ascii) : res bool :=
  x <- rd str i;; ret (x =? chr c).

Definition pbg_toop (str : charp) (n : Z) : res pbg_node_type :=
  if n =? 1 then
    c <- rd str 0;;
    if c =? chr "!" then ret PBG_OP_NOT
    else if c =? chr "&" then ret PBG_OP_AND
    else if c =? chr "|" then ret PBG_OP_OR
    else if c =? chr "=" then ret PBG_OP_EQ
    else if c =? chr "<" then ret PBG_OP_LT
    else if c =? chr ">" then ret PBG_OP_GT
    else if c =? chr "?" then ret PBG_OP_EXST
    else ret PBG_UNKNOWN
  else if n =? 2 then
    b1 <- is_ch str 0 "!" &&& is_ch str 1 "=";;
    if b1 then ret PBG_OP_NEQ else
    b2 <- is_ch str 0 "<" &&& is_ch str 1 "=";;
    if b2 then ret PBG_OP_LTE else
    b3 <- is_ch str 0 ">" &&& is_ch str 1 "=";;
    if b3 then ret PBG_OP_GTE else
    ret PBG_UNKNOWN
  else ret PBG_UNKNOWN.

Definition pbg_istrue (str : charp) (n : Z) : res bool :=
  ret (n =? 4) &&& is_ch str 0 "T" &&& is_ch str 1 "R" &&& is_ch str 2 "U"
  &&& is_ch str 3 "E".

Definition pbg_isfalse (str : charp) (n : Z) : res bool :=
  ret (n =? 5) &&& is_ch str 0 "F" &&& is_ch str 1 "A" &&& is_ch str 2 "L"
  &&& is_ch str 3 "S" &&& is_ch str 4 "E".

(** [while(i != n && is_a_digit(str[i])) i++;]  At most one iteration per
    byte of the buffer can succeed, which bounds the fuel. *)
Fixpoint skip_digits (fuel : nat) (str : charp) (n i : Z) : res Z :=
  if i =? n then ret i else
  c <- rd str i;;
  if is_a_digit c then
    match fuel with
    | O => raise OutOfFuel
    | S f => skip_digits f str n (i + 1)
    end
  else ret i.

(** The four parts of [pbg_isnumber]; each yields the index [i] the next
    part starts from, or [None] where the C code says [return 0]. *)
Definition isnumber_sign (str : charp) : res (option Z) :=
  c <- rd str 0;;
  if (c =? chr "-") || (c =? chr "+") then ret (Some 1)
  else if negb (is_a_digit c) then ret None
  else ret (Some 0).

Definition isnumber_int (str : charp) (n i : Z) : res (option Z) :=
  c <- rd str i;;
  if negb (c =? chr "0") && is_a_digit c then
    i <- skip_digits (length (mem str)) str n i;;
    bad <- ret (negb (i =? n))
          &&& (c <- rd str i;; ret (negb (is_a_digit c)))
          &&& (c <- rd str i;; ret (negb (c =? chr ".")));;
    if bad then ret None else ret (Some i)
  else if c =? chr "0" then
    let i := i + 1 in
    bad <- ret (negb (i =? n))
          &&& (ok <- is_ch str i "." ||| is_ch str i "e" ||| is_ch str i "E";;
               ret (negb ok));;
    if bad then ret None else ret (Some i)
  else ret (Some i).

Definition isnumber_frac (str : charp) (n i : Z) : res (option Z) :=
  dot <- is_ch str i ".";;
  if dot then
    if i =? n - 1 then ret None else
    let i := i + 1 in
    i <- skip_digits (length (mem str)) str n i;;
    bad <- ret (negb (i =? n))
          &&& (c <- rd str i;; ret (negb (is_a_digit c)))
          &&& (c <- rd str i;; ret (negb (c =? chr "e")))
          &&& (c <- rd str i;; ret (negb (c =? chr "E")));;
    if bad then ret None else ret (Some i)
  else ret (Some i).

Definition isnumber_exp (str : charp) (n i : Z) : res (option Z) :=
  e <- is_ch str i "e" ||| is_ch str i "E";;
  if e then
    if i =? n - 1 then ret None else
    let i := i + 1 in
    sgn <- is_ch str i "-" ||| is_ch str i "+";;
    let i := if sgn then i + 1 else i in
    i <- skip_digits (length (mem str)) str n i;;
    bad <- ret (negb (i =? n))
          &&& (c <- rd str i;; ret (negb (is_a_digit c)));;
    if bad then ret None else ret (Some i)
  else ret (Some i).

Definition pbg_isnumber (str : charp) (n : Z) : res bool :=
  r <- isnumber_sign str;;
  match r with None => ret false | Some i =>
  r <- isnumber_int str n i;;
  match r with None => ret false | Some i =>
  r <- isnumber_frac str n i;;
  match r with None => ret false | Some i =>
  r <- isnumber_exp str n i;;
  match r with None => ret false | Some _ => ret true
  end end end end.

Definition pbg_iskey (str : charp) (n : Z) : res bool :=
  is_ch str 0 "[" &&& is_ch str (n - 1) "]".

Definition pbg_isstring (str : charp) (n : Z) : res bool :=
  is_ch str 0 "'" &&& is_ch str (n - 1) "'".

Definition is_digit_at (str : charp) (i : Z) : res bool :=
  (c <- rd str i;; ret (chr "0" <=? c)) &&& (c <- rd str i;; ret (c <=? chr "9")).

Definition pbg_isdate (str : charp) (n : Z) : res bool :=
  ret (n =? 10)
  &&& is_digit_at str 0 &&& is_digit_at str 1 &&& is_digit_at str 2
  &&& is_digit_at str 3 &&& is_ch str 4 "-"
  &&& is_digit_at str 5 &&& is_digit_at str 6 &&& is_ch str 7 "-"
  &&& is_digit_at str 8 &&& is_digit_at str 9.

(** The value of a [char] in arithmetic: [char] is signed, so the bytes
    from 128 on are negative. *)
Definition schar (c : Z) : Z := if 128 <=? c then c - 256 else c.

(** [pbg_todate]: the three fields written through [ptr]. *)
Definition pbg_todate (str : charp) (n : Z) : res pbg_data :=
  d0 <- rd str 0;; d1 <- rd str 1;; d2 <- rd str 2;; d3 <- rd str 3;;
  let z := chr "0" in
  let yyyy := (schar d0 - z) * 1000 + (schar d1 - z) * 100
              + (schar d2 - z) * 10 + (schar d3 - z) in
  d5 <- rd str 5;; d6 <- rd str 6;;
  let mm := (schar d5 - z) * 10 + (schar d6 - z) in
  d8 <- rd str 8;; d9 <- rd str 9;;
  let dd := (schar d8 - z) * 10 + (schar d9 - z) in
  ret (DDate yyyy mm dd).

(** ** IEEE-754 binary64 and the C library's conversions

    A [double] is its 64-bit pattern; in memory it is the 8 little-endian
    bytes of that pattern.  [atof] and [printf("%.2lf")] are the C
    library's, modelled exactly for decimal numerals and for the words
    [inf] and [nan], the latter with the payload glibc reads from a
    parenthesised sequence (round to nearest, ties to even).  Hexadecimal
    numerals never pass [pbg_isnumber]. *)
Module Double.

Definition of_bytes (bs : list Z) : Z := of_le_bytes bs.
Definition to_bytes (b : Z) : list Z := le_bytes 8 b.

Definition sign (b : Z) : bool := Z.testbit b 63.
Definition expo (b : Z) : Z := (b / 2 ^ 52) mod 2 ^ 11.
Definition mant (b : Z) : Z := b mod 2 ^ 52.

Definition is_nan (b : Z) : bool := (expo b =? 2047) && negb (mant b =? 0).
Definition is_inf (b : Z) : bool := (expo b =? 2047) && (mant b =? 0).

Definition pos_inf : Z := 2047 * 2 ^ 52.
Definition quiet_nan : Z := 2047 * 2 ^ 52 + 2 ^ 51.
Definition negate (b : Z) : Z := b + 2 ^ 63.

(** Finite values and infinities are ordered like their sign-magnitude
    patterns; the two zeros coincide; a NaN compares false with all. *)
Definition key (b : Z) : Z :=
  let m := b mod 2 ^ 63 in if sign b then - m else m.

Definition ordered (a b : Z) : bool := negb (is_nan a) && negb (is_nan b).

Definition lt (a b : Z) : bool := ordered a b && (key a <? key b).
Definition le (a b : Z) : bool := ordered a b && (key a <=? key b).
Definition gt (a b : Z) : bool := ordered a b && (key a >? key b).
Definition ge (a b : Z) : bool := ordered a b && (key a >=? key b).

(** [num / den] rounded to an integer, ties to even. *)
Definition round_half_even (num den : Z) : Z :=
  let q := num / den in
  let r := num mod den in
  if 2 * r <? den then q
  else if den <? 2 * r then q + 1
  else if Z.even q then q else q + 1.

(** The pattern of the double nearest to [num / den], for [0 <= num] and
    [0 < den].  With [e] the exponent of the unit in the last place, the
    pattern of [q * 2^e] is [(e + 1074) * 2^52 + q], carries included. *)
Definition of_ratio (num den : Z) : Z :=
  if num =? 0 then 0 else
  let scaled e := if 0 <=? e then (num, den * 2 ^ e) else (num * 2 ^ (- e), den) in
  let at_least e x := x * snd (scaled e) <=? fst (scaled e) in
  let e0 := Z.log2 num - Z.log2 den - 52 in
  let e1 := if at_least e0 (2 ^ 53) then e0 + 1
            else if at_least e0 (2 ^ 52) then e0 else e0 - 1 in
  let e := Z.max e1 (-1074) in
  let q := round_half_even (fst (scaled e)) (snd (scaled e)) in
  Z.min ((e + 1074) * 2 ^ 52 + q) pos_inf.

(** The value [m * 2^e] of a finite pattern, as [(m, e)]. *)
Definition mantissa_exponent (b : Z) : Z * Z :=
  if expo b =? 0 then (mant b, -1074) else (2 ^ 52 + mant b, expo b - 1075).

(** *** [atof] *)

Fixpoint span_digits (l : list Z) : list Z * list Z :=
  match l with
  | c :: l' =>
      if is_a_digit c then
        let r := span_digits l' in (c :: fst r, snd r)
      else ([], l)
  | [] => ([], [])
  end.

Definition digits_value (ds : list Z) : Z :=
  fold_left (fun acc d => acc * 10 + (d - chr "0")) ds 0.

Definition is_space (c : Z) : bool := (c =? 32) || ((9 <=? c) && (c <=? 13)).

Fixpoint skip_spaces (l : list Z) : list Z :=
  match l with
  | c :: l' => if is_space c then skip_spaces l' else l
  | [] => []
  end.

Definition lower (c : Z) : Z :=
  if (chr "A" <=? c) && (c <=? chr "Z") then c + 32 else c.

(** [l] starts with the word [w], letter case ignored. *)
Fixpoint starts_with (w : list Z) (l : list Z) : bool :=
  match w, l with
  | [], _ => true
  | a :: w', c :: l' => (lower c =? a) && starts_with w' l'
  | _ :: _, [] => false
  end.

Definition take_sign (l : list Z) : bool * list Z :=
  match l with
  | c :: l' =>
      if c =? chr "-" then (true, l')
      else if c =? chr "+" then (false, l')
      else (false, l)
  | [] => (false, [])
  end.

(** The decimal value [d * 10^x] as a pattern.  Outside the exponent window
    the result is decided without computing the power. *)
Definition of_decimal (d x : Z) : Z :=
  if d =? 0 then 0
  else if 400 <? x then pos_inf
  else if x <? - (400 + Z.log2 d) then 0
  else if 0 <=? x then of_ratio (d * 10 ^ x) 1
  else of_ratio d (10 ^ (- x)).

(** The value of [c] as a digit of a base up to 36; 99 for any other
    byte. *)
Definition digit_value (c : Z) : Z :=
  if is_a_digit c then c - chr "0"
  else if (chr "a" <=? c) && (c <=? chr "z") then c - chr "a" + 10
  else if (chr "A" <=? c) && (c <=? chr "Z") then c - chr "A" + 10
  else 99.

(** The digits of [base] at the head of [l]: their value on top of [acc],
    and what follows them. *)
Fixpoint span_base (base acc : Z) (l : list Z) : Z * list Z :=
  match l with
  | c :: l' =>
      if digit_value c <? base
      then span_base base (acc * base + digit_value c) l'
      else (acc, l)
  | [] => (acc, [])
  end.

(** [strtoull(s, &endp, 0)] on a text without blanks and sign: the value,
    at most [ULLONG_MAX], and the text from [endp] on.  The base is 16 after
    [0x] and a hexadecimal digit, 8 after [0], and 10 otherwise. *)
Definition strtoull0 (s : list Z) : Z * list Z :=
  let clamp r := (Z.min (fst r) (2 ^ 64 - 1), snd r) in
  let hex := match s with
             | c0 :: x :: d :: _ =>
                 (c0 =? chr "0") && (lower x =? chr "x") && (digit_value d <? 16)
             | _ => false
             end in
  if hex then clamp (span_base 16 0 (drop 2 s))
  else match s with
       | c0 :: _ =>
           if c0 =? chr "0" then clamp (span_base 8 0 s)
           else clamp (span_base 10 0 s)
       | [] => (0, [])
       end.

Definition is_nchar (c : Z) : bool :=
  is_a_digit c || ((chr "a" <=? c) && (c <=? chr "z"))
  || ((chr "A" <=? c) && (c <=? chr "Z")) || (c =? chr "_").

Fixpoint span_nchar (l : list Z) : list Z * list Z :=
  match l with
  | c :: l' =>
      if is_nchar c then let r := span_nchar l' in (c :: fst r, snd r)
      else ([], l)
  | [] => ([], [])
  end.

(** The NaN that the text after the word [nan] asks for: a sequence of
    letters, digits and underscores in parentheses that [strtoull] reads
    to its end sets the low 51 bits of the mantissa; anything else gives
    the default quiet NaN. *)
Definition nan_bits (after : list Z) : Z :=
  match after with
  | c :: r =>
      if c =? chr "(" then
        let '(seq, tl) := span_nchar r in
        match tl with
        | d :: _ =>
            if d =? chr ")" then
              match strtoull0 seq with
              | (v, []) => quiet_nan + v mod 2 ^ 51
              | _ => quiet_nan
              end
            else quiet_nan
        | [] => quiet_nan
        end
      else quiet_nan
  | [] => quiet_nan
  end.

Definition atof_bits (s : list Z) : Z :=
  let '(neg, s1) := take_sign (skip_spaces s) in
  let with_sign b := if neg then negate b else b in
  if starts_with (bytes_of "inf") s1 then with_sign pos_inf
  else if starts_with (bytes_of "nan") s1 then with_sign (nan_bits (drop 3 s1))
  else
    let '(ip, s2) := span_digits s1 in
    let '(fp, s3) := match s2 with
                     | c :: r => if c =? chr "." then span_digits r else ([], s2)
                     | [] => ([], s2)
                     end in
    match ip ++ fp with
    | [] => 0
    | ds =>
        let ex :=
          match s3 with
          | c :: r =>
              if (c =? chr "e") || (c =? chr "E") then
                let '(eneg, r') := take_sign r in
                let '(ed, _) := span_digits r' in
                if eneg then - digits_value ed else digits_value ed
              else 0
          | [] => 0
          end in
        with_sign (of_decimal (digits_value ds) (ex - Z.of_nat (length fp)))
    end.

(** [atof(str)]: the bytes from the pointer on, up to the end of the
    buffer, which stands for the terminating NUL. *)
Definition atof (str : charp) : res (list Z) :=
  if (pos str <? 0) || (Z.of_nat (length (mem str)) <? pos str)
  then raise OutOfBounds
  else ret (to_bytes (atof_bits (drop (Z.to_nat (pos str)) (mem str)))).

(** *** [printf] conversions *)

Fixpoint dec_digits (fuel : nat) (n : Z) (acc : list Z) : list Z :=
  match fuel with
  | O => acc
  | S f =>
      let acc' := (chr "0" + n mod 10) :: acc in
      if n <? 10 then acc' else dec_digits f (n / 10) acc'
  end.

(** The decimal numeral of [n >= 0]. *)
Definition decimal (n : Z) : list Z := dec_digits (S (Z.to_nat (Z.log2 n))) n [].

(** ["%.2lf"] *)
Definition fmt_2lf (b : Z) : list Z :=
  let sgn := if sign b then bytes_of "-" else [] in
  if is_nan b then sgn ++ bytes_of "nan"
  else if is_inf b then sgn ++ bytes_of "inf"
  else
    let '(m, e) := mantissa_exponent b in
    let n := if 0 <=? e then 100 * m * 2 ^ e
             else round_half_even (100 * m) (2 ^ (- e)) in
    sgn ++ decimal (n / 100) ++ bytes_of "."
        ++ [chr "0" + (n mod 100) / 10; chr "0" + n mod 10].

End Double.

(** ["%0wd"]: at least [w] characters, zero padded, sign first. *)
Definition fmt_0d (w : nat) (v : Z) : list Z :=
  let ds := Double.decimal (Z.abs v) in
  if v <? 0 then chr "-" :: replicate (w - 1 - length ds) (chr "0") ++ ds
  else replicate (w - length ds) (chr "0") ++ ds.

(** ** The parser *)

(** The condition under which both scans flip [instring] at [str[i]]. *)
Definition toggles (str : charp) (i : Z) (instring : bool) : res bool :=
  (ret (negb instring) &&& is_ch str i "'")
  ||| (ret instring &&& is_ch str i "'"
       &&& (c <- rd str (i - 1);; ret (negb (c =? chr "\")))).

(** The counting loop of [pbg_parse]. *)
Record counts : Type := Counts {
  numcommas : Z; numkeys : Z; numclosings : Z; cnt_instring : bool
}.

Definition count_step (str : charp) (i : Z) (s : counts) : res counts :=
  t <- toggles str i (cnt_instring s);;
  let instring := if t then negb (cnt_instring s) else cnt_instring s in
  if negb instring then
    c <- rd str i;;
    if c =? chr "," then
      ret (Counts (numcommas s + 1) (numkeys s) (numclosings s) instring)
    else if c =? chr "[" then
      ret (Counts (numcommas s) (numkeys s + 1) (numclosings s) instring)
    else if c =? chr ")" then
      ret (Counts (numcommas s) (numkeys s) (numclosings s + 1) instring)
    else ret (Counts (numcommas s) (numkeys s) (numclosings s) instring)
  else ret (Counts (numcommas s) (numkeys s) (numclosings s) instring).

(** The loop that fills [fields], [lengths] and [closings]; [sc_c], [sc_f],
    [sc_open] and [sc_instring] are its variables [c], [f], [open] and
    [instring]. *)
Record scan : Type := Scan {
  fields : array Z; lengths : array Z; closings : array Z;
  sc_c : Z; sc_f : Z; sc_open : bool; sc_instring : bool
}.

Definition scan_step (str : charp) (i : Z) (s : scan) : res scan :=
  t <- toggles str i (sc_instring s);;
  let instring := if t then negb (sc_instring s) else sc_instring s in
  if negb instring then
    (* if(str[i] == ')') closings[c] = i; *)
    rp <- is_ch str i ")";;
    closings1 <- (if rp then aset (closings s) (sc_c s) i else ret (closings s));;
    (* if(open && (...)) lengths[f] = i - fields[f], f++, open = 0; *)
    cl <- ret (sc_open s)
          &&& (is_ch str i ")"
               ||| (is_ch str i ","
                    &&& (p <- rd str (i - 1);; ret (negb (p =? chr ")")))));;
    s1 <- (if cl then
             fo <- aget (fields s) (sc_f s);;
             lengths1 <- aset (lengths s) (sc_f s) (i - fo);;
             ret (Scan (fields s) lengths1 closings1 (sc_c s) (sc_f s + 1)
                       false instring)
           else ret (Scan (fields s) (lengths s) closings1 (sc_c s) (sc_f s)
                          (sc_open s) instring));;
    (* if(!open && (...)) fields[f] = i+1, open = 1; *)
    op <- ret (negb (sc_open s1))
          &&& (is_ch str i "("
               ||| (is_ch str i ","
                    &&& (x <- rd str (i + 1);; ret (negb (x =? chr "(")))));;
    if op then
      fields1 <- aset (fields s1) (sc_f s1) (i + 1);;
      ret (Scan fields1 (lengths s1) (closings s1) (sc_c s1) (sc_f s1)
                true instring)
    else ret s1
  else ret (Scan (fields s) (lengths s) (closings s) (sc_c s) (sc_f s)
                 (sc_open s) instring).

(** [strncpy(dst, str, k)]: [k] bytes, zero-filled from the first NUL on. *)
Fixpoint strncpy_read (k : nat) (str : charp) (j : Z) : res (list Z) :=
  match k with
  | O => ret []
  | S k' =>
      c <- rd str j;;
      if c =? 0 then ret (replicate (S k') 0)
      else rest <- strncpy_read k' str (j + 1);; ret (c :: rest)
  end.

(** [malloc(k)] followed by [strncpy(dst, str, k)]; a negative [k] is an
    allocation and a copy of more than the address space. *)
Definition strncpy (str : charp) (k : Z) : res (list Z) :=
  if k <? 0 then raise OutOfBounds else strncpy_read (Z.to_nat k) str 0.

(** [e->_staticsz++] and the node written at that slot. *)
Definition new_static (e : pbg_expr) (nd : pbg_expr_node) : res (pbg_expr * Z) :=
  let idx := _staticsz e in
  st <- aset (_static e) idx nd;;
  ret (Expr st (_dynamic e) (_staticsz e + 1) (_dynamicsz e), idx).

(** [-(e->_dynamicsz++)-1] and the node written at [e->_dynamic - (idx+1)]. *)
Definition new_dynamic (e : pbg_expr) (nd : pbg_expr_node) : res (pbg_expr * Z) :=
  let idx := - _dynamicsz e - 1 in
  dy <- aset (_dynamic e) (- (idx + 1)) nd;;
  ret (Expr (_static e) dy (_staticsz e) (_dynamicsz e + 1), idx).

(** A write through the alias [node = e->_static + nodeidx]. *)
Definition set_static (e : pbg_expr) (idx : Z) (nd : pbg_expr_node) : res pbg_expr :=
  st <- aset (_static e) idx nd;;
  ret (Expr st (_dynamic e) (_staticsz e) (_dynamicsz e)).

(** The cells of an [int] array, all of which must have been written. *)
Fixpoint written (a : array Z) : res (list Z) :=
  match a with
  | [] => ret []
  | Some x :: a' => xs <- written a';; ret (x :: xs)
  | None :: _ => raise Uninitialized
  end.

(** The literal branch of [pbg_parse_r]: the node built from the field
    [str[0..n)] and the arena it goes to ([true]: dynamic).  For a field
    that is no valid literal the C code builds no node and returns with
    [ret.nodeidx] unassigned; the embedding stops at that branch. *)
Definition parse_literal (str : charp) (n : Z) : res (bool * pbg_expr_node) :=
  k <- pbg_iskey str n;;
  if k then
    bs <- strncpy (padd str 1) (n - 2);;
    ret (true, Node PBG_LT_KEY (n - 2) (DBytes bs))
  else
  d <- pbg_isdate str n;;
  if d then
    dt <- pbg_todate str n;;
    ret (false, Node PBG_LT_DATE sizeof_date dt)
  else
  nb <- pbg_isnumber str n;;
  if nb then
    bs <- Double.atof str;;
    ret (false, Node PBG_LT_NUMBER sizeof_double (DBytes bs))
  else
  sg <- pbg_isstring str n;;
  if sg then
    bs <- strncpy (padd str 1) (n - 2);;
    ret (false, Node PBG_LT_STRING (n - 2) (DBytes bs))
  else
  t <- pbg_istrue str n;;
  if t then ret (false, Node PBG_LT_TRUE 0 DNull)
  else
  f <- pbg_isfalse str n;;
  if f then ret (false, Node PBG_LT_FALSE 0 DNull)
  else raise InvalidLiteral.

(** The state of the loop that collects an operator's children. *)
Record children_state : Type := Children {
  ch_expr : pbg_expr; ch_arg : int2arg; ch_children : array Z; ch_max : Z
}.

Section ParseR.

Variables (str : charp) (fields lengths closings : array Z).

(** [fields[a.field] != -1 && fields[a.field] < closings[a.closing]] *)
Definition more_children (a : int2arg) : res bool :=
  (f <- aget fields (field a);; ret (negb (f =? -1)))
  &&& (f <- aget fields (field a);; c <- aget closings (closing a);;
       ret (f <? c)).

(** The loop body after the recursive call returned [r] in arena [e]:
    grow the child array when full, store the child, count it in
    [node->_int] through the alias [node = e->_static + idx]. *)
Definition add_child (idx : Z) (s : children_state) (e : pbg_expr)
    (r : int2ret) : res children_state :=
  nd <- aget (_static e) idx;;
  let grown := if _int nd =? ch_max s
               then (ch_children s ++ malloc (ch_max s), ch_max s * 2)
               else (ch_children s, ch_max s) in
  children <- aset (fst grown) (_int nd) (nodeidx r);;
  e' <- set_static e idx (Node (_type nd) (_int nd + 1) (_data nd));;
  ret (Children e' (arg r) children (snd grown)).

(** The [while] loop of the operator branch; [parse] is the recursive call
    and [k] bounds the number of iterations. *)
Fixpoint parse_children (parse : pbg_expr -> int2arg -> res (pbg_expr * int2ret))
    (idx : Z) (k : nat) (s : children_state) : res children_state :=
  more <- more_children (ch_arg s);;
  if more then
    match k with
    | O => raise OutOfFuel
    | S k' =>
        r <- parse (ch_expr s) (ch_arg s);;
        s' <- add_child idx s (fst r) (snd r);;
        parse_children parse idx k' s'
    end
  else ret s.

(** [realloc(children, k * sizeof(int))]: the first [k] cells, all of which
    were written; for [k = 0] the C library frees the array and returns
    NULL. *)
Definition tighten (children : array Z) (k : Z) : res pbg_data :=
  cs <- written (take (Z.to_nat k) children);;
  ret (if k =? 0 then DNull else DInts cs).

(** After the loop: tighten the child array to [node->_int] cells, save it
    in [node->_data], and hand the next closing to the parent. *)
Definition close_operator (idx : Z) (s : children_state)
  : res (pbg_expr * int2ret) :=
  nd <- aget (_static (ch_expr s)) idx;;
  children <- tighten (ch_children s) (_int nd);;
  e' <- set_static (ch_expr s) idx (Node (_type nd) (_int nd) children);;
  ret (e', Int2Ret (Int2Arg (field (ch_arg s)) (closing (ch_arg s) + 1)) idx).

Fixpoint pbg_parse_r (fuel : nat) (e : pbg_expr) (a : int2arg)
  : res (pbg_expr * int2ret) :=
  match fuel with
  | O => raise OutOfFuel
  | S fuel' =>
      fo <- aget fields (field a);;
      ln <- aget lengths (field a);;
      type <- pbg_toop (padd str fo) ln;;
      if negb (bool_decide (type = PBG_UNKNOWN)) then
        (* This field is an operator. *)
        r <- new_static e (Node type 0 DUnset);;
        s <- parse_children (pbg_parse_r fuel') (snd r) fuel'
               (Children (fst r) (Int2Arg (field a + 1) (closing a))
                         (malloc 2) 2);;
        close_operator (snd r) s
      else
        (* This field is a literal. *)
        lit <- parse_literal (padd str fo) ln;;
        r <- (if fst lit then new_dynamic e (snd lit)
              else new_static e (snd lit));;
        ret (fst r, Int2Ret (Int2Arg (field a + 1) (closing a)) (snd r))
  end.

End ParseR.

(** The first half of [pbg_parse], up to the allocation of the arenas:
    the three index arrays and the sizes computed for the arenas. *)
Record scanned : Type := Scanned {
  sd_fields : array Z; sd_lengths : array Z; sd_closings : array Z;
  numfields : Z; numstatic : Z; numdynamic : Z
}.

Definition pbg_scan (str : charp) (n : Z) : res scanned :=
  cnt <- for_up (Z.to_nat n) 0 (count_step str) (Counts 0 0 0 false);;
  let numfields := numcommas cnt + 1 in
  let numstatic := numfields - numkeys cnt in
  let numdynamic := numkeys cnt in
  c0 <- rd str 0;;
  let f0 := if c0 =? chr "(" then 1 else 0 in
  fields0 <- aset (malloc (numfields + 1)) 0 f0;;
  sc <- for_up (Z.to_nat (n - f0)) f0 (scan_step str)
          (Scan fields0 (malloc numfields) (malloc (numclosings cnt))
                0 0 true false);;
  fields1 <- aset (fields sc) numfields (-1);;
  ret (Scanned fields1 (lengths sc) (closings sc)
               numfields numstatic numdynamic).

(** [pbg_parse].  The C function leaves its result in [e]; the value of the
    outermost [pbg_parse_r] call, which it discards, is returned alongside.
    Each call of [pbg_parse_r] consumes a field, so [numfields + 2] bounds
    both its depth and the length of its loops. *)
Definition pbg_parse (str : charp) (n : Z) : res (pbg_expr * int2ret) :=
  sc <- pbg_scan str n;;
  pbg_parse_r str (sd_fields sc) (sd_lengths sc) (sd_closings sc)
    (Z.to_nat (numfields sc) + 2)
    (Expr (malloc (numstatic sc)) (malloc (numdynamic sc)) 0 0)
    (Int2Arg 0 0).

(** ** The evaluator *)

(** [*((double* )d)]: the pattern in the first 8 bytes. *)
Definition data_double (d : pbg_data) : res Z :=
  match d with
  | DUnset => raise Uninitialized
  | DNull => raise NullDeref
  | _ =>
      let bs := data_bytes d in
      if Z.of_nat (length bs) <? sizeof_double then raise OutOfBounds
      else ret (Double.of_bytes (take 8 bs))
  end.

(** [*((pbg_type_date* )d)] *)
Definition data_date (d : pbg_data) : res (Z * Z * Z) :=
  match d with
  | DUnset => raise Uninitialized
  | DNull => raise NullDeref
  | DDate y m d => ret (y, m, d)
  | _ => raise BadCast
  end.

(** [strncmp(a, b, n)]: compare until the bytes differ, a NUL is met or
    [n] bytes were compared. *)
Fixpoint strncmp_loop (k : nat) (a b : pbg_data) (j : Z) : res Z :=
  match k with
  | O => ret 0
  | S k' =>
      x <- data_byte a j;;
      y <- data_byte b j;;
      if negb (x =? y) then ret (x - y)
      else if x =? 0 then ret 0
      else strncmp_loop k' a b (j + 1)
  end.

(** A negative [n] converts to a [size_t] beyond any object. *)
Definition strncmp (a b : pbg_data) (n : Z) : res Z :=
  strncmp_loop (if n <? 0 then S (length (data_bytes a)) else Z.to_nat n) a b 0.

(** The byte loop of EQ: [false] at the first [j < n] where the payloads
    differ. *)
Fixpoint same_bytes (k : nat) (a b : pbg_data) (j : Z) : res bool :=
  match k with
  | O => ret true
  | S k' =>
      x <- data_byte a j;;
      y <- data_byte b j;;
      if negb (x =? y) then ret false else same_bytes k' a b (j + 1)
  end.

Section EvaluateR.

(** The recursive call [pbg_evaluate_r(e, .)]: its value and the child
    references the walk below it visited, in order. *)
Variable eval : pbg_expr_node -> res (Z * list Z).
Variables (e : pbg_expr) (children : pbg_data).

(** The loops of AND ([stop = 0]) and OR ([stop = 1]):
    [for(i ...) if(pbg_evaluate_r(e, child i) == stop) return stop;
     return 1 - stop;]
    [seen] accumulates the references visited so far. *)
Fixpoint walk_children (stop : Z) (k : nat) (i : Z) (seen : list Z)
  : res (Z * list Z) :=
  match k with
  | O => ret (1 - stop, seen)
  | S k' =>
      ci <- data_int children i;;
      nd <- get_expr_node e ci;;
      r <- eval nd;;
      if fst r =? stop then ret (stop, seen ++ ci :: snd r)
      else walk_children stop k' (i + 1) (seen ++ ci :: snd r)
  end.

(** The loop of EQ over the children [i >= 1]. *)
Fixpoint equal_children (child0 : res pbg_expr_node) (k : nat) (i : Z)
  : res Z :=
  match k with
  | O => ret 1
  | S k' =>
      ci <- data_int children i;;
      childi <- get_expr_node e ci;;
      c0 <- child0;;
      if negb (_int childi =? _int c0)
         || negb (bool_decide (_type childi = _type c0))
      then ret 0
      else
        same <- same_bytes (Z.to_nat (_int c0)) (_data c0) (_data childi) 0;;
        if same then equal_children child0 k' (i + 1) else ret 0
  end.

(** LT, GT, LTE and GTE: both operands read through a [double*]. *)
Definition compare_children (child0 : res pbg_expr_node)
    (cmp : Z -> Z -> bool) : res Z :=
  c1 <- data_int children 1;;
  let child1 := get_expr_node e c1 in
  c0 <- child0;;
  x <- data_double (_data c0);;
  c1 <- child1;;
  y <- data_double (_data c1);;
  ret (Z.b2z (cmp x y)).

End EvaluateR.

Fixpoint pbg_evaluate_r (fuel : nat) (e : pbg_expr) (node : pbg_expr_node)
  : res (Z * list Z) :=
  match fuel with
  | O => raise OutOfFuel
  | S fuel' =>
      if below_MAX_LT (_type node) then
        if bool_decide (_type node = PBG_LT_TRUE) then ret (1, [])
        else if bool_decide (_type node = PBG_LT_FALSE) then ret (0, [])
        else ret (0, [])
      else if below_MAX_OP (_type node) then
        let children := _data node in
        let size := _int node in
        c0 <- data_int children 0;;
        let child0 := get_expr_node e c0 in
        match _type node with
        | PBG_OP_NOT =>
            nd <- child0;;
            r <- pbg_evaluate_r fuel' e nd;;
            ret (Z.b2z (fst r =? 0), c0 :: snd r)
        | PBG_OP_AND =>
            walk_children (pbg_evaluate_r fuel' e) e children 0
              (Z.to_nat size) 0 []
        | PBG_OP_OR =>
            walk_children (pbg_evaluate_r fuel' e) e children 1
              (Z.to_nat size) 0 []
        | PBG_OP_EQ =>
            r <- equal_children e children child0 (Z.to_nat (size - 1)) 1;;
            ret (r, [])
        | PBG_OP_LT =>
            r <- compare_children e children child0 Double.lt;; ret (r, [])
        | PBG_OP_GT =>
            r <- compare_children e children child0 Double.gt;; ret (r, [])
        | PBG_OP_EXST =>
            nd <- child0;;
            ret (Z.b2z (negb (bool_decide (_type nd = PBG_UNKNOWN))), [])
        | PBG_OP_NEQ =>
            c1 <- data_int children 1;;
            child1 <- get_expr_node e c1;;
            nd0 <- child0;;
            if negb (bool_decide (_type child1 = _type nd0)) then ret (1, [])
            else if negb (_int child1 =? _int nd0) then ret (1, [])
            else
              r <- strncmp (_data child1) (_data nd0) (_int nd0);;
              ret (Z.b2z (negb (r =? 0)), [])
        | PBG_OP_LTE =>
            r <- compare_children e children child0 Double.le;; ret (r, [])
        | PBG_OP_GTE =>
            r <- compare_children e children child0 Double.ge;; ret (r, [])
        | _ => raise NoReturn
        end
      else raise NoReturn
  end.

(** What [pbg_evaluate] does that a caller can observe: a call of the
    dictionary for the key in dynamic slot [i], and a visit of the walk to
    the node with reference [ref]. *)
Inductive event : Type :=
| EvDict (i : Z) (key : list Z) (len : Z)
| EvVisit (ref : Z).

(** The dictionary callback: a key's bytes and length to a literal node. *)
Definition dictionary : Type := list Z -> Z -> pbg_expr_node.

(** The key-resolution loop:
    [dynamics[i] = dict((char* )(keylt->_data), keylt->_int)]. *)
Definition resolve_key (e : pbg_expr) (dict : dictionary) (i : Z)
    (s : array pbg_expr_node * list event)
  : res (array pbg_expr_node * list event) :=
  keylt <- aget (_dynamic e) i;;
  let key := data_bytes (_data keylt) in
  dynamics <- aset (fst s) i (dict key (_int keylt));;
  ret (dynamics, snd s ++ [EvDict i key (_int keylt)]).

(** [pbg_evaluate]: the result and the events in the order they happen.
    The walk starts at [e->_static], reference 0; [fuel] bounds its depth. *)
Definition pbg_evaluate (fuel : nat) (e : pbg_expr) (dict : dictionary)
  : res (Z * list event) :=
  s <- for_up (Z.to_nat (_dynamicsz e)) 0 (resolve_key e dict)
         (malloc (_dynamicsz e), []);;
  let swapped := Expr (_static e) (fst s) (_staticsz e) (_dynamicsz e) in
  root <- aget (_static swapped) 0;;
  r <- pbg_evaluate_r fuel swapped root;;
  ret (fst r, snd s ++ map EvVisit (0 :: snd r)).

(** ** The renderer *)

(** [buf[i++] = c], for each byte of [cs] in turn. *)
Fixpoint put (cs : list Z) (buf : array Z) (i : Z) : res (array Z * Z) :=
  match cs with
  | [] => ret (buf, i)
  | c :: cs' => b <- aset buf i c;; put cs' b (i + 1)
  end.

(** [i += snprintf(buf+i, size, ...)] where the conversion yields [cs]: at
    most [size - 1] bytes and a NUL are written, the full length is
    returned.  [sprintf] is the same without a limit. *)
Definition snprintf (size : option Z) (cs : list Z) (buf : array Z) (i : Z)
  : res (array Z * Z) :=
  let shown := match size with
               | Some sz => take (Z.to_nat (sz - 1)) cs
               | None => cs
               end in
  r <- put (shown ++ [0]) buf i;;
  ret (fst r, i + Z.of_nat (length cs)).

(** [for(j ...) buf[i++] = data[j];] *)
Fixpoint put_data (k : nat) (d : pbg_data) (j : Z) (buf : array Z) (i : Z)
  : res (array Z * Z) :=
  match k with
  | O => ret (buf, i)
  | S k' =>
      c <- data_byte d j;;
      b <- aset buf i c;;
      put_data k' d (j + 1) b (i + 1)
  end.

Definition operator_symbol (t : pbg_node_type) : string :=
  match t with
  | PBG_OP_NOT => "!" | PBG_OP_AND => "&" | PBG_OP_OR => "|"
  | PBG_OP_EQ => "=" | PBG_OP_LT => "<" | PBG_OP_GT => ">"
  | PBG_OP_EXST => "?" | PBG_OP_NEQ => "!=" | PBG_OP_LTE => "<="
  | PBG_OP_GTE => ">="
  | _ => ""
  end.

Section GetsR.

(** The recursive call [pbg_gets_r(e, ., buf, i)]. *)
Variable gets : pbg_expr_node -> array Z -> Z -> res (array Z * Z).
Variables (e : pbg_expr) (node : pbg_expr_node).

(** The loop over the children of an operator; [j] is the loop index. *)
Fixpoint gets_children (k : nat) (j : Z) (buf : array Z) (i : Z)
  : res (array Z * Z) :=
  match k with
  | O => ret (buf, i)
  | S k' =>
      cj <- data_int (_data node) j;;
      child <- get_expr_node e cj;;
      r <- gets child buf i;;
      r <- (if negb (j =? _int node - 1)
            then put (bytes_of ",") (fst r) (snd r) else ret r);;
      gets_children k' (j + 1) (fst r) (snd r)
  end.

End GetsR.

Fixpoint pbg_gets_r (fuel : nat) (e : pbg_expr) (node : pbg_expr_node)
    (buf : array Z) (i : Z) : res (array Z * Z) :=
  match fuel with
  | O => raise OutOfFuel
  | S fuel' =>
      if below_MAX_LT (_type node) then
        match _type node with
        | PBG_LT_TRUE => put (bytes_of "TRUE") buf i
        | PBG_LT_FALSE => put (bytes_of "FALSE") buf i
        | PBG_LT_STRING =>
            r <- put (bytes_of "'") buf i;;
            r <- put_data (Z.to_nat (_int node)) (_data node) 0 (fst r) (snd r);;
            put (bytes_of "'") (fst r) (snd r)
        | PBG_LT_DATE =>
            dt <- data_date (_data node);;
            r <- snprintf (Some 5) (fmt_0d 4 (fst (fst dt))) buf i;;
            r <- put (bytes_of "-") (fst r) (snd r);;
            r <- snprintf (Some 3) (fmt_0d 2 (snd (fst dt))) (fst r) (snd r);;
            r <- put (bytes_of "-") (fst r) (snd r);;
            snprintf (Some 3) (fmt_0d 2 (snd dt)) (fst r) (snd r)
        | PBG_LT_KEY =>
            r <- put (bytes_of "[") buf i;;
            r <- put_data (Z.to_nat (_int node)) (_data node) 0 (fst r) (snd r);;
            put (bytes_of "]") (fst r) (snd r)
        | PBG_LT_NUMBER =>
            x <- data_double (_data node);;
            snprintf None (Double.fmt_2lf x) buf i
        | _ => ret (buf, i)
        end
      else if below_MAX_OP (_type node) then
        r <- put (bytes_of "(") buf i;;
        r <- put (bytes_of (operator_symbol (_type node))) (fst r) (snd r);;
        r <- put (bytes_of ",") (fst r) (snd r);;
        r <- gets_children (pbg_gets_r fuel' e) e node
               (Z.to_nat (_int node)) 0 (fst r) (snd r);;
        put (bytes_of ")") (fst r) (snd r)
      else ret (buf, i)
  end.

(** The C string held by [buf]: its bytes up to the first NUL. *)
Fixpoint c_string (buf : array Z) : res (list Z) :=
  match buf with
  | [] => raise OutOfBounds
  | None :: _ => raise Uninitialized
  | Some c :: buf' =>
      if c =? 0 then ret [] else s <- c_string buf';; ret (c :: s)
  end.

(** [pbg_gets]: the text written into the [malloc(1000)] buffer. *)
Definition pbg_gets (fuel : nat) (e : pbg_expr) : res (list Z) :=
  root <- aget (_static e) 0;;
  r <- pbg_gets_r fuel e root (malloc 1000) 0;;
  buf <- aset (fst r) (snd r) 0;;
  c_string buf.

(** ** The release of an expression *)

(** [for (i = a; k iterations; i--) body] threading a state. *)
Fixpoint for_down {S : Type} (k : nat) (i : Z) (body : Z -> S -> res S) (s : S)
  : res S :=
  match k with
  | O => ret s
  | S k' => s' <- body i s;; for_down k' (i - 1) body s'
  end.

(** A block handed back by [free]: the payload of the node with reference
    [ref], or one of the two arenas. *)
Inductive release : Type :=
| FreeData (ref : Z)
| FreeStatic
| FreeDynamic.

#[global] Instance release_eq_dec : EqDecision release.
Proof. solve_decision. Defined.

(** [free(d)] where [d] is the [_data] of the node [ref]: nothing happens
    for NULL, and a pointer that was never assigned must not be freed. *)
Definition free_data (ref : Z) (d : pbg_data) : res (list release) :=
  match d with
  | DUnset => raise Uninitialized
  | DNull => ret []
  | _ => ret [FreeData ref]
  end.

Definition free_expr_node (ref : Z) (node : pbg_expr_node) : res (list release) :=
  if bool_decide (_type node = PBG_LT_TRUE) then ret []
  else if bool_decide (_type node = PBG_LT_FALSE) then ret []
  else if bool_decide (_type node = PBG_UNKNOWN) then ret []
  else free_data ref (_data node).

(** [pbg_free]: the blocks released, in the order of the calls of [free]. *)
Definition pbg_free (e : pbg_expr) : res (list release) :=
  fs <- for_down (Z.to_nat (_staticsz e)) (_staticsz e - 1)
          (fun i acc =>
             nd <- aget (_static e) i;;
             f <- free_expr_node i nd;; ret (acc ++ f)) [];;
  fd <- for_up (Z.to_nat (_dynamicsz e)) 0
          (fun i acc =>
             nd <- aget (_dynamic e) i;;
             f <- free_data (- i - 1) (_data nd);; ret (acc ++ f)) fs;;
  ret (fd ++ [FreeStatic; FreeDynamic]).

(** ** Vocabulary of the properties *)

(** [pbg_parse] on the text [s], with [n] its length. *)
Definition parse_text (s : string) : res (pbg_expr * int2ret) :=
  pbg_parse (cstr s) (Z.of_nat (String.length s)).

(** A dictionary that knows no key. *)
Definition no_dict : dictionary := fun _ _ => Node PBG_UNKNOWN 0 DNull.

(** Parse the text, then evaluate it with the dictionary. *)
Definition evaluate_text (s : string) (dict : dictionary) : res (Z * list event) :=
  r <- parse_text s;; pbg_evaluate (S (String.length s)) (fst r) dict.

(** Parse the text, then render the expression. *)
Definition render_text (s : string) : res (list Z) :=
  r <- parse_text s;; pbg_gets (S (String.length s)) (fst r).

(** [pbg_evaluate_r(e, get_expr_node(e, c))]: the evaluation of the child
    with reference [c]. *)
Definition child_result (fuel : nat) (e : pbg_expr) (c : Z) : res (Z * list Z) :=
  nd <- get_expr_node e c;; pbg_evaluate_r fuel e nd.

(** The child [c] evaluates to [v]. *)
Definition child_value (fuel : nat) (e : pbg_expr) (c v : Z) : Prop :=
  exists seen, child_result fuel e c = inr (v, seen).

(** The references a walk over the children [cs] visits when it evaluates
    each of them in turn: the child, then what its own evaluation visits. *)
Fixpoint visits_of (fuel : nat) (e : pbg_expr) (cs : list Z) : list Z :=
  match cs with
  | [] => []
  | c :: cs' =>
      match child_result fuel e c with
      | inr r => c :: snd r ++ visits_of fuel e cs'
      | inl _ => c :: visits_of fuel e cs'
      end
  end.

(** The payload of a node: the first [_int] bytes [_data] points to. *)
Definition payload (nd : pbg_expr_node) : list Z :=
  take (Z.to_nat (_int nd)) (data_bytes (_data nd)).

(** [_data] holds at least the [_int] bytes the node announces. *)
Definition payload_readable (nd : pbg_expr_node) : Prop :=
  _int nd <= Z.of_nat (length (data_bytes (_data nd))).

(** The comparison a comparison operator applies to its operands. *)
Definition comparison_of (t : pbg_node_type) : option (Z -> Z -> bool) :=
  match t with
  | PBG_OP_LT => Some Double.lt
  | PBG_OP_GT => Some Double.gt
  | PBG_OP_LTE => Some Double.le
  | PBG_OP_GTE => Some Double.ge
  | _ => None
  end.

(** The first 8 bytes of a node's data read as a [double]. *)
Definition operand (nd : pbg_expr_node) : Z :=
  Double.of_bytes (take 8 (data_bytes (_data nd))).

(** The dictionary calls of key resolution, one per key, in arena order. *)
Definition dict_calls (keys : list pbg_expr_node) : list event :=
  imap (fun i k => EvDict (Z.of_nat i) (data_bytes (_data k)) (_int k)) keys.

(** The arena of resolved values that stands in for the keys. *)
Definition resolved (dict : dictionary) (keys : list pbg_expr_node)
  : array pbg_expr_node :=
  map (fun k => Some (dict (data_bytes (_data k)) (_int k))) keys.

(** The child with reference [c] has the kind, the payload length and the
    payload of [n0]. *)
Definition same_as (e : pbg_expr) (n0 : pbg_expr_node) (c : Z) : Prop :=
  exists nd, get_expr_node e c = inr nd /\
             _type nd = _type n0 /\ _int nd = _int n0 /\
             payload nd = payload n0.

(** The children [cs] can be walked with deciding value [stop]: each
    evaluates in turn, up to the first whose value is [stop]; the children
    after that one need not evaluate at all. *)
Fixpoint walkable (fuel : nat) (e : pbg_expr) (stop : Z) (cs : list Z) : Prop :=
  match cs with
  | [] => True
  | c :: cs' =>
      exists r, child_result fuel e c = inr r /\
                (fst r = stop \/ walkable fuel e stop cs')
  end.

(** The value at which the walk over the children of an AND or an OR
    node stops: false for AND, true for OR. *)
Definition deciding_value (t : pbg_node_type) : Z :=
  match t with PBG_OP_AND => 0 | _ => 1 end.

(** The walk over the children [cs] visited [visited]: the children in
    stored order, each followed by what its own evaluation visits, up to
    and including the first child whose value is [stop], and no child
    after that one. *)
Definition walked (fuel : nat) (e : pbg_expr) (stop : Z)
    (cs visited : list Z) : Prop :=
  (visited = visits_of fuel e cs /\
   forall c, c ∈ cs -> ~ child_value fuel e c stop) \/
  (exists pre c post,
     cs = pre ++ c :: post /\
     visited = visits_of fuel e (pre ++ [c]) /\
     (forall c', c' ∈ pre -> ~ child_value fuel e c' stop) /\
     child_value fuel e c stop).

(** The kind of the node [pbg_parse_r] builds from field 0, as its two
    branches classify that field. *)
Definition first_field_kind (str : charp) (sc : scanned) : res pbg_node_type :=
  fo <- aget (sd_fields sc) 0;;
  ln <- aget (sd_lengths sc) 0;;
  type <- pbg_toop (padd str fo) ln;;
  if negb (bool_decide (type = PBG_UNKNOWN)) then ret type
  else lit <- parse_literal (padd str fo) ln;; ret (_type (snd lit)).

(** Between two arenas the static counter did not decrease and the static
    nodes below the earlier counter are unchanged. *)
Definition static_frame (e e' : pbg_expr) : Prop :=
  _staticsz e <= _staticsz e' /\
  forall i : nat, Z.of_nat i < _staticsz e -> _static e' !! i = _static e !! i.

(** What the loop over an operator's children keeps: the counter does not
    decrease, the other static nodes below it stay, and the node [idx]
    itself keeps its kind. *)
Definition children_frame (idx : Z) (e e' : pbg_expr) : Prop :=
  _staticsz e <= _staticsz e' /\
  (forall i : nat, Z.of_nat i < _staticsz e -> Z.of_nat i <> idx ->
                   _static e' !! i = _static e !! i) /\
  (forall nd, _static e !! Z.to_nat idx = Some (Some nd) ->
              exists nd', _static e' !! Z.to_nat idx = Some (Some nd') /\
                          _type nd' = _type nd).

(** The counters of an arena stay within its two allocations. *)
Definition bounded (e : pbg_expr) : Prop :=
  0 <= _staticsz e <= Z.of_nat (length (_static e)) /\
  0 <= _dynamicsz e <= Z.of_nat (length (_dynamic e)).

(** The nodes built between two arenas, by the counters. *)
Definition nodes_built (e e' : pbg_expr) : Z :=
  (_staticsz e' - _staticsz e) + (_dynamicsz e' - _dynamicsz e).

(** What a run of the parser from field [f] in arena [e] to field [f'] in
    arena [e'] accounts for: one node per field consumed, in arenas whose
    allocations did not change. *)
Definition accounted (e : pbg_expr) (f : Z) (e' : pbg_expr) (f' : Z) : Prop :=
  _staticsz e <= _staticsz e' /\ _dynamicsz e <= _dynamicsz e' /\
  nodes_built e e' = f' - f /\
  length (_static e') = length (_static e) /\
  length (_dynamic e') = length (_dynamic e) /\
  bounded e'.

(** The computation did not stop for lack of fuel: whatever it returned,
    value or fault, is what the C code does. *)
Definition fueled {A : Type} (m : res A) : Prop := m <> inl OutOfFuel.

(** A stage of [pbg_isnumber] gives the same answer on two buffers and
    hands an index within [0..n] to the next stage. *)
Definition stage_agrees_on (str1 str2 : charp) (n : Z)
    (stage : charp -> res (option Z)) : Prop :=
  stage str2 = stage str1 /\
  forall r, stage str1 = inr (Some r) -> 0 <= r <= n.

(** *** Shapes of the nodes of a parsed expression *)

(** The reference [c] resolves to a node that was built. *)
Definition built (e : pbg_expr) (c : Z) : Prop :=
  - _dynamicsz e <= c < _staticsz e.

(** The node behind the reference [c] is a literal. *)
Definition literal_at (e : pbg_expr) (c : Z) : Prop :=
  exists nd, get_expr_node e c = inr nd /\ below_MAX_LT (_type nd) = true.

(** The payload of a literal as the parser allocates and fills it. *)
Definition literal_shape (nd : pbg_expr_node) : Prop :=
  match _type nd with
  | PBG_LT_TRUE | PBG_LT_FALSE => _int nd = 0 /\ _data nd = DNull
  | PBG_LT_NUMBER =>
      _int nd = sizeof_double /\
      exists bs, _data nd = DBytes bs /\ length bs = 8%nat
  | PBG_LT_STRING | PBG_LT_KEY =>
      exists bs, _data nd = DBytes bs /\ _int nd = Z.of_nat (length bs)
  | PBG_LT_DATE =>
      _int nd = sizeof_date /\
      exists y m d, _data nd = DDate y m d /\
                    0 <= y <= 9999 /\ 0 <= m <= 99 /\ 0 <= d <= 99
  | _ => False
  end.

(** The child references of a node: the [int]s its [_data] points to, none
    when [_data] is NULL or holds a literal's payload. *)
Definition children_refs (nd : pbg_expr_node) : list Z :=
  match _data nd with DInts cs => cs | _ => [] end.

(** An operator node [idx] whose list of children is complete: [_int]
    counts the children, every child was built, a static child comes after
    its parent, and every child but the last is a literal. *)
Definition operator_shape (e : pbg_expr) (idx : Z) (nd : pbg_expr_node) : Prop :=
  let cs := children_refs nd in
  _data nd = (if _int nd =? 0 then DNull else DInts cs) /\
  _int nd = Z.of_nat (length cs) /\
  (forall c, c ∈ cs -> built e c /\ (0 <= c -> idx < c)) /\
  (forall (j : nat) c, cs !! j = Some c -> (S j < length cs)%nat ->
                       literal_at e c).

Definition static_shape (e : pbg_expr) (idx : Z) (nd : pbg_expr_node) : Prop :=
  if below_MAX_LT (_type nd)
  then _type nd <> PBG_LT_KEY /\ literal_shape nd
  else operator_shape e idx nd.

Definition key_shape (nd : pbg_expr_node) : Prop :=
  _type nd = PBG_LT_KEY /\ literal_shape nd.

(** The nodes built between the arenas [e] and [e'] are complete. *)
Definition completes (e e' : pbg_expr) : Prop :=
  (forall i : nat, _staticsz e <= Z.of_nat i < _staticsz e' ->
     exists nd, _static e' !! i = Some (Some nd) /\
                static_shape e' (Z.of_nat i) nd) /\
  (forall i : nat, _dynamicsz e <= Z.of_nat i < _dynamicsz e' ->
     exists nd, _dynamic e' !! i = Some (Some nd) /\ key_shape nd).

(** Every node of the arena is complete. *)
Definition well_formed (e : pbg_expr) : Prop :=
  (forall i : nat, Z.of_nat i < _staticsz e ->
     exists nd, _static e !! i = Some (Some nd) /\
                static_shape e (Z.of_nat i) nd) /\
  (forall i : nat, Z.of_nat i < _dynamicsz e ->
     exists nd, _dynamic e !! i = Some (Some nd) /\ key_shape nd).

(** Between two arenas the dynamic counter did not decrease and the dynamic
    nodes below the earlier counter are unchanged. *)
Definition dynamic_frame (e e' : pbg_expr) : Prop :=
  _dynamicsz e <= _dynamicsz e' /\
  forall i : nat, Z.of_nat i < _dynamicsz e -> _dynamic e' !! i = _dynamic e !! i.

(** Every cell of the arenas that was written lies below its counter. *)
Definition counted (e : pbg_expr) : Prop :=
  (forall (i : nat) nd, _static e !! i = Some (Some nd) ->
                        Z.of_nat i < _staticsz e) /\
  (forall (i : nat) nd, _dynamic e !! i = Some (Some nd) ->
                        Z.of_nat i < _dynamicsz e).

(** What a call of [pbg_parse_r] from arena [e] with argument [a]
    guarantees about the arena [e'] and the value [r] it returns. *)
Definition parsed (e : pbg_expr) (a : int2arg) (e' : pbg_expr) (r : int2ret)
  : Prop :=
  static_frame e e' /\ dynamic_frame e e' /\ completes e e' /\ bounded e' /\
  counted e' /\
  closing a <= closing (arg r) /\
  built e' (nodeidx r) /\
  (0 <= nodeidx r -> _staticsz e <= nodeidx r) /\
  (nodeidx r < 0 -> nodeidx r < - _dynamicsz e) /\
  (closing (arg r) = closing a -> literal_at e' (nodeidx r)).

(** The state of the loop over the children of the operator node [idx],
    entered from arena [e0] with closing index [c0]: the node is still
    open and the children collected so far are [cs]. *)
Definition collecting (e0 : pbg_expr) (idx c0 : Z) (t : pbg_node_type)
    (s : children_state) (cs : list Z) : Prop :=
  let e := ch_expr s in
  bounded e /\ counted e /\ 0 <= idx < _staticsz e /\
  (forall i : nat, Z.of_nat i < idx -> _static e !! i = _static e0 !! i) /\
  dynamic_frame e0 e /\
  (forall i : nat, idx < Z.of_nat i < _staticsz e ->
     exists nd, _static e !! i = Some (Some nd) /\
                static_shape e (Z.of_nat i) nd) /\
  (forall i : nat, _dynamicsz e0 <= Z.of_nat i < _dynamicsz e ->
     exists nd, _dynamic e !! i = Some (Some nd) /\ key_shape nd) /\
  _static e !! Z.to_nat idx
    = Some (Some (Node t (Z.of_nat (length cs)) DUnset)) /\
  (forall (j : nat) c, cs !! j = Some c -> ch_children s !! j = Some (Some c)) /\
  length (ch_children s) = Z.to_nat (ch_max s) /\
  (length cs <= length (ch_children s))%nat /\ 1 <= ch_max s /\
  (forall c, c ∈ cs -> built e c /\ (0 <= c -> idx < c)) /\
  (forall (j : nat) c, cs !! j = Some c -> (S j < length cs)%nat ->
                       literal_at e c) /\
  (closing (ch_arg s) = c0 -> forall c, c ∈ cs -> literal_at e c) /\
  c0 <= closing (ch_arg s).

(** The node behind [c] holds a payload that was allocated. *)
Definition holds_payload (e : pbg_expr) (c : Z) : Prop :=
  built e c /\
  exists nd, get_expr_node e c = inr nd /\ _data nd <> DNull.

(** *** The text of an expression *)

(** [for(j ...) data[j]]: the [k] bytes of a payload from [j] on. *)
Fixpoint read_data (k : nat) (d : pbg_data) (j : Z) : res (list Z) :=
  match k with
  | O => ret []
  | S k' => c <- data_byte d j;; cs <- read_data k' d (j + 1);; ret (c :: cs)
  end.

Section Rendering.

(** The text of a child, and the expression and node at hand. *)
Variable text_of : pbg_expr_node -> res (list Z).
Variables (e : pbg_expr) (node : pbg_expr_node).

(** The texts of the children from [j] on, a comma after each but the one
    with index [_int - 1]. *)
Fixpoint children_text (k : nat) (j : Z) : res (list Z) :=
  match k with
  | O => ret []
  | S k' =>
      cj <- data_int (_data node) j;;
      child <- get_expr_node e cj;;
      t <- text_of child;;
      rest <- children_text k' (j + 1);;
      ret (t ++ (if negb (j =? _int node - 1) then bytes_of "," else []) ++ rest)
  end.

End Rendering.

(** The text of a node, as a list of bytes: what [pbg_gets_r] is meant to
    append to its buffer. *)
Fixpoint rendering (fuel : nat) (e : pbg_expr) (node : pbg_expr_node)
  : res (list Z) :=
  match fuel with
  | O => raise OutOfFuel
  | S fuel' =>
      if below_MAX_LT (_type node) then
        match _type node with
        | PBG_LT_TRUE => ret (bytes_of "TRUE")
        | PBG_LT_FALSE => ret (bytes_of "FALSE")
        | PBG_LT_STRING =>
            bs <- read_data (Z.to_nat (_int node)) (_data node) 0;;
            ret (bytes_of "'" ++ bs ++ bytes_of "'")
        | PBG_LT_DATE =>
            dt <- data_date (_data node);;
            ret (fmt_0d 4 (fst (fst dt)) ++ bytes_of "-"
                 ++ fmt_0d 2 (snd (fst dt)) ++ bytes_of "-" ++ fmt_0d 2 (snd dt))
        | PBG_LT_KEY =>
            bs <- read_data (Z.to_nat (_int node)) (_data node) 0;;
            ret (bytes_of "[" ++ bs ++ bytes_of "]")
        | PBG_LT_NUMBER =>
            x <- data_double (_data node);; ret (Double.fmt_2lf x)
        | _ => ret []
        end
      else
        cs <- children_text (rendering fuel' e) e node (Z.to_nat (_int node)) 0;;
        ret (bytes_of "(" ++ bytes_of (operator_symbol (_type node))
             ++ bytes_of "," ++ cs ++ bytes_of ")")
  end.

(** The bytes of [l] before its first NUL. *)
Fixpoint until_nul (l : list Z) : list Z :=
  match l with
  | [] => []
  | c :: l' => if c =? 0 then [] else c :: until_nul l'
  end.

(** The fields of a date fit the widths of ["%04d-%02d-%02d"]. *)
Definition date_fits (nd : pbg_expr_node) : Prop :=
  _type nd = PBG_LT_DATE ->
  exists y m d, _data nd = DDate y m d /\
                0 <= y <= 9999 /\ 0 <= m <= 99 /\ 0 <= d <= 99.

(** [f] appends [text] to a buffer at [i]: when it returns, the cells from
    [i] on hold [text], the cells before [i] are untouched and the index
    stands behind the text; it faults only by writing past the end, when
    the buffer has no room for the text. *)
Definition appends (f : array Z -> Z -> res (array Z * Z)) (text : list Z)
  : Prop :=
  forall buf i, 0 <= i <= Z.of_nat (length buf) ->
    match f buf i with
    | inr r =>
        snd r = i + Z.of_nat (length text) /\
        snd r <= Z.of_nat (length buf) /\
        length (fst r) = length buf /\
        take (Z.to_nat (snd r)) (fst r)
        = take (Z.to_nat i) buf ++ map Some text
    | inl err =>
        err = OutOfBounds /\ Z.of_nat (length buf) <= i + Z.of_nat (length text)
    end.

(** The depth of the walk from the node behind [c]: a dynamic node is a
    leaf, and the static children of a node come after it. *)
Definition depth_below (e : pbg_expr) (c : Z) : Z :=
  if c <? 0 then 1 else _staticsz e - c + 1.

(** The text of the expression: the rendering of the node at static
    index 0, where [pbg_gets] starts. *)
Definition expression_text (fuel : nat) (e : pbg_expr) : res (list Z) :=
  root <- aget (_static e) 0;; rendering fuel e root.

(** [p] holds of the [k] integers from [y] on. *)
Fixpoint all_from (k : nat) (y : Z) (p : Z -> bool) : bool :=
  match k with
  | O => true
  | S k' => p y && all_from k' (y + 1) p
  end.

(** Two lists of bytes are the same. *)
Fixpoint same_digits (l ds : list Z) : bool :=
  match l, ds with
  | [], [] => true
  | a :: l', d :: ds' => (a =? d) && same_digits l' ds'
  | _, _ => false
  end.

(** [str[j], str[j+1], ...]: the [k] bytes of a range. *)
Fixpoint range_bytes (k : nat) (str : charp) (j : Z) : res (list Z) :=
  match k with
  | O => ret []
  | S k' => c <- rd str j;; cs <- range_bytes k' str (j + 1);; ret (c :: cs)
  end.

(** The operator kinds. *)
Definition operators : list pbg_node_type :=
  [PBG_OP_NOT; PBG_OP_AND; PBG_OP_OR; PBG_OP_EQ; PBG_OP_LT; PBG_OP_GT;
   PBG_OP_EXST; PBG_OP_NEQ; PBG_OP_LTE; PBG_OP_GTE].

(** Arenas of small expressions, as the parser builds them. *)

(** The arena of [(&,TRUE,FALSE,(<,TRUE,TRUE))], whose last child has no
    value: LT dereferences the null payload of [TRUE]. *)
Definition and_arena : pbg_expr :=
  Expr [Some (Node PBG_OP_AND 3 (DInts [1; 2; 3]));
        Some (Node PBG_LT_TRUE 0 DNull);
        Some (Node PBG_LT_FALSE 0 DNull);
        Some (Node PBG_OP_LT 2 (DInts [1; 1]))] [] 4 0.

(** The arena of [(=,'ab','ab','ac')]. *)
Definition eq_arena : pbg_expr :=
  Expr [Some (Node PBG_OP_EQ 3 (DInts [1; 2; 3]));
        Some (Node PBG_LT_STRING 2 (DBytes (bytes_of "ab")));
        Some (Node PBG_LT_STRING 2 (DBytes (bytes_of "ab")));
        Some (Node PBG_LT_STRING 2 (DBytes (bytes_of "ac")))] [] 4 0.

(** The arena of [(&,FALSE,[k])]: the walk stops at [FALSE] and never
    visits the key, which is resolved all the same. *)
Definition key_arena : pbg_expr :=
  Expr [Some (Node PBG_OP_AND 2 (DInts [1; -1]));
        Some (Node PBG_LT_FALSE 0 DNull)]
       [Some (Node PBG_LT_KEY 1 (DBytes (bytes_of "k")))] 2 1.

(** The arena of [(<,2020-01-02,2020-01-03)]: two DATE operands. *)
Definition date_arena : pbg_expr :=
  Expr [Some (Node PBG_OP_LT 2 (DInts [1; 2]));
        Some (Node PBG_LT_DATE 12 (DDate 2020 1 2));
        Some (Node PBG_LT_DATE 12 (DDate 2020 1 3))] [] 3 0.

(** The arena of [(!,(!,TRUE))]. *)
Definition not_not_arena : pbg_expr :=
  Expr [Some (Node PBG_OP_NOT 1 (DInts [1]));
        Some (Node PBG_OP_NOT 1 (DInts [2]));
        Some (Node PBG_LT_TRUE 0 DNull)] [] 3 0.

(** The arena of the key [[k]] standing alone: no static node at all. *)
Definition root_key_arena : pbg_expr :=
  Expr [] [Some (Node PBG_LT_KEY 1 (DBytes (bytes_of "k")))] 0 1.

(** ** Properties *)

(** *** Recognizers *)

(** C9 (the code departs from the claim): a range holding the single byte
    ['] is recognized as a string, because [pbg_isstring] compares
    [str[0]] and [str[n-1]] without looking at [n]. *)
Lemma C9_single_quote_is_string : pbg_isstring (cstr "'") 1 = inr true.
Proof. reflexivity. Qed.

(** C10 (the code departs from the claim): on the range ["1"] of length 1
    the answer of [pbg_isnumber] depends on the bytes after the range, and
    when nothing follows the range the byte at position [n] is read outside
    the buffer. *)
Lemma C10_isnumber_reads_past_range :
  pbg_isnumber (cstr "1,") 1 = inr true /\
  pbg_isnumber (cstr "1.x") 1 = inr false /\
  pbg_isnumber (cstr "1") 1 = inl OutOfBounds.
Proof. repeat split; vm_compute; reflexivity. Qed.

(** *** Parser *)

(** C8 (the code departs from the claim): for the well-formed input [TRUE]
    the scan sizes the static arena at one node, but it never writes
    [lengths[0]] (a field is closed only at a comma or a closing
    parenthesis), so [pbg_parse_r] reads an unwritten cell.  Whatever that
    cell holds, other than the length 4 itself, the field is neither an
    operator nor a valid literal and no node is built from it. *)
Lemma C8_bare_literal_builds_no_node :
  (exists sc, pbg_scan (cstr "TRUE") 4 = inr sc /\
              numstatic sc = 1 /\ numdynamic sc = 0 /\
              sd_lengths sc = [None]) /\
  parse_text "TRUE" = inl Uninitialized /\
  (forall ln, ln <> 4 ->
     pbg_toop (cstr "TRUE") ln = inr PBG_UNKNOWN /\
     parse_literal (cstr "TRUE") ln = inl InvalidLiteral).
Proof.
  split; [eexists; split; [vm_compute; reflexivity|repeat split]|].
  split; [vm_compute; reflexivity|].
  intros ln H. split.
  - unfold pbg_toop. destruct (Z.eqb_spec ln 1) as [->|]; [reflexivity|].
    destruct (Z.eqb_spec ln 2) as [->|]; reflexivity.
  - unfold parse_literal, pbg_iskey, pbg_isdate, pbg_isstring, pbg_istrue,
      pbg_isfalse.
    cbn -[Z.eqb].
    destruct (Z.eqb_spec ln 10) as [->|]; [reflexivity|].
    cbn -[Z.eqb].
    destruct (Z.eqb_spec ln 4) as [->|]; [congruence|].
    destruct (Z.eqb_spec ln 5) as [->|]; reflexivity.
Qed.

(** *** Evaluator *)

(** C3 (the code departs from the claim): on the NUMBER operands 1 and 2
    NEQ and EQ both evaluate to false.  NEQ compares with [strncmp], which
    stops at the first zero byte of the two doubles; EQ compares all 8
    bytes. *)
Lemma C3_neq_is_not_negated_eq :
  evaluate_text "(!=,1,2)" no_dict = inr (0, [EvVisit 0]) /\
  evaluate_text "(=,1,2)" no_dict = inr (0, [EvVisit 0]).
Proof. split; vm_compute; reflexivity. Qed.

(** *** Renderer *)

(** C4 (the code departs from the claim): the parser accepts
    [(=,1.0e999,1)], whose first operand overflows to infinity; the
    renderer prints it as [inf], and parsing the rendered text reaches the
    branch of [pbg_parse_r] that builds no node. *)
Lemma C4_rendered_text_does_not_parse :
  (exists r, parse_text "(=,1.0e999,1)" = inr r) /\
  render_text "(=,1.0e999,1)" = inr (bytes_of "(=,inf,1.00)") /\
  parse_text "(=,inf,1.00)" = inl InvalidLiteral.
Proof.
  split; [eexists; vm_compute; reflexivity|].
  split; vm_compute; reflexivity.
Qed.

(** *** Basic facts about the monad and the arrays *)

Lemma bind_inr {A B : Type} (m : res A) (f : A -> res B) (y : B) :
  bind m f = inr y -> exists x, m = inr x /\ f x = inr y.
Proof. destruct m as [e|x]; simpl; [discriminate|eauto]. Qed.

Lemma bind_ret_l {A B : Type} (x : A) (f : A -> res B) : bind (inr x) f = f x.
Proof. reflexivity. Qed.

(** Split a successful sequence of binds in hypothesis [H]. *)
Ltac inv_bind H :=
  let x := fresh "x" in
  let Hx := fresh "H" x in
  apply bind_inr in H; destruct H as (x & Hx & H).

Lemma rd_lookup (l : list Z) (i : nat) (c : Z) :
  l !! i = Some c -> rd (CharP l 0) (Z.of_nat i) = inr c.
Proof.
  intros H. unfold rd. cbn [mem pos]. rewrite Z.add_0_l.
  destruct (Z.ltb_spec (Z.of_nat i) 0); [lia|].
  rewrite Nat2Z.id, H. reflexivity.
Qed.

Lemma data_int_lookup (cs : list Z) (i : nat) (c : Z) :
  cs !! i = Some c -> data_int (DInts cs) (Z.of_nat i) = inr c.
Proof. apply rd_lookup. Qed.

Lemma aget_lookup {A : Type} (a : array A) (i : nat) (x : A) :
  a !! i = Some (Some x) -> aget a (Z.of_nat i) = inr x.
Proof.
  intros H. unfold aget.
  destruct (Z.ltb_spec (Z.of_nat i) 0); [lia|].
  rewrite Nat2Z.id, H. reflexivity.
Qed.

Lemma aget_inr {A : Type} (a : array A) (i : Z) (x : A) :
  aget a i = inr x -> 0 <= i /\ a !! Z.to_nat i = Some (Some x).
Proof.
  unfold aget. destruct (Z.ltb_spec i 0); [discriminate|].
  destruct (a !! Z.to_nat i) as [[y|]|]; try discriminate.
  intros [= ->]. split; [lia|reflexivity].
Qed.

Lemma aset_inr {A : Type} (a : array A) (i : Z) (x : A) (a' : array A) :
  aset a i x = inr a' ->
  0 <= i < Z.of_nat (length a) /\ a' = <[Z.to_nat i := Some x]> a.
Proof.
  unfold aset.
  destruct (Z.ltb_spec i 0); simpl; [discriminate|].
  destruct (Z.leb_spec (Z.of_nat (length a)) i); simpl; [discriminate|].
  intros [= <-]. split; [lia|reflexivity].
Qed.

Lemma aset_in_range {A : Type} (a : array A) (i : nat) (x : A) :
  (i < length a)%nat -> aset a (Z.of_nat i) x = inr (<[i := Some x]> a).
Proof.
  intros H. unfold aset.
  destruct (Z.ltb_spec (Z.of_nat i) 0); [lia|].
  destruct (Z.leb_spec (Z.of_nat (length a)) (Z.of_nat i)); [lia|].
  simpl. rewrite Nat2Z.id. reflexivity.
Qed.

(** *** Key resolution *)

Lemma dict_calls_snoc (done : list pbg_expr_node) (k : pbg_expr_node) :
  dict_calls (done ++ [k])
  = dict_calls done
    ++ [EvDict (Z.of_nat (length done)) (data_bytes (_data k)) (_int k)].
Proof.
  unfold dict_calls. rewrite imap_app. simpl.
  rewrite Nat.add_0_r. reflexivity.
Qed.

Lemma resolved_snoc dict (done : list pbg_expr_node) (k : pbg_expr_node) :
  resolved dict (done ++ [k])
  = resolved dict done ++ [Some (dict (data_bytes (_data k)) (_int k))].
Proof. unfold resolved. rewrite map_app. reflexivity. Qed.

Lemma resolve_loop (e : pbg_expr) (dict : dictionary) (keys : list pbg_expr_node) :
  (forall i k, keys !! i = Some k -> _dynamic e !! i = Some (Some k)) ->
  forall rest done,
    keys = done ++ rest ->
    for_up (length rest) (Z.of_nat (length done)) (resolve_key e dict)
      (resolved dict done ++ replicate (length rest) None, dict_calls done)
    = inr (resolved dict keys, dict_calls keys).
Proof.
  intros Hdyn. induction rest as [|k rest IH]; intros done ->.
  - simpl. rewrite !app_nil_r. reflexivity.
  - simpl. unfold resolve_key at 1.
    rewrite (aget_lookup _ _ k).
    2:{ apply Hdyn. rewrite lookup_app_r by lia.
        rewrite Nat.sub_diag. reflexivity. }
    simpl. rewrite aset_in_range.
    2:{ rewrite length_app. unfold resolved. rewrite length_map. simpl. lia. }
    simpl.
    replace (<[length done:=Some (dict (data_bytes (_data k)) (_int k))]>
               (resolved dict done ++ None :: replicate (length rest) None))
      with (resolved dict (done ++ [k]) ++ replicate (length rest) None).
    2:{ rewrite resolved_snoc, <- app_assoc. simpl.
        rewrite insert_app_r_alt by (unfold resolved; rewrite length_map; lia).
        unfold resolved at 3. rewrite length_map, Nat.sub_diag. reflexivity. }
    rewrite <- dict_calls_snoc.
    replace (Z.of_nat (length done) + 1) with (Z.of_nat (length (done ++ [k])))
      by (rewrite length_app; simpl; lia).
    apply IH. rewrite <- app_assoc. reflexivity.
Qed.

(** C6: [pbg_evaluate] calls the dictionary exactly once for each key of
    the dynamic arena, in arena order and before the walk starts, whatever
    the walk then visits: its events are the calls for all keys followed by
    the visits of the walk over the arena of resolved values, and it fails
    only where that walk fails. *)
Theorem C6_dictionary_called_once_per_key
    (fuel : nat) (e : pbg_expr) (dict : dictionary)
    (keys : list pbg_expr_node) :
  _dynamicsz e = Z.of_nat (length keys) ->
  (forall i k, keys !! i = Some k -> _dynamic e !! i = Some (Some k)) ->
  pbg_evaluate fuel e dict
  = (root <- aget (_static e) 0;;
     r <- pbg_evaluate_r fuel
            (Expr (_static e) (resolved dict keys) (_staticsz e) (_dynamicsz e))
            root;;
     ret (fst r, dict_calls keys ++ map EvVisit (0 :: snd r))).
Proof.
  intros Hsz Hdyn. unfold pbg_evaluate.
  pose proof (resolve_loop e dict keys Hdyn keys [] eq_refl) as H.
  change (for_up (length keys) 0 (resolve_key e dict)
            (replicate (length keys) None, [])
          = inr (resolved dict keys, dict_calls keys)) in H.
  unfold malloc. rewrite Hsz, Nat2Z.id, H. reflexivity.
Qed.

(** *** Comparisons *)

Lemma data_double_operand (nd : pbg_expr_node) :
  8 <= Z.of_nat (length (data_bytes (_data nd))) ->
  data_double (_data nd) = inr (operand nd).
Proof.
  intros H. unfold data_double, operand.
  destruct (_data nd) eqn:E; simpl in H; try lia;
    cbv beta iota; case Z.ltb_spec; intros Hlt; try reflexivity;
    unfold sizeof_double in Hlt; simpl in Hlt; lia.
Qed.

(** C7 (as amended): a comparison node does not look at the kinds of its
    operands.  Whenever its first two children each carry at least 8 bytes
    of data, whatever their kinds, it returns the ordinary boolean that
    compares those bytes read as doubles; no error is raised. *)
Theorem C7_comparison_ignores_operand_kinds
    (fuel : nat) (e : pbg_expr) (node n0 n1 : pbg_expr_node)
    (c0 c1 : Z) (rest : list Z) (cmp : Z -> Z -> bool) :
  comparison_of (_type node) = Some cmp ->
  _data node = DInts (c0 :: c1 :: rest) ->
  get_expr_node e c0 = inr n0 ->
  get_expr_node e c1 = inr n1 ->
  8 <= Z.of_nat (length (data_bytes (_data n0))) ->
  8 <= Z.of_nat (length (data_bytes (_data n1))) ->
  pbg_evaluate_r (S fuel) e node
  = inr (Z.b2z (cmp (operand n0) (operand n1)), []).
Proof.
  intros Hcmp Hdata H0 H1 Hlen0 Hlen1.
  assert (Hgo : compare_children e (_data node) (get_expr_node e c0) cmp
                = inr (Z.b2z (cmp (operand n0) (operand n1)))).
  { unfold compare_children. rewrite Hdata. simpl.
    rewrite H0, H1. simpl.
    rewrite (data_double_operand n0 Hlen0). simpl.
    rewrite (data_double_operand n1 Hlen1). reflexivity. }
  simpl. rewrite Hdata in *. simpl.
  destruct (_type node); simpl in Hcmp; try discriminate;
    injection Hcmp as <-; simpl; rewrite Hgo; reflexivity.
Qed.

(** C7, the claim as stated fails: LT over two STRING operands of 8 bytes
    evaluates to true, an ordinary boolean. *)
Lemma C7_strings_compare_without_error :
  (exists e r, parse_text "(<,'aaaaaaaa','baaaaaaa')" = inr (e, r) /\
     (exists n1, get_expr_node e 1 = inr n1 /\ _type n1 = PBG_LT_STRING) /\
     (exists n2, get_expr_node e 2 = inr n2 /\ _type n2 = PBG_LT_STRING)) /\
  evaluate_text "(<,'aaaaaaaa','baaaaaaa')" no_dict = inr (1, [EvVisit 0]).
Proof.
  split; [|vm_compute; reflexivity].
  eexists _, _. split; [vm_compute; reflexivity|].
  split; eexists; split; vm_compute; reflexivity.
Qed.

(** *** Equality *)

Lemma data_byte_lookup (d : pbg_data) (j : nat) (x : Z) :
  data_bytes d !! j = Some x -> data_byte d (Z.of_nat j) = inr x.
Proof.
  intros H. destruct d; simpl in H; try discriminate;
    unfold data_byte; apply rd_lookup; exact H.
Qed.

Lemma same_bytes_spec (a b : pbg_data) :
  forall (k j : nat),
    (j + k <= length (data_bytes a))%nat ->
    (j + k <= length (data_bytes b))%nat ->
    same_bytes k a b (Z.of_nat j)
    = inr (bool_decide (take k (drop j (data_bytes a))
                        = take k (drop j (data_bytes b)))).
Proof.
  induction k as [|k IH]; intros j Ha Hb.
  - reflexivity.
  - destruct (lookup_lt_is_Some_2 (data_bytes a) j) as [x Hx]; [lia|].
    destruct (lookup_lt_is_Some_2 (data_bytes b) j) as [y Hy]; [lia|].
    simpl. rewrite (data_byte_lookup _ _ _ Hx), (data_byte_lookup _ _ _ Hy).
    simpl.
    rewrite (drop_S _ _ _ Hx), (drop_S _ _ _ Hy). simpl.
    destruct (Z.eqb_spec x y) as [->|Hne]; simpl.
    + replace (Z.of_nat j + 1) with (Z.of_nat (S j)) by lia.
      rewrite IH by lia.
      f_equal. apply bool_decide_ext. split; [congruence|].
      intros [= E]. exact E.
    + f_equal. symmetry. apply bool_decide_eq_false. congruence.
Qed.

Lemma equal_children_spec (e : pbg_expr) (cs : list Z) (n0 : pbg_expr_node) :
  payload_readable n0 ->
  forall rest done,
    cs = done ++ rest ->
    (forall c, c ∈ rest ->
       exists nd, get_expr_node e c = inr nd /\ payload_readable nd) ->
    exists v,
      equal_children e (DInts cs) (inr n0) (length rest) (Z.of_nat (length done))
      = inr v /\
      (v = 0 \/ v = 1) /\
      (v = 1 <-> forall c, c ∈ rest -> same_as e n0 c).
Proof.
  intros Hn0. induction rest as [|c rest IH]; intros done -> Hrest.
  - exists 1. split; [reflexivity|]. split; [auto|].
    split; [|reflexivity]. intros _ c Hc. inversion Hc.
  - destruct (Hrest c) as (nd & Hnd & Hread); [left|].
    cbn [equal_children length].
    rewrite (data_int_lookup _ _ c).
    2:{ rewrite lookup_app_r by lia. rewrite Nat.sub_diag. reflexivity. }
    rewrite bind_ret_l, Hnd, !bind_ret_l.
    assert (Hmiss : forall P : Prop,
               (~ same_as e n0 c) ->
               (0 = 1 <-> forall c', c' ∈ c :: rest -> same_as e n0 c')).
    { intros _ Hno. split; [discriminate|].
      intros H. exfalso. apply Hno, H. left. }
    destruct (Z.eqb_spec (_int nd) (_int n0)) as [Hint|Hint]; simpl.
    2:{ exists 0. split; [reflexivity|]. split; [auto|].
        apply (Hmiss True). intros (nd' & Hnd' & _ & Hi & _).
        congruence. }
    destruct (decide (_type nd = _type n0)) as [Hty|Hty].
    2:{ rewrite bool_decide_eq_false_2 by exact Hty. simpl.
        exists 0. split; [reflexivity|]. split; [auto|].
        apply (Hmiss True). intros (nd' & Hnd' & Ht & _). congruence. }
    rewrite bool_decide_eq_true_2 by exact Hty. simpl.
    pose proof (same_bytes_spec (_data n0) (_data nd) (Z.to_nat (_int n0)) 0)
      as Hsame.
    change (Z.of_nat 0) with 0 in Hsame.
    rewrite Hsame.
    2:{ unfold payload_readable in Hn0. lia. }
    2:{ unfold payload_readable in Hread. lia. }
    simpl. rewrite !drop_0.
    destruct (decide (take (Z.to_nat (_int n0)) (data_bytes (_data n0))
                      = take (Z.to_nat (_int n0)) (data_bytes (_data nd))))
      as [Heq|Hne].
    + rewrite bool_decide_eq_true_2 by exact Heq.
      destruct (IH (done ++ [c])) as (v & Hv & Hb & Hiff).
      { rewrite <- app_assoc. reflexivity. }
      { intros c' Hc'. apply Hrest. right. exact Hc'. }
      rewrite length_app in Hv. simpl in Hv.
      replace (Z.of_nat (length done) + 1)
        with (Z.of_nat (length done + 1)) by lia.
      exists v. split; [exact Hv|]. split; [exact Hb|].
      rewrite Hiff. split.
      * intros H c' Hc'. apply elem_of_cons in Hc' as [->|Hc'].
        -- exists nd. unfold payload. rewrite Hint. auto.
        -- apply H, Hc'.
      * intros H c' Hc'. apply H. right. exact Hc'.
    + rewrite bool_decide_eq_false_2 by exact Hne.
      exists 0. split; [reflexivity|]. split; [auto|].
      apply (Hmiss True). intros (nd' & Hnd' & _ & _ & Hp).
      apply Hne. unfold payload in Hp.
      assert (nd' = nd) as -> by congruence.
      rewrite Hint in Hp. congruence.
Qed.

(** C2: an EQ node evaluates to true exactly when every child after the
    first has the kind of child 0, the payload length of child 0 and a
    payload byte-identical to that of child 0; it visits no child. *)
Theorem C2_eq_compares_kind_length_and_bytes
    (fuel : nat) (e : pbg_expr) (node n0 : pbg_expr_node)
    (c0 : Z) (rest : list Z) :
  _type node = PBG_OP_EQ ->
  _data node = DInts (c0 :: rest) ->
  _int node = Z.of_nat (length (c0 :: rest)) ->
  get_expr_node e c0 = inr n0 ->
  (forall c, c ∈ c0 :: rest ->
     exists nd, get_expr_node e c = inr nd /\ payload_readable nd) ->
  exists v,
    pbg_evaluate_r (S fuel) e node = inr (v, []) /\
    (v = 0 \/ v = 1) /\
    (v = 1 <->
     forall c, c ∈ rest ->
       exists nd, get_expr_node e c = inr nd /\
                  _type nd = _type n0 /\ _int nd = _int n0 /\
                  payload nd = payload n0).
Proof.
  intros Hty Hdata Hint H0 Hall.
  assert (Hn0 : payload_readable n0).
  { destruct (Hall c0) as (nd & Hnd & Hr); [left|]. congruence. }
  destruct (equal_children_spec e (c0 :: rest) n0 Hn0 rest [c0] eq_refl)
    as (v & Hv & Hb & Hiff).
  { intros c Hc. apply Hall. right. exact Hc. }
  exists v. split; [|split; [exact Hb|exact Hiff]].
  simpl. rewrite Hty, Hdata, Hint. simpl.
  rewrite H0.
  replace (Z.to_nat (Z.of_nat (S (length rest)) - 1)) with (length rest) by lia.
  change (Z.of_nat (length [c0])) with 1 in Hv. rewrite Hv. reflexivity.
Qed.

(** *** Boolean operators *)

Lemma b2z_bool (b : bool) : Z.b2z b = 0 \/ Z.b2z b = 1.
Proof. destruct b; auto. Qed.

Lemma walk_children_value ev e d stop :
  forall k i seen v visited,
    walk_children ev e d stop k i seen = inr (v, visited) ->
    v = stop \/ v = 1 - stop.
Proof.
  induction k as [|k IH]; intros i seen v visited H.
  - injection H as <- _. auto.
  - cbn [walk_children] in H.
    inv_bind H. inv_bind H. inv_bind H.
    match type of H with
    | (if ?c then _ else _) = _ => destruct c
    end.
    + injection H as <- _. auto.
    + eapply IH, H.
Qed.

Lemma equal_children_value e d c0 :
  forall k i v, equal_children e d c0 k i = inr v -> v = 0 \/ v = 1.
Proof.
  induction k as [|k IH]; intros i v H.
  - injection H as <-. auto.
  - cbn [equal_children] in H.
    inv_bind H. inv_bind H. inv_bind H.
    match type of H with
    | (if ?c then _ else _) = _ => destruct c
    end.
    + injection H as <-. auto.
    + inv_bind H.
      match type of H with
      | (if ?c then _ else _) = _ => destruct c
      end.
      * eapply IH, H.
      * injection H as <-. auto.
Qed.

Lemma compare_children_value e d c0 cmp v :
  compare_children e d c0 cmp = inr v -> v = 0 \/ v = 1.
Proof.
  unfold compare_children. intros H.
  repeat inv_bind H. injection H as <-. apply b2z_bool.
Qed.

(** Every evaluation that returns returns 0 or 1. *)
Lemma pbg_evaluate_r_bool fuel e node v visited :
  pbg_evaluate_r fuel e node = inr (v, visited) -> v = 0 \/ v = 1.
Proof.
  destruct fuel as [|fuel]; [discriminate|].
  cbn [pbg_evaluate_r].
  destruct (below_MAX_LT (_type node)).
  { repeat case_bool_decide; intros [= <- _]; auto. }
  cbn [below_MAX_OP]. cbv iota. intros H. inv_bind H.
  destruct (_type node); try discriminate;
    try (inv_bind H; injection H as <- _;
         eauto using compare_children_value, equal_children_value).
  - inv_bind H. inv_bind H. injection H as <- _. apply b2z_bool.
  - apply walk_children_value in H. simpl in H. lia.
  - apply walk_children_value in H. simpl in H. lia.
  - apply b2z_bool.
  - inv_bind H. inv_bind H. inv_bind H.
    repeat match type of H with
           | (if ?c then _ else _) = _ => destruct c
           end;
      try (injection H as <- _; auto).
    inv_bind H. injection H as <- _. apply b2z_bool.
Qed.

Lemma child_result_bool fuel e c v visited :
  child_result fuel e c = inr (v, visited) -> v = 0 \/ v = 1.
Proof.
  unfold child_result. intros H. inv_bind H.
  eapply pbg_evaluate_r_bool, H.
Qed.

Lemma child_value_unique fuel e c v w :
  child_value fuel e c v -> child_value fuel e c w -> v = w.
Proof. intros [s Hs] [t Ht]. congruence. Qed.

Lemma visits_of_cons fuel e c r cs :
  child_result fuel e c = inr r ->
  visits_of fuel e (c :: cs) = c :: snd r ++ visits_of fuel e cs.
Proof. intros H. simpl. rewrite H. reflexivity. Qed.

Lemma walk_children_spec (fuel : nat) (e : pbg_expr) (cs : list Z) (stop : Z) :
  forall rest done seen,
    cs = done ++ rest ->
    walkable fuel e stop rest ->
    exists v visited,
      walk_children (pbg_evaluate_r fuel e) e (DInts cs) stop
        (length rest) (Z.of_nat (length done)) seen
      = inr (v, seen ++ visited) /\
      ((v = 1 - stop /\ visited = visits_of fuel e rest /\
        forall c, c ∈ rest ->
          exists r, child_result fuel e c = inr r /\ fst r <> stop) \/
       (exists pre c post,
          rest = pre ++ c :: post /\ v = stop /\
          visited = visits_of fuel e (pre ++ [c]) /\
          (forall c', c' ∈ pre -> ~ child_value fuel e c' stop) /\
          child_value fuel e c stop)).
Proof.
  induction rest as [|c rest IH]; intros done seen -> Hall.
  - exists (1 - stop), []. split; [simpl; rewrite app_nil_r; reflexivity|].
    left. repeat split. intros c Hc. inversion Hc.
  - destruct Hall as (r & Hr & Hnext).
    pose proof Hr as Hr'. unfold child_result in Hr'. inv_bind Hr'.
    cbn [walk_children length].
    rewrite (data_int_lookup _ _ c).
    2:{ rewrite lookup_app_r by lia. rewrite Nat.sub_diag. reflexivity. }
    rewrite bind_ret_l, Hx, bind_ret_l, Hr', bind_ret_l.
    destruct (Z.eqb_spec (fst r) stop) as [Hstop|Hstop].
    + exists stop, (c :: snd r). split; [reflexivity|].
      right. exists [], c, rest. repeat split.
      * simpl. rewrite Hr, app_nil_r. reflexivity.
      * intros c' Hc'. inversion Hc'.
      * exists (snd r). rewrite Hr. destruct r; simpl in *; congruence.
    + destruct Hnext as [Hnext|Hnext]; [congruence|].
      destruct (IH (done ++ [c]) (seen ++ c :: snd r))
        as (v & visited & Hv & Hcases).
      { rewrite <- app_assoc. reflexivity. }
      { exact Hnext. }
      rewrite length_app in Hv. simpl in Hv.
      replace (Z.of_nat (length done) + 1)
        with (Z.of_nat (length done + 1)) by lia.
      exists v, (c :: snd r ++ visited). split.
      { rewrite Hv. rewrite <- app_assoc. reflexivity. }
      assert (Hc : ~ child_value fuel e c stop).
      { intros [s Hs]. rewrite Hr in Hs. injection Hs as ->. simpl in Hstop.
        congruence. }
      destruct Hcases as [(-> & -> & Hno)|(pre & c' & post & -> & -> & -> & Hno & Hyes)].
      * left. repeat split.
        -- rewrite (visits_of_cons _ _ _ _ _ Hr). reflexivity.
        -- intros c' Hc'. apply elem_of_cons in Hc' as [->|Hc']; eauto.
      * right. exists (c :: pre), c', post. repeat split.
        -- simpl. rewrite Hr. reflexivity.
        -- intros c'' Hc''. apply elem_of_cons in Hc'' as [->|Hc'']; auto.
        -- exact Hyes.
Qed.

(** Children that all evaluate can be walked, whatever the deciding value. *)
Lemma walkable_all (fuel : nat) (e : pbg_expr) (stop : Z) (cs : list Z) :
  (forall c, c ∈ cs -> exists r, child_result fuel e c = inr r) ->
  walkable fuel e stop cs.
Proof.
  induction cs as [|c cs IH]; intros H; [exact I|].
  destruct (H c) as [r Hr]; [left|].
  exists r. split; [exact Hr|]. right. apply IH.
  intros c' Hc'. apply H. right. exact Hc'.
Qed.

(** C1: an AND node evaluates to true exactly when every child evaluates
    to true, an OR node exactly when some child does; the walk evaluates
    the children in stored order and visits none after the first false
    child (AND) or the first true child (OR), so that the node has a value
    even where a later child has none. *)
Theorem C1_and_or_short_circuit
    (fuel : nat) (e : pbg_expr) (node : pbg_expr_node) (cs : list Z) :
  _type node = PBG_OP_AND \/ _type node = PBG_OP_OR ->
  _data node = DInts cs ->
  _int node = Z.of_nat (length cs) ->
  cs <> [] ->
  walkable fuel e (deciding_value (_type node)) cs ->
  exists v visited,
    pbg_evaluate_r (S fuel) e node = inr (v, visited) /\
    (_type node = PBG_OP_AND ->
     (v = 1 <-> forall c, c ∈ cs -> child_value fuel e c 1)) /\
    (_type node = PBG_OP_OR ->
     (v = 1 <-> exists c, c ∈ cs /\ child_value fuel e c 1)) /\
    walked fuel e (deciding_value (_type node)) cs visited.
Proof.
  intros Hty Hdata Hint Hne Hall.
  destruct (walk_children_spec fuel e cs (deciding_value (_type node))
              cs [] [] eq_refl Hall) as (v & visited & Hv & Hcases).
  change (Z.of_nat (length (@nil Z))) with 0 in Hv. simpl in Hv.
  exists v, visited. split.
  { cbn [pbg_evaluate_r]. rewrite Hdata, Hint, Nat2Z.id.
    destruct cs as [|c0 cs']; [congruence|].
    destruct Hty as [Hty|Hty]; rewrite Hty in *; simpl; exact Hv. }
  assert (Hnot : forall stop c,
            (exists r, child_result fuel e c = inr r /\ fst r <> stop) ->
            ~ child_value fuel e c stop).
  { intros stop c (r & Hr & Hs) [s Hv']. rewrite Hr in Hv'.
    injection Hv' as ->. simpl in Hs. congruence. }
  split; [|split].
  - intros Hand. rewrite Hand in Hcases. simpl in Hcases.
    destruct Hcases as [(-> & _ & Hno)|(pre & c & post & -> & -> & _ & _ & Hyes)].
    + split; [|reflexivity]. intros _ c Hc.
      destruct (Hno c Hc) as ([w s] & Hr & Hw). simpl in Hw.
      destruct (child_result_bool _ _ _ _ _ Hr) as [->| ->]; [congruence|].
      exists s. exact Hr.
    + split; [discriminate|]. intros H. exfalso.
      assert (Hc : c ∈ pre ++ c :: post) by (apply elem_of_app; right; left).
      pose proof (child_value_unique _ _ _ _ _ Hyes (H c Hc)). discriminate.
  - intros Hor. rewrite Hor in Hcases. simpl in Hcases.
    destruct Hcases as [(-> & _ & Hno)|(pre & c & post & -> & -> & _ & _ & Hyes)].
    + split; [discriminate|]. intros (c & Hc & H1). exfalso.
      eapply Hnot; eauto.
    + split; [|reflexivity]. intros _. exists c. split; [|exact Hyes].
      apply elem_of_app; right; left.
  - destruct Hcases as [(_ & -> & Hno)|(pre & c & post & -> & _ & -> & Hno & Hyes)].
    + left. split; [reflexivity|]. intros c Hc. eapply Hnot; eauto.
    + right. exists pre, c, post. auto.
Qed.

(** *** The root of a parsed expression *)

Lemma static_frame_refl e : static_frame e e.
Proof. split; [lia|auto]. Qed.

Lemma static_frame_trans e1 e2 e3 :
  static_frame e1 e2 -> static_frame e2 e3 -> static_frame e1 e3.
Proof.
  intros [H1 H1'] [H2 H2']. split; [lia|].
  intros i Hi. rewrite H2' by lia. apply H1', Hi.
Qed.

Lemma new_static_inr e nd e' idx :
  new_static e nd = inr (e', idx) ->
  idx = _staticsz e /\ 0 <= idx /\
  _staticsz e' = _staticsz e + 1 /\
  _static e' = <[Z.to_nat idx := Some nd]> (_static e) /\
  (Z.to_nat idx < length (_static e))%nat /\
  _dynamic e' = _dynamic e.
Proof.
  unfold new_static. intros H. inv_bind H.
  apply aset_inr in Hx as [Hr ->]. injection H as <- <-. simpl.
  repeat split; lia.
Qed.

Lemma new_dynamic_inr e nd e' idx :
  new_dynamic e nd = inr (e', idx) ->
  idx = - _dynamicsz e - 1 /\ 0 <= _dynamicsz e /\
  _static e' = _static e /\ _staticsz e' = _staticsz e /\
  _dynamic e' = <[Z.to_nat (_dynamicsz e) := Some nd]> (_dynamic e) /\
  (Z.to_nat (_dynamicsz e) < length (_dynamic e))%nat.
Proof.
  unfold new_dynamic. intros H. inv_bind H.
  apply aset_inr in Hx as [Hr ->]. injection H as <- <-. simpl.
  replace (- (- _dynamicsz e - 1 + 1)) with (_dynamicsz e) in * by lia.
  repeat split; lia.
Qed.

Lemma set_static_inr e idx nd e' :
  set_static e idx nd = inr e' ->
  0 <= idx < Z.of_nat (length (_static e)) /\
  _static e' = <[Z.to_nat idx := Some nd]> (_static e) /\
  _staticsz e' = _staticsz e /\ _dynamic e' = _dynamic e /\
  _dynamicsz e' = _dynamicsz e.
Proof.
  unfold set_static. intros H. inv_bind H.
  apply aset_inr in Hx as [Hr ->]. injection H as <-. simpl. auto.
Qed.

Section ParseFrame.

Variables (str : charp) (fields lengths closings : list (option Z)).
Variable parse : pbg_expr -> int2arg -> res (pbg_expr * int2ret).
Hypothesis parse_frame :
  forall e a e' r, parse e a = inr (e', r) -> 0 <= _staticsz e ->
                   static_frame e e'.

Lemma add_child_frame idx s e r s' :
  add_child idx s e r = inr s' ->
  0 <= idx < _staticsz e ->
  children_frame idx e (ch_expr s').
Proof.
  unfold add_child. intros H Hidx.
  inv_bind H. inv_bind H. inv_bind H. injection H as <-. simpl.
  apply aget_inr in Hx as [_ Hx].
  apply set_static_inr in Hx1 as (Hr & Hst & Hsz & _).
  split; [lia|]. split.
  - intros i Hi Hne. rewrite Hst. apply list_lookup_insert_ne. lia.
  - intros nd Hnd. rewrite Hst. eexists. split.
    + apply list_lookup_insert_eq. lia.
    + simpl. congruence.
Qed.

Lemma parse_children_frame idx :
  forall k s s',
    parse_children fields closings parse idx k s = inr s' ->
    0 <= idx < _staticsz (ch_expr s) ->
    children_frame idx (ch_expr s) (ch_expr s').
Proof.
  induction k as [|k IH]; intros s s' H Hidx.
  - cbn [parse_children] in H. inv_bind H.
    destruct x; [discriminate|]. injection H as <-.
    split; [lia|]. split; [auto|]. intros nd Hnd. eauto.
  - cbn [parse_children] in H. inv_bind H.
    destruct x.
    2:{ injection H as <-. split; [lia|]. split; [auto|].
        intros nd Hnd. eauto. }
    inv_bind H. inv_bind H.
    destruct x as [e1 r1]. simpl in *.
    apply parse_frame in Hx0 as [Hsz1 Hfr1]; [|lia].
    pose proof (add_child_frame _ _ _ _ _ Hx1 ltac:(lia)) as (Hsz2 & Hfr2 & Hty2).
    apply IH in H as (Hsz3 & Hfr3 & Hty3); [|lia].
    split; [lia|]. split.
    + intros i Hi Hne. rewrite Hfr3, Hfr2 by lia. apply Hfr1, Hi.
    + intros nd Hnd.
      rewrite <- Hfr1 in Hnd by lia.
      destruct (Hty2 _ Hnd) as (nd2 & Hnd2 & Ht2).
      destruct (Hty3 _ Hnd2) as (nd3 & Hnd3 & Ht3).
      exists nd3. split; [exact Hnd3|congruence].
Qed.

Lemma close_operator_frame idx s e' r :
  close_operator idx s = inr (e', r) ->
  nodeidx r = idx /\
  _staticsz e' = _staticsz (ch_expr s) /\
  (forall i : nat, Z.of_nat i <> idx ->
                   _static e' !! i = _static (ch_expr s) !! i) /\
  (exists nd nd', _static (ch_expr s) !! Z.to_nat idx = Some (Some nd) /\
                  _static e' !! Z.to_nat idx = Some (Some nd') /\
                  _type nd' = _type nd).
Proof.
  unfold close_operator. intros H.
  inv_bind H. inv_bind H. inv_bind H. injection H as <- <-. simpl.
  apply aget_inr in Hx as [Hidx Hx].
  apply set_static_inr in Hx1 as (Hr & Hst & Hsz & _).
  split; [reflexivity|]. split; [exact Hsz|]. split.
  - intros i Hne. rewrite Hst. apply list_lookup_insert_ne. lia.
  - eexists _, _. split; [exact Hx|]. split.
    + rewrite Hst. apply list_lookup_insert_eq. lia.
    + reflexivity.
Qed.

End ParseFrame.

Lemma pbg_parse_r_frame str fields lengths closings :
  forall fuel e a e' r,
    pbg_parse_r str fields lengths closings fuel e a = inr (e', r) ->
    0 <= _staticsz e -> static_frame e e'.
Proof.
  induction fuel as [|fuel IH]; intros e a e' r H Hsz; [discriminate|].
  cbn [pbg_parse_r] in H.
  inv_bind H. inv_bind H. inv_bind H.
  destruct (negb (bool_decide (x1 = PBG_UNKNOWN))).
  - inv_bind H. inv_bind H. destruct x2 as [e1 idx]. simpl in *.
    apply new_static_inr in Hx2 as (-> & _ & Hsz1 & Hst1 & Hlen & _).
    apply parse_children_frame in Hx3 as (Hsz3 & Hfr3 & _);
      [|exact IH|simpl; lia].
    simpl in *.
    apply close_operator_frame in H as (_ & Hsz4 & Hfr4 & _).
    split; [lia|]. intros i Hi.
    rewrite Hfr4, Hfr3 by lia. rewrite Hst1.
    apply list_lookup_insert_ne. lia.
  - inv_bind H. inv_bind H. injection H as <- _.
    destruct x3 as [e1 idx]. simpl.
    destruct (fst x2).
    + apply new_dynamic_inr in Hx3 as (_ & _ & Hst & Hsz1 & _).
      split; [lia|]. intros i _. rewrite Hst. reflexivity.
    + apply new_static_inr in Hx3 as (-> & _ & Hsz1 & Hst1 & _).
      split; [lia|]. intros i Hi. rewrite Hst1.
      apply list_lookup_insert_ne. lia.
Qed.

Lemma parse_literal_key str n lit :
  parse_literal str n = inr lit ->
  (fst lit = true /\ _type (snd lit) = PBG_LT_KEY) \/
  (fst lit = false /\ _type (snd lit) <> PBG_LT_KEY).
Proof.
  unfold parse_literal. intros H.
  repeat (inv_bind H;
          match type of H with
          | (if ?c then _ else _) = _ => destruct c
          end;
          [repeat inv_bind H; injection H as <-; simpl;
           first [left; split; reflexivity
                 |right; split; [reflexivity|discriminate]]|]).
  unfold raise in H. discriminate H.
Qed.

Lemma pbg_toop_not_key str n t : pbg_toop str n = inr t -> t <> PBG_LT_KEY.
Proof.
  unfold pbg_toop. intros H.
  repeat match type of H with
         | (if ?c then _ else _) = _ => destruct c
         | bind _ _ = _ => inv_bind H
         end; injection H as <-; discriminate.
Qed.

(** In a parse that runs to its end the root, the node built from the
    first field and having that field's kind, is stored at static index 0
    whenever the first field is not a key; a key in first position is
    stored at dynamic index 0, reference -1, instead. *)
Theorem root_is_static_0_unless_key
    (str : charp) (n : Z) (e : pbg_expr) (r : int2ret) :
  pbg_parse str n = inr (e, r) ->
  exists sc t nd,
    pbg_scan str n = inr sc /\
    first_field_kind str sc = inr t /\
    get_expr_node e (nodeidx r) = inr nd /\ _type nd = t /\
    (t <> PBG_LT_KEY -> nodeidx r = 0) /\
    (t = PBG_LT_KEY -> nodeidx r = -1).
Proof.
  unfold pbg_parse. intros H. inv_bind H. rename x into sc, Hx into Hsc.
  destruct (Z.to_nat (numfields sc) + 2)%nat as [|fuel] eqn:Hfuel; [lia|].
  clear Hfuel. cbn [pbg_parse_r] in H. cbn [field] in H.
  inv_bind H. inv_bind H. inv_bind H.
  assert (Hk : first_field_kind str sc
               = (if negb (bool_decide (x1 = PBG_UNKNOWN)) then ret x1
                  else lit <- parse_literal (padd str x) x0;;
                       ret (_type (snd lit)))).
  { unfold first_field_kind.
    rewrite Hx, bind_ret_l, Hx0, bind_ret_l, Hx1. reflexivity. }
  exists sc. rewrite Hk. clear Hk.
  destruct (negb (bool_decide (x1 = PBG_UNKNOWN))) eqn:Hop.
  - (* operator *)
    inv_bind H. inv_bind H. destruct x2 as [e1 idx]. simpl in *.
    apply new_static_inr in Hx2 as (-> & _ & Hsz1 & Hst1 & Hlen & _).
    simpl in *.
    apply parse_children_frame in Hx3 as (Hsz3 & _ & Hty3);
      [|apply pbg_parse_r_frame|simpl; lia].
    simpl in Hty3.
    destruct (Hty3 (Node x1 0 DUnset)) as (nd3 & Hnd3 & Ht3).
    { rewrite Hst1. apply list_lookup_insert_eq. exact Hlen. }
    apply close_operator_frame in H as (Hidx & _ & _ & nd & nd' & Hnd & Hnd' & Ht).
    simpl in *.
    assert (nd = nd3) as -> by congruence.
    exists x1, nd'. split; [exact Hsc|]. split; [reflexivity|].
    rewrite Hidx. split.
    { unfold get_expr_node. simpl. apply (aget_lookup _ 0%nat). exact Hnd'. }
    split; [congruence|]. split; [reflexivity|].
    intros ->. exfalso. eapply pbg_toop_not_key; eauto.
  - (* literal *)
    inv_bind H. inv_bind H. injection H as <- <-.
    rewrite Hx2, bind_ret_l. destruct x3 as [e1 idx]. simpl.
    exists (_type (snd x2)), (snd x2). split; [exact Hsc|].
    split; [reflexivity|].
    destruct (parse_literal_key _ _ _ Hx2) as [[Hk Ht]|[Hk Ht]];
      rewrite Hk in Hx3.
    + apply new_dynamic_inr in Hx3 as (-> & _ & _ & _ & Hdy & Hlen).
      simpl in *. split.
      { unfold get_expr_node. simpl. apply (aget_lookup _ 0%nat).
        rewrite Hdy. apply list_lookup_insert_eq. exact Hlen. }
      split; [reflexivity|]. split; [congruence|reflexivity].
    + apply new_static_inr in Hx3 as (-> & _ & _ & Hst & Hlen & _).
      simpl in *. split.
      { unfold get_expr_node. simpl. apply (aget_lookup _ 0%nat).
        rewrite Hst. apply list_lookup_insert_eq. exact Hlen. }
      split; [reflexivity|]. split; [reflexivity|congruence].
Qed.

(** C5 (the code departs from the claim): a key in first position is
    stored in the dynamic arena, reference -1, and nothing is stored at
    static index 0, where [pbg_evaluate] and [pbg_gets] start.  For the bare
    key [[k]] the scan sizes the static arena at no node at all; the length
    of the field is read from a cell the scan never wrote (see C8), and for
    the value 3, the length of the field, [pbg_parse_r] builds the key at
    dynamic index 0, so that evaluation and rendering read [_static[0]]
    outside the arena.  The text [[k])], whose field the scan does close,
    is parsed to the same arena. *)
Lemma C5_root_key_is_not_static_0 :
  (exists sc,
     pbg_scan (cstr "[k]") 3 = inr sc /\
     numstatic sc = 0 /\ numdynamic sc = 1 /\ sd_lengths sc = [None] /\
     pbg_parse_r (cstr "[k]") (sd_fields sc) [Some 3] (sd_closings sc) 3
       (Expr (malloc (numstatic sc)) (malloc (numdynamic sc)) 0 0)
       (Int2Arg 0 0)
     = inr (root_key_arena, Int2Ret (Int2Arg 1 0) (-1))) /\
  parse_text "[k])" = inr (root_key_arena, Int2Ret (Int2Arg 1 0) (-1)) /\
  get_expr_node root_key_arena (-1)
  = inr (Node PBG_LT_KEY 1 (DBytes (bytes_of "k"))) /\
  get_expr_node root_key_arena 0 = inl OutOfBounds /\
  (forall fuel dict, pbg_evaluate fuel root_key_arena dict = inl OutOfBounds) /\
  (forall fuel, pbg_gets fuel root_key_arena = inl OutOfBounds).
Proof.
  split.
  { eexists. split; [vm_compute; reflexivity|].
    repeat split; vm_compute; reflexivity. }
  repeat split; try (vm_compute; reflexivity).
Qed.

(** *** The accounting of the nodes *)

Lemma for_up_invariant {S : Type} (P : S -> Prop) (body : Z -> S -> res S) :
  (forall i s s', body i s = inr s' -> P s -> P s') ->
  forall k i s s', for_up k i body s = inr s' -> P s -> P s'.
Proof.
  intros Hbody. induction k as [|k IH]; intros i s s' H Hs.
  - injection H as <-. exact Hs.
  - cbn [for_up] in H. inv_bind H. eapply IH; eauto.
Qed.

Lemma accounted_trans e1 f1 e2 f2 e3 f3 :
  accounted e1 f1 e2 f2 -> accounted e2 f2 e3 f3 -> accounted e1 f1 e3 f3.
Proof.
  unfold accounted, nodes_built.
  intros (? & ? & ? & ? & ? & ?) (? & ? & ? & ? & ? & Hb).
  split; [lia|]. split; [lia|]. split; [lia|].
  split; [congruence|]. split; [congruence|exact Hb].
Qed.

Lemma set_static_accounted e idx nd e' f :
  set_static e idx nd = inr e' -> bounded e -> accounted e f e' f.
Proof.
  intros H Hb. apply set_static_inr in H as (Hr & Hst & Hsz & Hdy & Hdsz).
  unfold accounted, nodes_built, bounded in *.
  rewrite Hst, Hsz, Hdy, Hdsz, length_insert. repeat split; lia.
Qed.

Lemma new_static_accounted e nd e' idx f :
  new_static e nd = inr (e', idx) -> bounded e -> accounted e f e' (f + 1).
Proof.
  intros H Hb. unfold new_static in H. inv_bind H.
  apply aset_inr in Hx as [Hr ->]. injection H as <- <-.
  unfold accounted, nodes_built, bounded in *. simpl.
  rewrite length_insert. repeat split; lia.
Qed.

Lemma new_dynamic_accounted e nd e' idx f :
  new_dynamic e nd = inr (e', idx) -> bounded e -> accounted e f e' (f + 1).
Proof.
  intros H Hb. unfold new_dynamic in H. inv_bind H.
  apply aset_inr in Hx as [Hr ->]. injection H as <- <-.
  unfold accounted, nodes_built, bounded in *. simpl.
  rewrite length_insert. repeat split; lia.
Qed.

Section ParseAccount.

Variables (fields closings : list (option Z)).
Variable parse : pbg_expr -> int2arg -> res (pbg_expr * int2ret).
Hypothesis parse_accounted :
  forall e a e' r, parse e a = inr (e', r) -> bounded e ->
                   accounted e (field a) e' (field (arg r)).

Lemma parse_children_accounted idx :
  forall k s s',
    parse_children fields closings parse idx k s = inr s' ->
    bounded (ch_expr s) ->
    accounted (ch_expr s) (field (ch_arg s))
              (ch_expr s') (field (ch_arg s')).
Proof.
  assert (Hrefl : forall e f, bounded e -> accounted e f e f).
  { intros e f Hb. unfold accounted, nodes_built. repeat split; try lia; apply Hb. }
  induction k as [|k IH]; intros s s' H Hb.
  - cbn [parse_children] in H. inv_bind H.
    destruct x; [discriminate|]. injection H as <-. auto.
  - cbn [parse_children] in H. inv_bind H.
    destruct x; [|injection H as <-; auto].
    inv_bind H. inv_bind H. destruct x as [e1 r1]. simpl in *.
    pose proof (parse_accounted _ _ _ _ Hx0 Hb) as H1.
    assert (H2 : accounted e1 (field (arg r1)) (ch_expr x0) (field (ch_arg x0))).
    { unfold add_child in Hx1. inv_bind Hx1. inv_bind Hx1. inv_bind Hx1.
      injection Hx1 as <-. simpl.
      eapply set_static_accounted; [eassumption|apply H1]. }
    pose proof (IH _ _ H ltac:(apply H2)) as H3.
    eapply accounted_trans; [exact H1|].
    eapply accounted_trans; [exact H2|exact H3].
Qed.

End ParseAccount.

Lemma pbg_parse_r_accounted str fields lengths closings :
  forall fuel e a e' r,
    pbg_parse_r str fields lengths closings fuel e a = inr (e', r) ->
    bounded e ->
    accounted e (field a) e' (field (arg r)).
Proof.
  induction fuel as [|fuel IH]; intros e a e' r H Hb; [discriminate|].
  cbn [pbg_parse_r] in H.
  inv_bind H. inv_bind H. inv_bind H.
  match type of H with (if ?c then _ else _) = _ => destruct c end.
  - inv_bind H. inv_bind H. destruct x2 as [e1 idx]. simpl in *.
    pose proof (new_static_accounted _ _ _ _ (field a) Hx2 Hb) as H1.
    pose proof (parse_children_accounted _ _ _ IH _ _ _ _ Hx3
                  ltac:(apply H1)) as H2.
    simpl in H2.
    unfold close_operator in H. inv_bind H. inv_bind H. inv_bind H.
    injection H as <- <-. simpl.
    eapply accounted_trans; [exact H1|].
    eapply accounted_trans; [exact H2|].
    eapply set_static_accounted; [eassumption|apply H2].
  - inv_bind H. inv_bind H. injection H as <- <-.
    destruct x3 as [e1 idx]. simpl.
    destruct (fst x2).
    + eapply new_dynamic_accounted; eassumption.
    + eapply new_static_accounted; eassumption.
Qed.

Lemma count_step_nonneg str i s s' :
  count_step str i s = inr s' ->
  0 <= numcommas s /\ 0 <= numkeys s /\ 0 <= numclosings s ->
  0 <= numcommas s' /\ 0 <= numkeys s' /\ 0 <= numclosings s'.
Proof.
  unfold count_step. intros H Hs. inv_bind H.
  repeat match type of H with
         | (if ?c then _ else _) = _ => destruct c
         | bind _ _ = _ => inv_bind H
         end; injection H as <-; simpl; lia.
Qed.

Lemma pbg_scan_sizes str n sc :
  pbg_scan str n = inr sc ->
  numstatic sc + numdynamic sc = numfields sc /\
  0 <= numdynamic sc /\ 1 <= numfields sc.
Proof.
  unfold pbg_scan. intros H. inv_bind H.
  apply (for_up_invariant
           (fun s => 0 <= numcommas s /\ 0 <= numkeys s /\ 0 <= numclosings s)
           _ (count_step_nonneg str)) in Hx; [|simpl; lia].
  repeat inv_bind H. injection H as <-. simpl. lia.
Qed.

(** *** The fuel of the parser is enough *)

Lemma fueled_ret {A : Type} (x : A) : fueled (ret x).
Proof. discriminate. Qed.

Lemma fueled_inr {A : Type} (x : A) : fueled (inr x : res A).
Proof. discriminate. Qed.

Lemma fueled_bind {A B : Type} (m : res A) (f : A -> res B) :
  fueled m -> (forall x, m = inr x -> fueled (f x)) -> fueled (bind m f).
Proof.
  intros Hm Hf. destruct m as [err|x]; simpl.
  - intros [= ->]. apply Hm. reflexivity.
  - apply Hf. reflexivity.
Qed.

Lemma fueled_and (a b : res bool) : fueled a -> fueled b -> fueled (a &&& b).
Proof.
  intros Ha Hb. apply fueled_bind; [exact Ha|].
  intros [] _; [exact Hb|discriminate].
Qed.

Lemma fueled_or (a b : res bool) : fueled a -> fueled b -> fueled (a ||| b).
Proof.
  intros Ha Hb. apply fueled_bind; [exact Ha|].
  intros [] _; [discriminate|exact Hb].
Qed.

Lemma fueled_rd str i : fueled (rd str i).
Proof.
  unfold rd. destruct (_ <? _); [discriminate|].
  destruct (_ !! _); discriminate.
Qed.

Lemma fueled_aget {A : Type} (a : list (option A)) i : fueled (aget a i).
Proof.
  unfold aget. destruct (_ <? _); [discriminate|].
  destruct (_ !! _) as [[|]|]; discriminate.
Qed.

Lemma fueled_aset {A : Type} (a : list (option A)) i x : fueled (aset a i x).
Proof. unfold aset. destruct (_ || _); discriminate. Qed.

Create HintDb fueled.

#[local] Hint Resolve fueled_ret fueled_inr fueled_rd fueled_aget fueled_aset
  : fueled.

(** Reduce a goal [fueled m] along the binds, conditionals and short-circuit
    operators of [m]. *)
Ltac fueled :=
  repeat first
    [ solve [auto with fueled]
    | discriminate
    | apply fueled_and
    | apply fueled_or
    | apply fueled_bind; [|intros ? ?]
    | match goal with
      | |- fueled (if ?c then _ else _) => destruct c
      | |- fueled (match ?x with _ => _ end) => destruct x
      | |- fueled (raise _) => unfold raise
      | |- fueled (let (_, _) := ?x in _) => destruct x
      end ].

Lemma fueled_is_ch str i c : fueled (is_ch str i c).
Proof. unfold is_ch. fueled. Qed.

#[local] Hint Resolve fueled_is_ch : fueled.

Lemma fueled_for_up {S : Type} (body : Z -> S -> res S) :
  (forall i s, fueled (body i s)) ->
  forall k i s, fueled (for_up k i body s).
Proof.
  intros Hb. induction k as [|k IH]; intros i s; cbn [for_up]; fueled.
Qed.

Lemma fueled_toggles str i b : fueled (toggles str i b).
Proof. unfold toggles. fueled. Qed.

#[local] Hint Resolve fueled_toggles : fueled.

Lemma fueled_count_step str i s : fueled (count_step str i s).
Proof. unfold count_step. fueled. Qed.

Lemma fueled_scan_step str i s : fueled (scan_step str i s).
Proof. unfold scan_step. fueled. Qed.

Lemma fueled_pbg_scan str n : fueled (pbg_scan str n).
Proof.
  unfold pbg_scan.
  apply fueled_bind; [apply fueled_for_up, fueled_count_step|intros ? _].
  apply fueled_bind; [fueled|intros ? _].
  apply fueled_bind; [fueled|intros ? _].
  apply fueled_bind; [apply fueled_for_up, fueled_scan_step|intros ? _].
  fueled.
Qed.

Lemma fueled_pbg_toop str n : fueled (pbg_toop str n).
Proof. unfold pbg_toop. fueled. Qed.

Lemma fueled_skip_digits :
  forall fuel str n i,
    (length (mem str) <= fuel + Z.to_nat (pos str + i))%nat ->
    fueled (skip_digits fuel str n i).
Proof.
  induction fuel as [|fuel IH]; intros str n i Hlen;
    cbn [skip_digits]; (destruct (i =? n); [discriminate|]);
    (apply fueled_bind; [fueled|intros c Hc]);
    (destruct (is_a_digit c); [|discriminate]);
    unfold rd in Hc;
    destruct (Z.ltb_spec (pos str + i) 0) as [|Hpos]; try discriminate;
    destruct (mem str !! Z.to_nat (pos str + i)) eqn:Hlk; try discriminate;
    apply lookup_lt_Some in Hlk.
  - lia.
  - apply IH. lia.
Qed.

Lemma fueled_isnumber_digits str n i :
  0 <= pos str + i -> fueled (skip_digits (length (mem str)) str n i).
Proof. intros H. apply fueled_skip_digits. lia. Qed.

Lemma fueled_skip_digits_any str n i :
  fueled (skip_digits (length (mem str)) str n i).
Proof.
  destruct (Z.ltb_spec (pos str + i) 0) as [Hneg|Hpos].
  - destruct (length (mem str)); cbn [skip_digits];
      (destruct (i =? n); [discriminate|]);
      unfold rd; apply Z.ltb_lt in Hneg; rewrite Hneg; discriminate.
  - apply fueled_isnumber_digits, Hpos.
Qed.

#[local] Hint Resolve fueled_skip_digits_any fueled_pbg_toop : fueled.

Lemma fueled_pbg_isnumber str n : fueled (pbg_isnumber str n).
Proof.
  unfold pbg_isnumber, isnumber_sign, isnumber_int, isnumber_frac,
    isnumber_exp.
  fueled.
Qed.

Lemma fueled_strncpy_read : forall k str j, fueled (strncpy_read k str j).
Proof.
  induction k as [|k IH]; intros str j; cbn [strncpy_read]; fueled.
Qed.

Lemma fueled_parse_literal str n : fueled (parse_literal str n).
Proof.
  unfold parse_literal, pbg_iskey, pbg_isdate, pbg_isstring, pbg_istrue,
    pbg_isfalse, pbg_todate, is_digit_at, strncpy, Double.atof.
  pose proof fueled_pbg_isnumber. pose proof fueled_strncpy_read.
  fueled.
Qed.

Lemma fueled_written : forall a, fueled (written a).
Proof. induction a as [|[x|] a IH]; cbn [written]; fueled. Qed.

#[local] Hint Resolve fueled_parse_literal fueled_written : fueled.

Section ParseFuel.

Variables (str : charp) (fields lengths closings : list (option Z)).

(** [nf] is [numfields]: [fields] has [nf + 1] cells, the last holding the
    sentinel, and [lengths] has [nf] cells. *)
Variable nf : Z.
Hypothesis fields_sentinel : fields !! Z.to_nat nf = Some (Some (-1)).
Hypothesis fields_length : length fields = Z.to_nat (nf + 1).
Hypothesis lengths_length : length lengths = Z.to_nat nf.
Hypothesis nf_pos : 1 <= nf.

Lemma fueled_new_static e nd : fueled (new_static e nd).
Proof. unfold new_static. fueled. Qed.

Lemma fueled_new_dynamic e nd : fueled (new_dynamic e nd).
Proof. unfold new_dynamic. fueled. Qed.

Lemma fueled_set_static e idx nd : fueled (set_static e idx nd).
Proof. unfold set_static. fueled. Qed.

Lemma fueled_more_children a : fueled (more_children fields closings a).
Proof. unfold more_children. fueled. Qed.

Lemma fueled_add_child idx s e r : fueled (add_child idx s e r).
Proof. unfold add_child. pose proof fueled_set_static. fueled. Qed.

Lemma fueled_close_operator idx s : fueled (close_operator idx s).
Proof. unfold close_operator. pose proof fueled_set_static. fueled. Qed.

Lemma more_children_below a :
  more_children fields closings a = inr true -> 0 <= field a < nf.
Proof.
  unfold more_children. intros H. inv_bind H.
  destruct x; [|discriminate].
  inv_bind Hx. injection Hx as Hne.
  apply aget_inr in Hx0 as [Hge Hlk].
  pose proof (lookup_lt_Some _ _ _ Hlk) as Hlt.
  destruct (Z.eq_dec (field a) nf) as [Heq|Hneq].
  - rewrite Heq, fields_sentinel in Hlk. injection Hlk as <-. discriminate.
  - lia.
Qed.

Section Children.

Variable parse : pbg_expr -> int2arg -> res (pbg_expr * int2ret).
Variable budget : Z.
Hypothesis parse_fueled :
  forall e a, nf - field a + 1 <= budget -> fueled (parse e a).
Hypothesis parse_advances :
  forall e a e' r, parse e a = inr (e', r) -> field a < field (arg r).

Lemma parse_children_advances idx :
  forall k s s',
    parse_children fields closings parse idx k s = inr s' ->
    field (ch_arg s) <= field (ch_arg s').
Proof.
  induction k as [|k IH]; intros s s' H; cbn [parse_children] in H;
    inv_bind H; destruct x; try discriminate;
    try (injection H as <-; lia).
  inv_bind H. inv_bind H. apply IH in H. destruct x as [e1 r1].
  apply parse_advances in Hx0.
  unfold add_child in Hx1. repeat inv_bind Hx1. injection Hx1 as <-.
  simpl in H. lia.
Qed.

Lemma fueled_parse_children idx :
  forall k s,
    nf - field (ch_arg s) <= Z.of_nat k ->
    nf - field (ch_arg s) + 1 <= budget ->
    fueled (parse_children fields closings parse idx k s).
Proof.
  induction k as [|k IH]; intros s Hk Hb; cbn [parse_children];
    (apply fueled_bind; [apply fueled_more_children|intros more Hmore]);
    (destruct more; [|discriminate]);
    apply more_children_below in Hmore.
  - lia.
  - apply fueled_bind; [apply parse_fueled, Hb|intros [e1 r1] Hr].
    apply fueled_bind; [apply fueled_add_child|intros s1 Hs1].
    apply parse_advances in Hr.
    unfold add_child in Hs1. repeat inv_bind Hs1. injection Hs1 as <-.
    simpl in *. apply IH; simpl; lia.
Qed.

End Children.

Lemma pbg_parse_r_advances :
  forall fuel e a e' r,
    pbg_parse_r str fields lengths closings fuel e a = inr (e', r) ->
    field a < field (arg r).
Proof.
  induction fuel as [|fuel IH]; intros e a e' r H; [discriminate|].
  cbn [pbg_parse_r] in H.
  inv_bind H. inv_bind H. inv_bind H.
  match type of H with (if ?c then _ else _) = _ => destruct c end.
  - inv_bind H. inv_bind H.
    apply (parse_children_advances _ IH) in Hx3. simpl in Hx3.
    unfold close_operator in H. repeat inv_bind H. injection H as _ <-.
    simpl. lia.
  - inv_bind H. inv_bind H. injection H as _ <-. simpl. lia.
Qed.

Lemma fueled_pbg_parse_r :
  forall fuel e a,
    nf - field a + 1 <= Z.of_nat fuel -> (1 <= fuel)%nat ->
    fueled (pbg_parse_r str fields lengths closings fuel e a).
Proof.
  induction fuel as [|fuel IH]; intros e a Hf H1; [lia|].
  cbn [pbg_parse_r].
  apply fueled_bind; [fueled|intros fo Hfo].
  apply fueled_bind; [fueled|intros ln Hln].
  apply aget_inr in Hln as [Hge Hlk]. apply lookup_lt_Some in Hlk.
  apply fueled_bind; [fueled|intros type _].
  destruct (negb (bool_decide (type = PBG_UNKNOWN))).
  - apply fueled_bind; [apply fueled_new_static|intros r0 _].
    apply fueled_bind; [|intros s _; apply fueled_close_operator].
    apply (fueled_parse_children _ (Z.of_nat fuel)).
    + intros e1 a1 Ha1. apply IH; lia.
    + intros e1 a1 e2 r1. apply pbg_parse_r_advances.
    + simpl. lia.
    + simpl. lia.
  - apply fueled_bind; [fueled|intros lit _].
    apply fueled_bind; [|intros; discriminate].
    destruct (fst lit); [apply fueled_new_dynamic|apply fueled_new_static].
Qed.

End ParseFuel.

Lemma scan_step_lengths str i s s' :
  scan_step str i s = inr s' ->
  length (fields s') = length (fields s) /\
  length (lengths s') = length (lengths s).
Proof.
  unfold scan_step. intros H.
  repeat match type of H with
         | (if ?c then _ else _) = _ => destruct c
         | bind _ _ = _ => inv_bind H
         | inr _ = inr _ => injection H as <-
         end;
    repeat match goal with
           | Hs : aset _ _ _ = inr _ |- _ => apply aset_inr in Hs as [_ ->]
           | Hs : (if ?c then _ else _) = inr _ |- _ => destruct c
           | Hs : bind _ _ = inr _ |- _ => inv_bind Hs
           | Hs : ret _ = inr _ |- _ => injection Hs as <-
           | Hs : inr _ = inr _ |- _ => injection Hs as <-
           end;
    simpl; rewrite ?length_insert; auto.
Qed.

Lemma pbg_scan_arrays str n sc :
  pbg_scan str n = inr sc ->
  sd_fields sc !! Z.to_nat (numfields sc) = Some (Some (-1)) /\
  length (sd_fields sc) = Z.to_nat (numfields sc + 1) /\
  length (sd_lengths sc) = Z.to_nat (numfields sc).
Proof.
  intros H. pose proof (pbg_scan_sizes _ _ _ H) as (_ & _ & Hnf).
  unfold pbg_scan in H. inv_bind H. inv_bind H. inv_bind H. inv_bind H.
  inv_bind H. injection H as <-. simpl in *.
  apply aset_inr in Hx1 as [_ ->].
  apply (for_up_invariant
           (fun s => length (fields s) = Z.to_nat (numcommas x + 1 + 1) /\
                     length (lengths s) = Z.to_nat (numcommas x + 1))) in Hx2.
  - destruct Hx2 as [Hf Hl].
    apply aset_inr in Hx3 as [Hr ->].
    rewrite length_insert. split; [|auto].
    apply list_lookup_insert_eq. lia.
  - intros i s s' Hs [Hf Hl]. apply scan_step_lengths in Hs as [-> ->]. auto.
  - simpl. rewrite length_insert. unfold malloc.
    rewrite !length_replicate. auto.
Qed.

(** Termination of the parser: every call of [pbg_parse_r] that returns
    has moved to a later field, and the fuel [pbg_parse] hands to it is
    enough, so [pbg_parse] never stops for lack of fuel. *)
Theorem pbg_parse_fuel_is_enough (str : charp) (n : Z) :
  fueled (pbg_parse str n).
Proof.
  unfold pbg_parse.
  apply fueled_bind; [apply fueled_pbg_scan|intros sc Hsc].
  pose proof (pbg_scan_sizes _ _ _ Hsc) as (_ & _ & Hnf).
  pose proof (pbg_scan_arrays _ _ _ Hsc) as (Hs & Hlf & Hll).
  eapply (fueled_pbg_parse_r str _ _ _ (numfields sc)); eauto; simpl; lia.
Qed.

(** *** Further facts about the evaluator *)

(** Every evaluation that returns returns 0 or 1, so that [== 0] and
    [== 1] in the walks of NOT, AND and OR are complementary tests. *)
Theorem evaluation_returns_a_boolean
    (fuel : nat) (e : pbg_expr) (node : pbg_expr_node) (v : Z)
    (visited : list Z) :
  pbg_evaluate_r fuel e node = inr (v, visited) -> v = 0 \/ v = 1.
Proof. apply pbg_evaluate_r_bool. Qed.

(** A literal node is true exactly when it is the literal TRUE; any other
    literal kind, a resolved NUMBER or UNKNOWN included, is false. *)
Theorem literal_truth_value
    (fuel : nat) (e : pbg_expr) (node : pbg_expr_node) :
  below_MAX_LT (_type node) = true ->
  pbg_evaluate_r (S fuel) e node
  = inr (Z.b2z (bool_decide (_type node = PBG_LT_TRUE)), []).
Proof.
  intros H. cbn [pbg_evaluate_r]. rewrite H.
  repeat case_bool_decide; reflexivity.
Qed.

(** NOT negates the value of its first child and visits it. *)
Theorem not_negates_its_child
    (fuel : nat) (e : pbg_expr) (node : pbg_expr_node)
    (c0 : Z) (rest : list Z) (v : Z) (visited : list Z) :
  _type node = PBG_OP_NOT ->
  _data node = DInts (c0 :: rest) ->
  child_result fuel e c0 = inr (v, visited) ->
  pbg_evaluate_r (S fuel) e node = inr (Z.b2z (v =? 0), c0 :: visited).
Proof.
  intros Hty Hdata Hc. unfold child_result in Hc. inv_bind Hc.
  cbn [pbg_evaluate_r]. rewrite Hty, Hdata. simpl.
  rewrite Hx. simpl. rewrite Hc. reflexivity.
Qed.

(** EXST is true exactly when the kind of its first child, as resolved, is
    not UNKNOWN; it does not evaluate the child. *)
Theorem exst_tests_for_unknown
    (fuel : nat) (e : pbg_expr) (node n0 : pbg_expr_node)
    (c0 : Z) (rest : list Z) :
  _type node = PBG_OP_EXST ->
  _data node = DInts (c0 :: rest) ->
  get_expr_node e c0 = inr n0 ->
  pbg_evaluate_r (S fuel) e node
  = inr (Z.b2z (negb (bool_decide (_type n0 = PBG_UNKNOWN))), []).
Proof.
  intros Hty Hdata H0. cbn [pbg_evaluate_r]. rewrite Hty, Hdata. simpl.
  rewrite H0. reflexivity.
Qed.

Lemma strncmp_loop_spec (a b : pbg_data) :
  forall (k j : nat),
    (j + k <= length (data_bytes a))%nat ->
    (j + k <= length (data_bytes b))%nat ->
    0 ∉ take k (drop j (data_bytes b)) ->
    exists r,
      strncmp_loop k a b (Z.of_nat j) = inr r /\
      (r = 0 <-> take k (drop j (data_bytes a)) = take k (drop j (data_bytes b))).
Proof.
  induction k as [|k IH]; intros j Ha Hb Hz.
  - exists 0. split; [reflexivity|]. split; reflexivity.
  - destruct (lookup_lt_is_Some_2 (data_bytes a) j) as [x Hx]; [lia|].
    destruct (lookup_lt_is_Some_2 (data_bytes b) j) as [y Hy]; [lia|].
    cbn [strncmp_loop].
    rewrite (data_byte_lookup _ _ _ Hx), (data_byte_lookup _ _ _ Hy).
    rewrite !bind_ret_l.
    rewrite (drop_S _ _ _ Hx), (drop_S _ _ _ Hy) in *. simpl in *.
    apply not_elem_of_cons in Hz as [Hy0 Hz].
    destruct (Z.eqb_spec x y) as [->|Hne]; simpl.
    + destruct (Z.eqb_spec y 0) as [->|_]; [congruence|].
      replace (Z.of_nat j + 1) with (Z.of_nat (S j)) by lia.
      destruct (IH (S j)) as (r & Hr & Hiff); [lia|lia|exact Hz|].
      exists r. split; [exact Hr|]. rewrite Hiff.
      split; [congruence|]. intros [= E]. exact E.
    + exists (x - y). split; [reflexivity|].
      split; [lia|congruence].
Qed.

(** Where the payload of child 0 holds no zero byte, NEQ over two children
    is the negation of EQ over the same two children. *)
Theorem neq_negates_eq_without_zero_bytes
    (fuel : nat) (e : pbg_expr) (neq eq n0 n1 : pbg_expr_node) (c0 c1 : Z) :
  _type neq = PBG_OP_NEQ -> _type eq = PBG_OP_EQ ->
  _data neq = DInts [c0; c1] -> _data eq = DInts [c0; c1] ->
  _int eq = 2 ->
  get_expr_node e c0 = inr n0 ->
  get_expr_node e c1 = inr n1 ->
  payload_readable n0 -> payload_readable n1 ->
  0 <= _int n0 ->
  0 ∉ payload n0 ->
  exists v,
    (v = 0 \/ v = 1) /\
    pbg_evaluate_r (S fuel) e eq = inr (v, []) /\
    pbg_evaluate_r (S fuel) e neq = inr (1 - v, []).
Proof.
  intros Htn Hte Hdn Hde Hie H0 H1 Hr0 Hr1 Hpos Hz.
  cbn [pbg_evaluate_r]. rewrite Htn, Hte, Hdn, Hde, Hie. simpl.
  rewrite H0, H1. simpl.
  destruct (decide (_type n1 = _type n0)) as [Hty|Hty].
  2:{ rewrite !bool_decide_eq_false_2 by exact Hty.
      rewrite orb_true_r. simpl. exists 0. auto. }
  rewrite !bool_decide_eq_true_2 by exact Hty.
  destruct (Z.eqb_spec (_int n1) (_int n0)) as [Hint|Hint]; simpl.
  2:{ exists 0. auto. }
  unfold payload_readable, payload in *.
  pose proof (same_bytes_spec (_data n0) (_data n1) (Z.to_nat (_int n0)) 0)
    as Hsame.
  change (Z.of_nat 0) with 0 in Hsame. rewrite Hsame by lia. clear Hsame.
  destruct (strncmp_loop_spec (_data n1) (_data n0) (Z.to_nat (_int n0)) 0)
    as (r & Hr & Hiff); [lia|lia|rewrite drop_0; exact Hz|].
  change (Z.of_nat 0) with 0 in Hr.
  unfold strncmp. destruct (Z.ltb_spec (_int n0) 0); [lia|].
  rewrite Hr. simpl. rewrite !drop_0 in *.
  destruct (Z.eqb_spec r 0) as [Hr0'|Hr0'].
  - apply Hiff in Hr0'. rewrite bool_decide_eq_true_2 by congruence.
    exists 1. auto.
  - rewrite bool_decide_eq_false_2.
    + exists 0. auto.
    + intros E. apply Hr0', Hiff. congruence.
Qed.

(** *** Further facts about the scan *)

Lemma scan_step_closings str i s s' :
  scan_step str i s = inr s' ->
  sc_c s = 0 /\ (forall (j : nat) x, closings s !! j = Some (Some x) -> j = 0%nat) ->
  sc_c s' = 0 /\ (forall (j : nat) x, closings s' !! j = Some (Some x) -> j = 0%nat).
Proof.
  unfold scan_step. intros H [Hc Hcl].
  assert (Hset : forall i' a', aset (closings s) (sc_c s) i' = inr a' ->
            forall (j : nat) x, a' !! j = Some (Some x) -> j = 0%nat).
  { intros i' a' Ha j x Hj. apply aset_inr in Ha as [_ ->].
    rewrite Hc in Hj. destruct j as [|j]; [reflexivity|].
    rewrite list_lookup_insert_ne in Hj by (simpl; lia). eauto. }
  inv_bind H.
  match type of H with (if ?c then _ else _) = _ => destruct c end.
  2:{ injection H as <-. simpl. auto. }
  inv_bind H. inv_bind H.
  assert (Hx1' : forall (j : nat) y, x1 !! j = Some (Some y) -> j = 0%nat).
  { destruct x0; [eapply Hset; eassumption|].
    injection Hx1 as <-. exact Hcl. }
  clear Hx1. inv_bind H. inv_bind H.
  assert (Hs1 : sc_c x3 = 0 /\ closings x3 = x1).
  { destruct x2; [|injection Hx3 as <-; simpl; auto].
    inv_bind Hx3. inv_bind Hx3. injection Hx3 as <-. simpl. auto. }
  destruct Hs1 as [Hc1 Hcl1].
  inv_bind H. destruct x4.
  - inv_bind H. injection H as <-. simpl. rewrite Hcl1. auto.
  - injection H as <-. rewrite Hcl1. auto.
Qed.

(** The scan never advances its index [c] into [closings]: it records the
    offset of one closing parenthesis only, in cell 0, and the other cells
    stay unwritten. *)
Theorem scan_writes_only_the_first_closing
    (str : charp) (n : Z) (sc : scanned) :
  pbg_scan str n = inr sc ->
  forall (j : nat) (x : Z), sd_closings sc !! j = Some (Some x) -> j = 0%nat.
Proof.
  unfold pbg_scan. intros H.
  inv_bind H. inv_bind H. inv_bind H. inv_bind H. inv_bind H.
  injection H as <-. simpl.
  apply (for_up_invariant
           (fun s => sc_c s = 0 /\
                     forall (j : nat) y, closings s !! j = Some (Some y) -> j = 0%nat)
           _ (scan_step_closings str)) in Hx2.
  - apply Hx2.
  - simpl. split; [reflexivity|]. intros j y Hj. unfold malloc in Hj.
    apply lookup_replicate in Hj as [Hj _]. discriminate.
Qed.

(** With one closing recorded, an operator that follows another takes all
    the fields up to the end of the text: in [(&,(!,TRUE),FALSE)] the
    literal [FALSE] becomes a child of NOT, not of AND. *)
Theorem nested_operator_takes_the_later_fields :
  parse_text "(&,(!,TRUE),FALSE)"
  = inr (Expr [Some (Node PBG_OP_AND 1 (DInts [1]));
               Some (Node PBG_OP_NOT 2 (DInts [2; 3]));
               Some (Node PBG_LT_TRUE 0 DNull);
               Some (Node PBG_LT_FALSE 0 DNull)] [] 4 0,
         Int2Ret (Int2Arg 4 2) 0).
Proof. vm_compute. reflexivity. Qed.

(** *** Further facts about the renderer and the recognizers *)

(** [pbg_gets] renders into a buffer of 1000 bytes: an expression whose
    text has 998 bytes is rendered, byte for byte as it was written, and
    one whose text has 1010 bytes is written past the end of the buffer. *)
Theorem render_buffer_holds_999_bytes :
  (r <- pbg_parse (CharP (bytes_of "(=,'" ++ replicate 988 (chr "a")
                          ++ bytes_of "','b')") 0) 998;;
   pbg_gets 2 (fst r))
  = inr (bytes_of "(=,'" ++ replicate 988 (chr "a") ++ bytes_of "','b')") /\
  (r <- pbg_parse (CharP (bytes_of "(=,'" ++ replicate 1000 (chr "a")
                          ++ bytes_of "','b')") 0) 1010;;
   pbg_gets 2 (fst r))
  = inl OutOfBounds.
Proof. split; vm_compute; reflexivity. Qed.

(** [pbg_isstring] and [pbg_iskey] compare the first and the last byte of
    the range with their delimiters and nothing else; the length is not
    tested. *)
Theorem isstring_iskey_test_the_two_end_bytes
    (str : charp) (n a b : Z) :
  rd str 0 = inr a -> rd str (n - 1) = inr b ->
  pbg_isstring str n = inr ((a =? chr "'") && (b =? chr "'")) /\
  pbg_iskey str n = inr ((a =? chr "[") && (b =? chr "]")).
Proof.
  intros Ha Hb. unfold pbg_isstring, pbg_iskey, and_then, is_ch.
  rewrite Ha, Hb. simpl.
  split; [destruct (a =? chr "'")|destruct (a =? chr "[")]; reflexivity.
Qed.

(** *** [pbg_isnumber] in front of a delimiter *)

Section IsNumberDelimited.

(** Two buffers that hold the same bytes at the positions [0..n] of the
    range and of the byte that follows it, a delimiter. *)
Variables (str1 str2 : charp) (n : Z).
Hypothesis n_pos : 1 <= n.
Hypothesis inside : forall i, 0 <= i <= n -> exists c, rd str1 i = inr c.
Hypothesis agree : forall i, 0 <= i <= n -> rd str2 i = rd str1 i.
Hypothesis delimited :
  rd str1 n = inr (chr ",") \/ rd str1 n = inr (chr ")").

Lemma is_ch_agree i c : 0 <= i <= n -> is_ch str2 i c = is_ch str1 i c.
Proof. intros H. unfold is_ch. rewrite agree by exact H. reflexivity. Qed.

Lemma not_delimiter c :
  rd str1 n = inr c ->
  is_a_digit c = false /\ c <> chr "." /\ c <> chr "e" /\ c <> chr "E" /\
  c <> chr "0".
Proof.
  intros H. destruct delimited as [Hd|Hd]; rewrite Hd in H;
    assert (c = chr "," \/ c = chr ")") as [-> | ->] by
      (injection H; auto);
    repeat split; discriminate.
Qed.

Lemma skip_digits_agree :
  forall (k fuel1 fuel2 : nat) i,
    0 <= i -> n - i = Z.of_nat k -> (k <= fuel1)%nat -> (k <= fuel2)%nat ->
    skip_digits fuel2 str2 n i = skip_digits fuel1 str1 n i /\
    exists r, skip_digits fuel1 str1 n i = inr r /\ i <= r <= n.
Proof.
  induction k as [|k IH]; intros fuel1 fuel2 i Hi Hk H1 H2.
  - assert (i = n) as -> by lia.
    destruct fuel1, fuel2; cbn [skip_digits]; rewrite Z.eqb_refl;
      (split; [reflexivity|]); exists n; split; (reflexivity || lia).
  - destruct fuel1 as [|fuel1]; [lia|]. destruct fuel2 as [|fuel2]; [lia|].
    cbn [skip_digits].
    destruct (Z.eqb_spec i n) as [->|Hne]; [lia|].
    rewrite agree by lia.
    destruct (inside i) as [c Hc]; [lia|]. rewrite Hc, !bind_ret_l.
    destruct (is_a_digit c).
    + destruct (IH fuel1 fuel2 (i + 1)) as (He & r & Hr & Hrange);
        try lia.
      split; [exact He|]. exists r. split; [exact Hr|lia].
    + split; [reflexivity|]. exists i. split; [reflexivity|lia].
Qed.

Lemma buffer_longer_than_range (str : charp) :
  (exists c, rd str 0 = inr c) -> (exists c, rd str n = inr c) ->
  (Z.to_nat n <= length (mem str))%nat.
Proof.
  unfold rd. intros [c0 H0] [cn Hn].
  destruct (Z.ltb_spec (pos str + 0) 0); [discriminate|].
  destruct (Z.ltb_spec (pos str + n) 0); [discriminate|].
  destruct (mem str !! Z.to_nat (pos str + n)) eqn:E; [|discriminate].
  apply lookup_lt_Some in E. lia.
Qed.

Lemma skip_digits_here i :
  0 <= i <= n ->
  skip_digits (length (mem str2)) str2 n i
  = skip_digits (length (mem str1)) str1 n i /\
  exists r, skip_digits (length (mem str1)) str1 n i = inr r /\ i <= r <= n.
Proof.
  intros Hi.
  assert (H1 : (Z.to_nat n <= length (mem str1))%nat).
  { apply buffer_longer_than_range; apply inside; lia. }
  assert (H2 : (Z.to_nat n <= length (mem str2))%nat).
  { apply buffer_longer_than_range.
    - destruct (inside 0) as [c Hc]; [lia|]. exists c. rewrite agree by lia. exact Hc.
    - destruct (inside n) as [c Hc]; [lia|]. exists c. rewrite agree by lia. exact Hc. }
  apply (skip_digits_agree (Z.to_nat (n - i))); lia.
Qed.

Abbreviation stage_agrees := (stage_agrees_on str1 str2 n).

Lemma isnumber_sign_agrees : stage_agrees isnumber_sign.
Proof.
  unfold stage_agrees_on, isnumber_sign. rewrite agree by lia.
  split; [reflexivity|]. intros r H. inv_bind H.
  repeat match type of H with (if ?c then _ else _) = _ => destruct c end;
    unfold ret in H; first [discriminate|injection H as <-; lia].
Qed.

(** Take apart the reads of a stage on [str1], all of them inside. *)
Ltac read_at i :=
  let c := fresh "c" in
  let Hc := fresh "Hc" in
  destruct (inside i) as [c Hc]; [lia|];
  rewrite ?(agree i) by lia; rewrite ?(is_ch_agree i) by lia;
  unfold is_ch; rewrite ?Hc; cbn [bind ret and_then or_else].

Ltac finish_stage :=
  split; [reflexivity|];
  let r := fresh "r" in
  let H := fresh "H" in
  intros r;
  repeat first
    [ progress cbn [bind ret negb and_then or_else]
    | match goal with |- context [if ?b then _ else _] => destruct b end ];
  unfold ret; intros H;
  first [discriminate H|injection H as <-; lia].

Lemma isnumber_int_agrees i :
  0 <= i <= n -> stage_agrees (fun str => isnumber_int str n i).
Proof.
  intros Hi. unfold stage_agrees_on, isnumber_int.
  read_at i.
  destruct (negb (c =? chr "0") && is_a_digit c) eqn:Hnz.
  - destruct (skip_digits_here i Hi) as (-> & r & -> & Hr).
    cbn [bind].
    destruct (Z.eqb_spec r n) as [->|Hrn]; cbn [negb bind ret and_then].
    + finish_stage.
    + read_at r.
      finish_stage.
  - destruct (Z.eqb_spec c (chr "0")) as [->|Hc0].
    + assert (i <> n).
      { intros ->. apply not_delimiter in Hc. lia. }
      destruct (Z.eqb_spec (i + 1) n) as [Hn|Hn]; cbn [negb bind ret and_then].
      * finish_stage.
      * read_at (i + 1).
        finish_stage.
    + finish_stage.
Qed.

Lemma isnumber_frac_agrees i :
  0 <= i <= n -> stage_agrees (fun str => isnumber_frac str n i).
Proof.
  intros Hi. unfold stage_agrees_on, isnumber_frac.
  read_at i.
  destruct (Z.eqb_spec c (chr ".")) as [->|Hdot].
  2:{ finish_stage. }
  assert (i <> n).
  { intros ->. apply not_delimiter in Hc. lia. }
  destruct (Z.eqb_spec i (n - 1)) as [Hlast|Hlast].
  { finish_stage. }
  destruct (skip_digits_here (i + 1)) as (-> & r & -> & Hr); [lia|].
  cbn [bind].
  destruct (Z.eqb_spec r n) as [->|Hrn]; cbn [negb bind ret and_then].
  - finish_stage.
  - read_at r.
    finish_stage.
Qed.

Lemma isnumber_exp_agrees i :
  0 <= i <= n -> stage_agrees (fun str => isnumber_exp str n i).
Proof.
  intros Hi. unfold stage_agrees_on, isnumber_exp.
  read_at i.
  destruct ((c =? chr "e") || (c =? chr "E")) eqn:He.
  2:{ apply orb_false_iff in He as [-> ->]. cbn.
      finish_stage. }
  assert (i <> n).
  { intros ->. apply not_delimiter in Hc.
    apply orb_true_iff in He as [He|He]; apply Z.eqb_eq in He; lia. }
  assert (Hex : (if c =? chr "e" then ret true
                 else ret (c =? chr "E")) = (inr true : res bool)).
  { apply orb_true_iff in He as [->| ->]; [reflexivity|].
    destruct (c =? chr "e"); reflexivity. }
  rewrite Hex. cbn [bind].
  destruct (Z.eqb_spec i (n - 1)) as [Hlast|Hlast].
  { finish_stage. }
  read_at (i + 1).
  set (sgn := (if c0 =? chr "-" then ret true else ret (c0 =? chr "+"))).
  assert (Hsgn : exists b, sgn = inr b).
  { unfold sgn. destruct (c0 =? chr "-"); eexists; reflexivity. }
  destruct Hsgn as [b ->]. cbn [bind].
  remember (if b then i + 1 + 1 else i + 1) as i' eqn:Hi'.
  assert (Hin' : 0 <= i' <= n) by (destruct b; lia). clear Hi'.
  destruct (skip_digits_here i' Hin') as (-> & r & -> & Hr).
  cbn [bind].
  destruct (Z.eqb_spec r n) as [->|Hrn]; cbn [negb bind ret and_then].
  - finish_stage.
  - read_at r.
    finish_stage.
Qed.

(** In front of a delimiter [pbg_isnumber] reads no byte beyond position
    [n]: what it answers on a buffer it answers on every buffer with the
    same bytes at the positions [0..n]. *)
Theorem isnumber_reads_up_to_the_delimiter :
  pbg_isnumber str2 n = pbg_isnumber str1 n.
Proof.
  unfold pbg_isnumber.
  destruct isnumber_sign_agrees as [-> Hs].
  destruct (isnumber_sign str1) as [|[i|]]; try reflexivity. cbn [bind].
  specialize (Hs i eq_refl).
  destruct (isnumber_int_agrees i Hs) as [Hi Hir]. cbn beta in Hi, Hir.
  rewrite Hi.
  destruct (isnumber_int str1 n i) as [|[j|]]; try reflexivity. cbn [bind].
  specialize (Hir j eq_refl).
  destruct (isnumber_frac_agrees j Hir) as [Hj Hjr]. cbn beta in Hj, Hjr.
  rewrite Hj.
  destruct (isnumber_frac str1 n j) as [|[k|]]; try reflexivity. cbn [bind].
  specialize (Hjr k eq_refl).
  destruct (isnumber_exp_agrees k Hjr) as [Hk _]. cbn beta in Hk.
  rewrite Hk. reflexivity.
Qed.

End IsNumberDelimited.

(** *** The shape of a parsed expression *)

Lemma built_mono e e' c :
  _staticsz e <= _staticsz e' -> _dynamicsz e <= _dynamicsz e' ->
  built e c -> built e' c.
Proof. unfold built. lia. Qed.

Lemma get_expr_node_static e (c : Z) nd :
  0 <= c -> _static e !! Z.to_nat c = Some (Some nd) ->
  get_expr_node e c = inr nd.
Proof.
  intros Hc H. unfold get_expr_node, aget.
  destruct (Z.ltb_spec c 0); [lia|]. rewrite H. reflexivity.
Qed.

Lemma get_expr_node_dynamic e (c : Z) nd :
  c < 0 -> _dynamic e !! Z.to_nat (- (c + 1)) = Some (Some nd) ->
  get_expr_node e c = inr nd.
Proof.
  intros Hc H. unfold get_expr_node, aget.
  destruct (Z.ltb_spec c 0); [|lia].
  destruct (Z.ltb_spec (- (c + 1)) 0); [lia|]. rewrite H. reflexivity.
Qed.

Lemma get_expr_node_inr e c nd :
  get_expr_node e c = inr nd ->
  (0 <= c /\ _static e !! Z.to_nat c = Some (Some nd)) \/
  (c < 0 /\ _dynamic e !! Z.to_nat (- (c + 1)) = Some (Some nd)).
Proof.
  unfold get_expr_node. destruct (Z.ltb_spec c 0); intros Hg;
    apply aget_inr in Hg as [H0 Hg]; [right|left]; split; auto; lia.
Qed.

(** A literal reference stays one in a later arena that keeps the cells
    from [lo] on. *)
Lemma literal_at_mono (lo : Z) e e' c :
  built e c -> (0 <= c -> lo <= c) ->
  (forall i : nat, lo <= Z.of_nat i < _staticsz e ->
                   _static e' !! i = _static e !! i) ->
  (forall i : nat, Z.of_nat i < _dynamicsz e ->
                   _dynamic e' !! i = _dynamic e !! i) ->
  literal_at e c -> literal_at e' c.
Proof.
  intros Hb Hlo Hst Hdy (nd & Hnd & Hlit). exists nd. split; [|exact Hlit].
  unfold built in Hb.
  apply get_expr_node_inr in Hnd as [[Hc Hnd]|[Hc Hnd]].
  - apply get_expr_node_static; [exact Hc|]. rewrite Hst; [exact Hnd|lia].
  - apply get_expr_node_dynamic; [exact Hc|]. rewrite Hdy; [exact Hnd|lia].
Qed.

Lemma static_shape_mono (lo : Z) e e' idx nd :
  lo <= idx + 1 ->
  _staticsz e <= _staticsz e' -> _dynamicsz e <= _dynamicsz e' ->
  (forall i : nat, lo <= Z.of_nat i < _staticsz e ->
                   _static e' !! i = _static e !! i) ->
  (forall i : nat, Z.of_nat i < _dynamicsz e ->
                   _dynamic e' !! i = _dynamic e !! i) ->
  static_shape e idx nd -> static_shape e' idx nd.
Proof.
  intros Hlo Hsz Hdsz Hst Hdy. unfold static_shape.
  destruct (below_MAX_LT (_type nd)); [auto|].
  unfold operator_shape. intros (Hd & Hn & Hb & Hl).
  split; [exact Hd|]. split; [exact Hn|]. split.
  - intros c Hc. destruct (Hb c Hc) as [Hbc Hgt].
    split; [eapply built_mono; eauto|exact Hgt].
  - intros j c Hj Hlast.
    assert (Hc : c ∈ children_refs nd) by (eapply list_elem_of_lookup_2; eauto).
    destruct (Hb c Hc) as [Hbc Hgt].
    eapply (literal_at_mono lo); eauto. intros H0. specialize (Hgt H0). lia.
Qed.

Lemma pbg_toop_operator str n t :
  pbg_toop str n = inr t -> t <> PBG_UNKNOWN -> below_MAX_LT t = false.
Proof.
  unfold pbg_toop. intros H Hne.
  repeat match type of H with
         | (if ?c then _ else _) = _ => destruct c
         | bind _ _ = _ => inv_bind H
         end; injection H as <-; first [reflexivity|congruence].
Qed.

Lemma strncpy_read_length :
  forall k str j bs, strncpy_read k str j = inr bs -> length bs = k.
Proof.
  induction k as [|k IH]; intros str j bs H; cbn [strncpy_read] in H.
  - injection H as <-. reflexivity.
  - inv_bind H. destruct (x =? 0).
    + injection H as <-. simpl. rewrite length_replicate. reflexivity.
    + inv_bind H. injection H as <-. simpl. f_equal. eapply IH; eauto.
Qed.

Lemma strncpy_length str k bs :
  strncpy str k = inr bs -> 0 <= k /\ Z.of_nat (length bs) = k.
Proof.
  unfold strncpy. destruct (Z.ltb_spec k 0); [discriminate|].
  intros Hc. apply strncpy_read_length in Hc. lia.
Qed.

Lemma is_digit_at_true str i :
  is_digit_at str i = inr true ->
  exists c, rd str i = inr c /\ chr "0" <= c <= chr "9".
Proof.
  unfold is_digit_at, and_then. intros H.
  inv_bind H. inv_bind Hx. injection Hx as <-.
  destruct (Z.leb_spec (chr "0") x0); [|discriminate].
  rewrite Hx0 in H. simpl in H. injection H as H.
  exists x0. split; [exact Hx0|]. apply Z.leb_le in H. lia.
Qed.

Lemma and_then_true (a b : res bool) :
  a &&& b = inr true -> a = inr true /\ b = inr true.
Proof.
  unfold and_then. intros H. inv_bind H. destruct x; [auto|discriminate].
Qed.

Lemma pbg_todate_shape str n dt :
  pbg_isdate str n = inr true -> pbg_todate str n = inr dt ->
  exists y m d, dt = DDate y m d /\
                0 <= y <= 9999 /\ 0 <= m <= 99 /\ 0 <= d <= 99.
Proof.
  unfold pbg_isdate. intros H Ht.
  repeat (apply and_then_true in H as [H ?]).
  repeat match goal with
         | Hd : is_digit_at _ _ = inr true |- _ =>
             apply is_digit_at_true in Hd as (? & ? & ?)
         end.
  unfold pbg_todate in Ht.
  repeat match goal with
         | Hr : rd str _ = inr _ |- _ => rewrite Hr in Ht; clear Hr
         end.
  cbn -[schar] in Ht. injection Ht as <-.
  eexists _, _, _. split; [reflexivity|].
  change (chr "0") with 48 in *. change (chr "9") with 57 in *.
  unfold schar.
  repeat match goal with
         | |- context [128 <=? ?x] => destruct (Z.leb_spec 128 x); [lia|]
         end.
  lia.
Qed.

Lemma parse_literal_shape str n lit :
  parse_literal str n = inr lit ->
  below_MAX_LT (_type (snd lit)) = true /\ literal_shape (snd lit).
Proof.
  unfold parse_literal. intros H.
  apply bind_inr in H as (k & Hk & H). destruct k.
  { apply bind_inr in H as (bs & Hbs & H). injection H as <-.
    apply strncpy_length in Hbs as [_ Hl].
    split; [reflexivity|]. unfold literal_shape. simpl. eauto. }
  apply bind_inr in H as (d & Hd & H). destruct d.
  { apply bind_inr in H as (dt & Hdt & H). injection H as <-.
    destruct (pbg_todate_shape _ _ _ Hd Hdt) as (y & m & d & -> & Hr).
    split; [reflexivity|]. unfold literal_shape. simpl.
    split; [reflexivity|]. eauto. }
  apply bind_inr in H as (nb & Hnb & H). destruct nb.
  { apply bind_inr in H as (bs & Hbs & H). injection H as <-.
    split; [reflexivity|].
    unfold literal_shape. simpl. split; [reflexivity|].
    unfold Double.atof in Hbs. destruct (_ || _); [discriminate|].
    injection Hbs as <-. eexists. split; [reflexivity|].
    unfold Double.to_bytes, le_bytes. rewrite length_map, length_seq.
    reflexivity. }
  apply bind_inr in H as (sg & Hsg & H). destruct sg.
  { apply bind_inr in H as (bs & Hbs & H). injection H as <-.
    apply strncpy_length in Hbs as [_ Hl].
    split; [reflexivity|]. unfold literal_shape. simpl. eauto. }
  apply bind_inr in H as (tt & Htt & H). destruct tt.
  { injection H as <-. split; [reflexivity|]. unfold literal_shape. simpl. auto. }
  apply bind_inr in H as (ff & Hff & H). destruct ff.
  { injection H as <-. split; [reflexivity|]. unfold literal_shape. simpl. auto. }
  unfold raise in H. discriminate.
Qed.

Lemma written_take (a : list (option Z)) (cs : list Z) :
  (forall (j : nat) c, cs !! j = Some c -> a !! j = Some (Some c)) ->
  written (take (length cs) a) = inr cs.
Proof.
  revert a. induction cs as [|c cs IH]; intros a H.
  - reflexivity.
  - destruct a as [|x a].
    + specialize (H 0%nat c eq_refl). discriminate.
    + pose proof (H 0%nat c eq_refl) as H0. simpl in H0. injection H0 as ->.
      simpl. rewrite IH; [reflexivity|].
      intros j c' Hj. apply (H (S j)). exact Hj.
Qed.

Lemma bounded_set_static e idx nd e' :
  set_static e idx nd = inr e' -> bounded e -> bounded e'.
Proof.
  intros H Hb. apply (set_static_accounted _ _ _ _ 0) in H; [|exact Hb].
  apply H.
Qed.

Section ParseShape.

Variables (str : charp) (fields lengths closings : list (option Z)).

(** The scan writes cell 0 of [closings] and no other. *)
Hypothesis closings_first :
  forall (j : nat) x, closings !! j = Some (Some x) -> j = 0%nat.

Lemma more_children_closing a :
  more_children fields closings a = inr true -> closing a = 0.
Proof.
  unfold more_children, and_then. intros H. inv_bind H.
  destruct x; [|discriminate].
  inv_bind H. inv_bind H. apply aget_inr in Hx1 as [Hge Hlk].
  apply closings_first in Hlk. lia.
Qed.

Section Children.

Variable parse : pbg_expr -> int2arg -> res (pbg_expr * int2ret).
Hypothesis parse_parsed :
  forall e a e' r, parse e a = inr (e', r) -> bounded e -> counted e ->
                   0 <= closing a -> parsed e a e' r.

Lemma add_child_collecting e0 idx c0 t s cs e1 r1 s1 :
  collecting e0 idx c0 t s cs ->
  0 <= c0 -> closing (ch_arg s) = 0 ->
  parse (ch_expr s) (ch_arg s) = inr (e1, r1) ->
  add_child idx s e1 r1 = inr s1 ->
  collecting e0 idx c0 t s1 (cs ++ [nodeidx r1]).
Proof.
  intros (Hb & Hcnt & Hidx & Hlow & [Hdf1 Hdf2] & Hst & Hdy & Hnode & Hch & Hlen
          & Hcs & Hmax & Hbuilt & Hcomb & Hlit & Hc0) Hc0' Hcl Hp Ha.
  assert (Hc0z : c0 = 0) by lia. subst c0.
  specialize (Hlit Hcl).
  apply parse_parsed in Hp; [|exact Hb|exact Hcnt|lia].
  destruct Hp as ((Hsz1 & Hfr1) & (Hdsz1 & Hdfr1) & (Hcst1 & Hcdy1) & Hb1
                  & [Hcnt1 Hcnt1'] & Hcl1 & Hbr & Hrs & Hrd & Hrl).
  unfold add_child in Ha. inv_bind Ha. rename x into nd, Hx into Hnd.
  apply aget_inr in Hnd as [_ Hnd].
  rewrite <- (Nat2Z.id (Z.to_nat idx)) in Hnd.
  rewrite Hfr1 in Hnd by lia. rewrite Nat2Z.id in Hnd.
  rewrite Hnode in Hnd. injection Hnd as <-. cbn [_int _type _data] in Ha.
  inv_bind Ha. rename x into children, Hx into Hset.
  inv_bind Ha. rename x into e2, Hx into Hss. injection Ha as <-.
  pose proof (bounded_set_static _ _ _ _ Hss Hb1) as Hb2.
  apply set_static_inr in Hss as (Hr2 & Hst2 & Hsz2 & Hdy2 & Hdsz2).
  apply aset_inr in Hset as [Hrng ->].
  cbn [ch_expr ch_arg ch_children ch_max].
  assert (Hkeep1 : forall i : nat, idx + 1 <= Z.of_nat i < _staticsz (ch_expr s) ->
                     _static e2 !! i = _static (ch_expr s) !! i).
  { intros i Hi. rewrite Hst2, list_lookup_insert_ne by lia.
    apply Hfr1. lia. }
  assert (Hkeep2 : forall i : nat, idx + 1 <= Z.of_nat i < _staticsz e1 ->
                     _static e2 !! i = _static e1 !! i).
  { intros i Hi. rewrite Hst2, list_lookup_insert_ne by lia. reflexivity. }
  assert (Hkd1 : forall i : nat, Z.of_nat i < _dynamicsz (ch_expr s) ->
                   _dynamic e2 !! i = _dynamic (ch_expr s) !! i).
  { intros i Hi. rewrite Hdy2. apply Hdfr1, Hi. }
  assert (Hkd2 : forall i : nat, Z.of_nat i < _dynamicsz e1 ->
                   _dynamic e2 !! i = _dynamic e1 !! i).
  { intros i Hi. rewrite Hdy2. reflexivity. }
  assert (Hold : forall c, c ∈ cs -> literal_at e2 c).
  { intros c Hc. destruct (Hbuilt c Hc) as [Hbc Hgt].
    apply (literal_at_mono (idx + 1) (ch_expr s));
      [exact Hbc|intros H0; specialize (Hgt H0); lia|exact Hkeep1|exact Hkd1
      |apply Hlit, Hc]. }
  assert (Hnew : built e2 (nodeidx r1) /\ (0 <= nodeidx r1 -> idx < nodeidx r1)).
  { split; [|lia]. unfold built in *. lia. }
  assert (Hgrown : forall (j : nat) c, cs !! j = Some c ->
            (if Z.of_nat (length cs) =? ch_max s
             then (ch_children s ++ malloc (ch_max s), ch_max s * 2)
             else (ch_children s, ch_max s)).1 !! j = Some (Some c)).
  { intros j c Hj. specialize (Hch j c Hj).
    destruct (_ =? _); simpl; [|exact Hch].
    apply lookup_app_l_Some. exact Hch. }
  assert (Hglen : length (if Z.of_nat (length cs) =? ch_max s
             then (ch_children s ++ malloc (ch_max s), ch_max s * 2)
             else (ch_children s, ch_max s)).1
            = Z.to_nat (if Z.of_nat (length cs) =? ch_max s
             then (ch_children s ++ malloc (ch_max s), ch_max s * 2)
             else (ch_children s, ch_max s)).2).
  { destruct (_ =? _); simpl; [|exact Hlen].
    rewrite length_app. unfold malloc. rewrite length_replicate. lia. }
  unfold collecting. cbn [ch_expr ch_arg ch_children ch_max].
  split; [exact Hb2|]. split.
  { split.
    - intros i ndi Hi. rewrite Hst2 in Hi.
      destruct (Nat.eq_dec i (Z.to_nat idx)) as [->|Hne]; [lia|].
      rewrite list_lookup_insert_ne in Hi by lia.
      apply Hcnt1 in Hi. lia.
    - intros i ndi Hi. rewrite Hdy2 in Hi. apply Hcnt1' in Hi. lia. }
  split; [lia|]. split.
  { intros i Hi. rewrite Hst2, list_lookup_insert_ne by lia.
    rewrite Hfr1 by lia. apply Hlow, Hi. }
  split.
  { split; [lia|]. intros i Hi. rewrite Hdy2, Hdfr1 by lia.
    apply Hdf2, Hi. }
  split.
  { intros i Hi.
    destruct (Z.lt_ge_cases (Z.of_nat i) (_staticsz (ch_expr s))) as [Hlt|Hge].
    - destruct (Hst i ltac:(lia)) as (ndi & Hndi & Hshape).
      exists ndi. split; [rewrite Hkeep1 by lia; exact Hndi|].
      apply (static_shape_mono (idx + 1) (ch_expr s));
        [lia|lia|lia|exact Hkeep1|exact Hkd1|exact Hshape].
    - destruct (Hcst1 i ltac:(lia)) as (ndi & Hndi & Hshape).
      exists ndi. split; [rewrite Hkeep2 by lia; exact Hndi|].
      apply (static_shape_mono (idx + 1) e1);
        [lia|lia|lia|exact Hkeep2|exact Hkd2|exact Hshape]. }
  split.
  { intros i Hi. rewrite Hdy2.
    destruct (Z.lt_ge_cases (Z.of_nat i) (_dynamicsz (ch_expr s))) as [Hlt|Hge].
    - rewrite Hdfr1 by lia. apply Hdy. lia.
    - apply Hcdy1. lia. }
  split.
  { rewrite Hst2, list_lookup_insert_eq by lia.
    rewrite length_app. simpl. do 3 f_equal. lia. }
  split.
  { intros j c Hj. apply lookup_app_Some in Hj as [Hj|[Hge Hj]].
    - rewrite list_lookup_insert_ne; [apply Hgrown, Hj|].
      apply lookup_lt_Some in Hj. lia.
    - apply list_lookup_singleton_Some in Hj as [Hj <-].
      replace j with (length cs) by lia.
      rewrite Nat2Z.id. apply list_lookup_insert_eq. lia. }
  split; [rewrite length_insert; exact Hglen|].
  split; [rewrite length_insert, length_app; simpl; lia|].
  split; [destruct (_ =? _); simpl; lia|].
  split.
  { intros c Hc. apply elem_of_app in Hc as [Hc|Hc].
    - destruct (Hbuilt c Hc) as [Hbc Hgt]. split; [|exact Hgt].
      unfold built in *. lia.
    - apply list_elem_of_singleton in Hc as ->. exact Hnew. }
  split.
  { intros j c Hj Hlast. rewrite length_app in Hlast. simpl in Hlast.
    rewrite lookup_app_l in Hj by lia.
    apply Hold. eapply list_elem_of_lookup_2; eauto. }
  split; [|lia].
  intros Hsame c Hc. apply elem_of_app in Hc as [Hc|Hc]; [apply Hold, Hc|].
  apply list_elem_of_singleton in Hc as ->.
  eapply (literal_at_mono (idx + 1)); [| | | |apply Hrl; lia];
    [exact Hbr|lia|exact Hkeep2|exact Hkd2].
Qed.

Lemma parse_children_collecting e0 idx c0 t :
  0 <= c0 ->
  forall k s s' cs,
    parse_children fields closings parse idx k s = inr s' ->
    collecting e0 idx c0 t s cs ->
    exists cs', collecting e0 idx c0 t s' cs'.
Proof.
  intros Hc0. induction k as [|k IH]; intros s s' cs H Hinv;
    cbn [parse_children] in H; inv_bind H; destruct x; try discriminate;
    try (injection H as <-; eauto).
  inv_bind H. inv_bind H. destruct x as [e1 r1]. simpl in *.
  apply more_children_closing in Hx.
  eapply IH; [exact H|].
  eapply add_child_collecting; eauto.
Qed.

End Children.

Lemma new_static_counted e nd e' idx :
  new_static e nd = inr (e', idx) -> counted e -> counted e'.
Proof.
  unfold new_static. intros H [Hs Hd]. inv_bind H.
  apply aset_inr in Hx as [Hr ->]. injection H as <- _. split; simpl.
  - intros i ndi Hi.
    destruct (Nat.eq_dec i (Z.to_nat (_staticsz e))) as [->|Hne]; [lia|].
    rewrite list_lookup_insert_ne in Hi by lia. apply Hs in Hi. lia.
  - exact Hd.
Qed.

Lemma new_dynamic_counted e nd e' idx :
  new_dynamic e nd = inr (e', idx) -> counted e -> counted e'.
Proof.
  unfold new_dynamic. intros H [Hs Hd]. inv_bind H.
  apply aset_inr in Hx as [Hr ->]. injection H as <- _. split; simpl.
  - exact Hs.
  - intros i ndi Hi.
    destruct (Nat.eq_dec i (Z.to_nat (- (- _dynamicsz e - 1 + 1)))) as [->|Hne];
      [lia|].
    rewrite list_lookup_insert_ne in Hi by lia. apply Hd in Hi. lia.
Qed.

Lemma collecting_start e idx c0 t nd e0 a :
  bounded e -> counted e ->
  new_static e nd = inr (e0, idx) -> nd = Node t 0 DUnset ->
  collecting e0 idx c0 t (Children e0 (Int2Arg a c0) (malloc 2) 2) [].
Proof.
  intros Hb Hcnt Hn ->.
  pose proof (new_static_accounted _ _ _ _ 0 Hn Hb) as (_ & _ & _ & _ & _ & Hb0).
  pose proof (new_static_counted _ _ _ _ Hn Hcnt) as Hcnt0.
  apply new_static_inr in Hn as (-> & Hge & Hsz0 & Hst0 & Hlen0 & Hdy0).
  unfold collecting. cbn [ch_expr ch_arg ch_children ch_max closing].
  split; [exact Hb0|]. split; [exact Hcnt0|]. split; [lia|].
  split; [reflexivity|].
  split; [split; [lia|reflexivity]|].
  split; [intros i Hi; lia|]. split; [intros i Hi; lia|].
  split; [rewrite Hst0; apply list_lookup_insert_eq; exact Hlen0|].
  split; [intros j c Hj; discriminate|].
  split; [reflexivity|]. split; [simpl; lia|]. split; [lia|].
  split; [intros c Hc; inversion Hc|].
  split; [intros j c Hj; discriminate|].
  split; [intros _ c Hc; inversion Hc|lia].
Qed.

Lemma close_operator_parsed e0 idx c0 t s cs e' r :
  below_MAX_LT t = false ->
  collecting e0 idx c0 t s cs ->
  close_operator idx s = inr (e', r) ->
  _staticsz e' = _staticsz (ch_expr s) /\
  _dynamicsz e' = _dynamicsz (ch_expr s) /\
  _dynamic e' = _dynamic (ch_expr s) /\
  counted e' /\
  (forall i : nat, idx <= Z.of_nat i < _staticsz e' ->
     exists nd, _static e' !! i = Some (Some nd) /\
                static_shape e' (Z.of_nat i) nd) /\
  nodeidx r = idx /\ closing (arg r) = closing (ch_arg s) + 1.
Proof.
  intros Hkind (Hb & [Hcnt Hcnt'] & Hidx & Hlow & Hdf & Hst & Hdy & Hnode & Hch
                & Hlen & Hcs & Hmax & Hbuilt & Hcomb & Hlit & Hc0) H.
  unfold close_operator in H. inv_bind H. rename x into nd, Hx into Hnd.
  apply aget_inr in Hnd as [_ Hnd]. rewrite Hnode in Hnd. injection Hnd as <-.
  cbn [_int _type _data] in H. unfold tighten in H. rewrite Nat2Z.id in H.
  rewrite (written_take _ _ Hch), !bind_ret_l in H.
  inv_bind H. rename x into e2, Hx into Hss. injection H as <- <-.
  assert (Hrefs : children_refs
                    (Node t (Z.of_nat (length cs))
                       (if Z.of_nat (length cs) =? 0 then DNull else DInts cs))
                  = cs).
  { unfold children_refs. simpl. destruct cs; reflexivity. }
  apply set_static_inr in Hss as (Hr2 & Hst2 & Hsz2 & Hdy2 & Hdsz2).
  cbn [nodeidx arg closing].
  split; [exact Hsz2|]. split; [exact Hdsz2|]. split; [exact Hdy2|].
  split.
  { split.
    - intros i ndi Hi. rewrite Hst2 in Hi.
      destruct (Nat.eq_dec i (Z.to_nat idx)) as [->|Hne]; [lia|].
      rewrite list_lookup_insert_ne in Hi by lia.
      apply Hcnt in Hi. lia.
    - intros i ndi Hi. rewrite Hdy2 in Hi. apply Hcnt' in Hi. lia. }
  split; [|split; reflexivity].
  assert (Hkeep : forall i : nat, idx + 1 <= Z.of_nat i < _staticsz (ch_expr s) ->
                    _static e2 !! i = _static (ch_expr s) !! i).
  { intros i Hi. rewrite Hst2, list_lookup_insert_ne by lia. reflexivity. }
  assert (Hkd : forall i : nat, Z.of_nat i < _dynamicsz (ch_expr s) ->
                  _dynamic e2 !! i = _dynamic (ch_expr s) !! i).
  { intros i Hi. rewrite Hdy2. reflexivity. }
  intros i Hi. destruct (Z.eq_dec (Z.of_nat i) idx) as [Heq|Hne].
  - exists (Node t (Z.of_nat (length cs))
               (if Z.of_nat (length cs) =? 0 then DNull else DInts cs)). split.
    { rewrite Hst2. replace i with (Z.to_nat idx) by lia.
      apply list_lookup_insert_eq. lia. }
    unfold static_shape. cbn [_type]. rewrite Hkind.
    unfold operator_shape. rewrite Hrefs. cbn [_int _data].
    split; [reflexivity|]. split; [reflexivity|]. split.
    + intros c Hc. destruct (Hbuilt c Hc) as [Hbc Hgt].
      split; [unfold built in *; lia|lia].
    + intros j c Hj Hlast.
      assert (Hc : c ∈ cs) by (eapply list_elem_of_lookup_2; eauto).
      destruct (Hbuilt c Hc) as [Hbc Hgt].
      eapply (literal_at_mono (idx + 1)); eauto.
      intros H0. specialize (Hgt H0). lia.
  - destruct (Hst i ltac:(lia)) as (ndi & Hndi & Hshape).
    exists ndi. split; [rewrite Hkeep by lia; exact Hndi|].
    eapply (static_shape_mono (idx + 1)); eauto; lia.
Qed.

Lemma pbg_parse_r_parsed :
  forall fuel e a e' r,
    pbg_parse_r str fields lengths closings fuel e a = inr (e', r) ->
    bounded e -> counted e -> 0 <= closing a ->
    parsed e a e' r.
Proof.
  induction fuel as [|fuel IH]; intros e a e' r H Hb Hcnt Hcl; [discriminate|].
  pose proof (pbg_parse_r_frame _ _ _ _ _ _ _ _ _ H ltac:(apply Hb)) as Hframe.
  pose proof (pbg_parse_r_accounted _ _ _ _ _ _ _ _ _ H Hb)
    as (_ & _ & _ & _ & _ & Hb').
  cbn [pbg_parse_r] in H.
  inv_bind H. inv_bind H. inv_bind H. rename x1 into t, Hx1 into Ht.
  destruct (negb (bool_decide (t = PBG_UNKNOWN))) eqn:Hop.
  - (* operator *)
    apply negb_true_iff, bool_decide_eq_false in Hop.
    pose proof (pbg_toop_operator _ _ _ Ht Hop) as Hkind.
    inv_bind H. inv_bind H. destruct x1 as [e0 idx]. simpl in *.
    pose proof (collecting_start _ _ (closing a) t _ _ (field a + 1) Hb Hcnt
                  Hx1 eq_refl) as Hstart.
    assert (Hdsz0 : _dynamicsz e0 = _dynamicsz e /\ idx = _staticsz e).
    { unfold new_static in Hx1. inv_bind Hx1. injection Hx1 as <- <-. auto. }
    destruct Hdsz0 as [Hdsz0 ->].
    destruct (parse_children_collecting _ IH _ _ _ t Hcl _ _ _ _ Hx2 Hstart)
      as (cs & Hcoll).
    pose proof (close_operator_parsed _ _ _ _ _ _ _ _ Hkind Hcoll H)
      as (Hsz & Hdsz & Hdy & Hcnt' & Hnodes & Hidx & Hclose).
    destruct Hcoll as (_ & _ & Hi0 & _ & [Hdf1 Hdf2] & _ & Hdyn & _ & _ & _ & _
                       & _ & _ & _ & _ & Hc0).
    apply new_static_inr in Hx1 as (_ & Hge & Hsz0 & Hst0 & Hlen0 & Hdy0).
    unfold parsed. split; [exact Hframe|]. split.
    { split; [lia|]. intros i Hi. rewrite Hdy, Hdf2 by lia.
      rewrite Hdy0. reflexivity. }
    split.
    { split; [intros i Hi; apply Hnodes; lia|].
      intros i Hi. rewrite Hdy. apply Hdyn. lia. }
    split; [exact Hb'|]. split; [exact Hcnt'|]. split; [lia|]. rewrite Hidx.
    split; [unfold built; destruct Hb' as [_ Hbd]; lia|].
    split; [lia|]. split; lia.
  - (* literal *)
    inv_bind H. inv_bind H. injection H as <- <-.
    rename x1 into lit, Hx1 into Hlit. destruct x2 as [e1 idx].
    cbn [fst snd arg closing nodeidx] in *.
    destruct (parse_literal_shape _ _ _ Hlit) as [Hbelow Hshape].
    unfold parsed. cbn [arg closing nodeidx].
    split; [exact Hframe|].
    destruct (parse_literal_key _ _ _ Hlit) as [[Hk Hty]|[Hk Hty]];
      rewrite Hk in Hx2.
    + assert (Hdsz : _dynamicsz e1 = _dynamicsz e + 1).
      { pose proof Hx2 as Hc. unfold new_dynamic in Hc. inv_bind Hc.
        injection Hc as <- _. reflexivity. }
      pose proof (new_dynamic_counted _ _ _ _ Hx2 Hcnt) as Hcnt'.
      apply new_dynamic_inr in Hx2 as (-> & Hge & Hst & Hsz & Hdy & Hlen).
      assert (Hnew : _dynamic e1 !! Z.to_nat (_dynamicsz e) = Some (Some (snd lit))).
      { rewrite Hdy. apply list_lookup_insert_eq. exact Hlen. }
      split.
      { split; [lia|]. intros i Hi. rewrite Hdy.
        apply list_lookup_insert_ne. lia. }
      split.
      { split; [intros i Hi; lia|]. intros i Hi.
        replace i with (Z.to_nat (_dynamicsz e)) by lia.
        exists (snd lit). split; [exact Hnew|]. split; assumption. }
      split; [exact Hb'|]. split; [exact Hcnt'|]. split; [lia|].
      split; [unfold built; destruct Hb' as [Hbs _]; lia|].
      split; [lia|]. split; [lia|].
      intros _. exists (snd lit). split; [|exact Hbelow].
      apply get_expr_node_dynamic; [lia|].
      replace (- (- _dynamicsz e - 1 + 1)) with (_dynamicsz e) by lia.
      exact Hnew.
    + assert (Hdsz : _dynamicsz e1 = _dynamicsz e).
      { pose proof Hx2 as Hc. unfold new_static in Hc. inv_bind Hc.
        injection Hc as <- _. reflexivity. }
      pose proof (new_static_counted _ _ _ _ Hx2 Hcnt) as Hcnt'.
      apply new_static_inr in Hx2 as (-> & Hge & Hsz & Hst & Hlen & Hdy).
      assert (Hnew : _static e1 !! Z.to_nat (_staticsz e) = Some (Some (snd lit))).
      { rewrite Hst. apply list_lookup_insert_eq. exact Hlen. }
      split.
      { split; [lia|]. intros i Hi. rewrite Hdy. reflexivity. }
      split.
      { split; [|intros i Hi; lia]. intros i Hi.
        replace i with (Z.to_nat (_staticsz e)) by lia.
        exists (snd lit). split; [exact Hnew|].
        unfold static_shape. rewrite Hbelow. split; assumption. }
      split; [exact Hb'|]. split; [exact Hcnt'|]. split; [lia|].
      split; [unfold built; destruct Hb' as [_ Hbd]; lia|].
      split; [lia|]. split; [lia|].
      intros _. exists (snd lit). split; [|exact Hbelow].
      apply get_expr_node_static; [lia|exact Hnew].
Qed.

End ParseShape.

Lemma pbg_scan_closings (str : charp) (n : Z) (sc : scanned) :
  pbg_scan str n = inr sc ->
  forall (j : nat) (x : Z), sd_closings sc !! j = Some (Some x) -> j = 0%nat.
Proof.
  unfold pbg_scan. intros H.
  inv_bind H. inv_bind H. inv_bind H. inv_bind H. inv_bind H.
  injection H as <-. simpl.
  apply (for_up_invariant
           (fun s => sc_c s = 0 /\
                     forall (j : nat) y, closings s !! j = Some (Some y) -> j = 0%nat)
           _ (scan_step_closings str)) in Hx2.
  - apply Hx2.
  - simpl. split; [reflexivity|]. intros j y Hj. unfold malloc in Hj.
    apply lookup_replicate in Hj as [Hj _]. discriminate.
Qed.

Lemma pbg_parse_well_formed (str : charp) (n : Z) (e : pbg_expr) (r : int2ret) :
  pbg_parse str n = inr (e, r) ->
  well_formed e /\ bounded e /\ counted e /\ built e (nodeidx r).
Proof.
  unfold pbg_parse. intros H. inv_bind H. rename x into sc, Hx into Hsc.
  apply (pbg_parse_r_parsed _ _ _ _ (pbg_scan_closings _ _ _ Hsc)) in H.
  - destruct H as (_ & _ & [Hs Hd] & Hb & Hcnt & _ & Hbr & _).
    split; [|split; [|split]; assumption].
    split; intros i Hi; [apply Hs|apply Hd]; simpl; lia.
  - unfold bounded, malloc. simpl. rewrite !length_replicate.
    pose proof (pbg_scan_sizes _ _ _ Hsc). lia.
  - split; simpl; intros i nd Hi; unfold malloc in Hi;
      apply lookup_replicate in Hi as [Hi _]; discriminate.
  - simpl. lia.
Qed.

Lemma well_formed_node (e : pbg_expr) (c : Z) :
  well_formed e -> built e c ->
  exists nd, get_expr_node e c = inr nd /\
             if c <? 0 then key_shape nd else static_shape e c nd.
Proof.
  intros [Hs Hd] Hb. unfold built in Hb.
  destruct (Z.ltb_spec c 0) as [Hneg|Hpos].
  - destruct (Hd (Z.to_nat (- (c + 1))) ltac:(lia)) as (nd & Hnd & Hk).
    exists nd. split; [|exact Hk]. apply get_expr_node_dynamic; assumption.
  - destruct (Hs (Z.to_nat c) ltac:(lia)) as (nd & Hnd & Hk).
    exists nd. split; [apply get_expr_node_static; assumption|].
    rewrite Z2Nat.id in Hk by lia. exact Hk.
Qed.

(** In a parse that runs to its end (every field an operator or a valid
    literal, no access outside an object or to unwritten memory) every
    reference below the two counters resolves to a node that was written.
    The keys, and nothing else, are in the dynamic arena; no node has the
    kind UNKNOWN; and the payload of
    every literal has the size that [_int] announces: nothing for TRUE and
    FALSE, the 8 bytes of a double, the three fields of a date whose year
    is at most 9999 and whose month and day are at most 99, the bytes
    between the delimiters of a string or a key. *)
Theorem parse_builds_complete_literals
    (str : charp) (n : Z) (e : pbg_expr) (r : int2ret) (c : Z) :
  pbg_parse str n = inr (e, r) ->
  built e c ->
  exists nd,
    get_expr_node e c = inr nd /\
    (c < 0 <-> _type nd = PBG_LT_KEY) /\
    _type nd <> PBG_UNKNOWN /\
    (below_MAX_LT (_type nd) = true -> literal_shape nd /\ payload_readable nd).
Proof.
  intros H Hb. apply pbg_parse_well_formed in H as (Hwf & _ & _ & _).
  destruct (well_formed_node _ _ Hwf Hb) as (nd & Hnd & Hshape).
  exists nd. split; [exact Hnd|].
  assert (Hread : literal_shape nd -> payload_readable nd).
  { unfold literal_shape, payload_readable.
    destruct (_type nd); try contradiction.
    - intros [-> ->]. simpl. lia.
    - intros [-> ->]. simpl. lia.
    - intros (-> & bs & -> & Hl). simpl. unfold sizeof_double. lia.
    - intros (bs & -> & ->). simpl. lia.
    - intros (-> & y & m & d & -> & _). simpl. reflexivity.
    - intros (bs & -> & ->). simpl. lia. }
  destruct (Z.ltb_spec c 0) as [Hneg|Hpos].
  - destruct Hshape as [Hk Hl]. rewrite Hk.
    split; [tauto|]. split; [discriminate|]. intros _. auto.
  - unfold static_shape in Hshape.
    destruct (below_MAX_LT (_type nd)) eqn:Hlt.
    + destruct Hshape as [Hk Hl]. split; [split; [lia|contradiction]|].
      split; [|auto]. intros Hu. unfold literal_shape in Hl.
      rewrite Hu in Hl. exact Hl.
    + split; [|split; [|discriminate]].
      * split; [lia|]. intros Hk. rewrite Hk in Hlt. discriminate.
      * intros Hu. rewrite Hu in Hlt. discriminate.
Qed.

(** In a parse that runs to its end (every field an operator or a valid
    literal, no access outside an object or to unwritten memory) every
    operator node holds the list of its children: [_int] is the number of
    references in [_data] (NULL when there is none), each of them resolves
    to a node that was built, and a static child has a larger index than
    its parent, so the references form no cycle. *)
Theorem parsed_children_follow_their_parent
    (str : charp) (n : Z) (e : pbg_expr) (r : int2ret)
    (idx : Z) (nd : pbg_expr_node) :
  pbg_parse str n = inr (e, r) ->
  0 <= idx < _staticsz e ->
  get_expr_node e idx = inr nd ->
  below_MAX_LT (_type nd) = false ->
  _data nd = (if _int nd =? 0 then DNull else DInts (children_refs nd)) /\
  _int nd = Z.of_nat (length (children_refs nd)) /\
  forall c, c ∈ children_refs nd -> built e c /\ (0 <= c -> idx < c).
Proof.
  intros H Hidx Hnd Hop.
  apply pbg_parse_well_formed in H as (Hwf & [_ Hbd] & _ & _).
  destruct (well_formed_node e idx Hwf) as (nd' & Hnd' & Hshape).
  { unfold built. lia. }
  rewrite Hnd in Hnd'. injection Hnd' as <-.
  destruct (Z.ltb_spec idx 0); [lia|].
  unfold static_shape in Hshape. rewrite Hop in Hshape.
  destruct Hshape as (Hd & Hn & Hb & _). auto.
Qed.

(** The scan records one closing parenthesis only, so an operator that is
    not the last child of its parent cannot be parsed: in a parse that runs
    to its end every child of a node other than the last one is a literal.
    Whatever follows a nested operator in the text became a child of that
    nested operator. *)
Theorem only_the_last_child_is_an_operator
    (str : charp) (n : Z) (e : pbg_expr) (r : int2ret)
    (idx : Z) (nd : pbg_expr_node) (j : nat) (c : Z) :
  pbg_parse str n = inr (e, r) ->
  0 <= idx < _staticsz e ->
  get_expr_node e idx = inr nd ->
  children_refs nd !! j = Some c ->
  (S j < length (children_refs nd))%nat ->
  literal_at e c.
Proof.
  intros H Hidx Hnd Hj Hlast.
  apply pbg_parse_well_formed in H as (Hwf & [_ Hbd] & _ & _).
  destruct (well_formed_node e idx Hwf) as (nd' & Hnd' & Hshape).
  { unfold built. lia. }
  rewrite Hnd in Hnd'. injection Hnd' as <-.
  destruct (Z.ltb_spec idx 0); [lia|].
  unfold static_shape in Hshape.
  destruct (below_MAX_LT (_type nd)) eqn:Hlt.
  - destruct Hshape as [_ Hl]. unfold literal_shape in Hl.
    unfold children_refs in Hj.
    destruct (_type nd); try contradiction;
      repeat match goal with
             | Hx : _ /\ _ |- _ => destruct Hx
             | Hx : exists _, _ |- _ => destruct Hx
             end;
      match goal with Hd : _data nd = _ |- _ => rewrite Hd in Hj end;
      discriminate.
  - destruct Hshape as (_ & _ & _ & Hcomb). eauto.
Qed.

(** *** The walks of a parsed expression terminate *)

Lemma fueled_data_int d i : fueled (data_int d i).
Proof. unfold data_int. fueled. Qed.

Lemma fueled_data_byte d j : fueled (data_byte d j).
Proof. unfold data_byte. fueled. Qed.

Lemma fueled_data_double d : fueled (data_double d).
Proof. unfold data_double. fueled. Qed.

Lemma fueled_data_date d : fueled (data_date d).
Proof. unfold data_date. fueled. Qed.

Lemma fueled_get_expr_node e c : fueled (get_expr_node e c).
Proof. unfold get_expr_node. fueled. Qed.

#[local] Hint Resolve fueled_data_int fueled_data_byte fueled_data_double
  fueled_data_date fueled_get_expr_node : fueled.

Lemma fueled_same_bytes : forall k a b j, fueled (same_bytes k a b j).
Proof. induction k as [|k IH]; intros a b j; cbn [same_bytes]; fueled. Qed.

Lemma fueled_strncmp_loop : forall k a b j, fueled (strncmp_loop k a b j).
Proof. induction k as [|k IH]; intros a b j; cbn [strncmp_loop]; fueled. Qed.

#[local] Hint Resolve fueled_same_bytes fueled_strncmp_loop : fueled.

Lemma fueled_equal_children e d child0 :
  fueled child0 -> forall k i, fueled (equal_children e d child0 k i).
Proof.
  intros H0. induction k as [|k IH]; intros i; cbn [equal_children]; fueled.
Qed.

Lemma fueled_compare_children e d child0 cmp :
  fueled child0 -> fueled (compare_children e d child0 cmp).
Proof. intros H0. unfold compare_children. fueled. Qed.

Lemma fueled_put : forall cs buf i, fueled (put cs buf i).
Proof. induction cs as [|c cs IH]; intros buf i; cbn [put]; fueled. Qed.

Lemma fueled_put_data : forall k d j buf i, fueled (put_data k d j buf i).
Proof. induction k as [|k IH]; intros d j buf i; cbn [put_data]; fueled. Qed.

#[local] Hint Resolve fueled_put fueled_put_data : fueled.

Lemma fueled_snprintf size cs buf i : fueled (snprintf size cs buf i).
Proof. unfold snprintf. fueled. Qed.

Lemma fueled_c_string : forall buf, fueled (c_string buf).
Proof. induction buf as [|[c|] buf IH]; cbn [c_string]; fueled. Qed.

#[local] Hint Resolve fueled_snprintf fueled_c_string : fueled.

Lemma data_int_elem nd i c :
  data_int (_data nd) i = inr c -> c ∈ children_refs nd.
Proof.
  unfold data_int, children_refs, rd.
  destruct (_data nd) as [| |bs|cs|y m d]; try discriminate.
  cbn [mem pos]. destruct (_ <? _); [discriminate|].
  destruct (cs !! _) eqn:Hlk; [|discriminate]. intros [= <-].
  eapply list_elem_of_lookup_2; eauto.
Qed.

Section Walks.

Variable e : pbg_expr.

(** The static nodes are those of a well-formed arena; the dynamic arena
    may have been swapped for the resolved values, which are literals. *)
Hypothesis operators_forward :
  forall (i : nat) nd, Z.of_nat i < _staticsz e ->
    _static e !! i = Some (Some nd) -> below_MAX_LT (_type nd) = false ->
    forall c, c ∈ children_refs nd -> built e c /\ (0 <= c -> Z.of_nat i < c).
Hypothesis dynamic_literals :
  forall c nd, built e c -> c < 0 -> get_expr_node e c = inr nd ->
               below_MAX_LT (_type nd) = true.


Lemma fueled_walk_children eval d stop :
  (forall i ci nd, data_int d i = inr ci -> get_expr_node e ci = inr nd ->
                   fueled (eval nd)) ->
  forall k i seen, fueled (walk_children eval e d stop k i seen).
Proof.
  intros Hev. induction k as [|k IH]; intros i seen; cbn [walk_children].
  - fueled.
  - apply fueled_bind; [fueled|intros ci Hci].
    apply fueled_bind; [fueled|intros nd Hnd].
    apply fueled_bind; [eapply Hev; eauto|intros r _].
    destruct (_ =? _); [fueled|apply IH].
Qed.

Lemma fueled_gets_children gets node :
  (forall j cj nd buf i, data_int (_data node) j = inr cj ->
                         get_expr_node e cj = inr nd -> fueled (gets nd buf i)) ->
  forall k j buf i, fueled (gets_children gets e node k j buf i).
Proof.
  intros Hg. induction k as [|k IH]; intros j buf i; cbn [gets_children].
  - fueled.
  - apply fueled_bind; [fueled|intros cj Hcj].
    apply fueled_bind; [fueled|intros nd Hnd].
    apply fueled_bind; [eapply Hg; eauto|intros r _].
    apply fueled_bind; [fueled|intros r' _]. apply IH.
Qed.

Lemma node_behind c nd :
  get_expr_node e c = inr nd -> built e c ->
  below_MAX_LT (_type nd) = false ->
  forall c', c' ∈ children_refs nd ->
             built e c' /\ depth_below e c' + 1 <= depth_below e c.
Proof.
  intros Hnd Hb Hop.
  assert (Hc : 0 <= c).
  { destruct (Z.ltb_spec c 0) as [Hneg|]; [|lia].
    rewrite (dynamic_literals _ _ Hb Hneg Hnd) in Hop. discriminate. }
  apply get_expr_node_inr in Hnd as [[_ Hnd]|[Hneg _]]; [|lia].
  unfold built in Hb.
  intros c' Hc'.
  destruct (operators_forward (Z.to_nat c) nd ltac:(lia) Hnd Hop c' Hc')
    as [Hb' Hgt].
  split; [exact Hb'|].
  unfold depth_below, built in *.
  destruct (Z.ltb_spec c 0); [lia|].
  destruct (Z.ltb_spec c' 0); [lia|].
  specialize (Hgt ltac:(lia)). lia.
Qed.

Lemma fueled_pbg_evaluate_r :
  forall fuel c nd,
    get_expr_node e c = inr nd -> built e c ->
    depth_below e c <= Z.of_nat fuel ->
    fueled (pbg_evaluate_r fuel e nd).
Proof.
  induction fuel as [|fuel IH]; intros c nd Hnd Hc Hdepth.
  { unfold depth_below, built in *. destruct (c <? 0); lia. }
  cbn [pbg_evaluate_r].
  destruct (below_MAX_LT (_type nd)) eqn:Hop; [fueled|].
  pose proof (node_behind _ _ Hnd Hc Hop) as Hch.
  assert (Hrec : forall i ci ndi,
            data_int (_data nd) i = inr ci -> get_expr_node e ci = inr ndi ->
            fueled (pbg_evaluate_r fuel e ndi)).
  { intros i ci ndi Hci Hndi. apply data_int_elem in Hci.
    destruct (Hch ci Hci) as [Hlt Hd']. eapply IH; eauto. lia. }
  cbn [below_MAX_OP].
  apply fueled_bind; [fueled|intros c0 Hc0].
  destruct (_type nd); try discriminate.
  - apply fueled_bind; [fueled|intros nd0 Hnd0].
    apply fueled_bind; [eapply Hrec; eauto|intros r0 _]. fueled.
  - apply fueled_walk_children. exact Hrec.
  - apply fueled_walk_children. exact Hrec.
  - apply fueled_bind; [apply fueled_equal_children; fueled|intros; fueled].
  - apply fueled_bind; [apply fueled_compare_children; fueled|intros; fueled].
  - apply fueled_bind; [apply fueled_compare_children; fueled|intros; fueled].
  - fueled.
  - unfold strncmp. fueled.
  - apply fueled_bind; [apply fueled_compare_children; fueled|intros; fueled].
  - apply fueled_bind; [apply fueled_compare_children; fueled|intros; fueled].
Qed.

Lemma fueled_pbg_gets_r :
  forall fuel c nd buf i,
    get_expr_node e c = inr nd -> built e c ->
    depth_below e c <= Z.of_nat fuel ->
    fueled (pbg_gets_r fuel e nd buf i).
Proof.
  induction fuel as [|fuel IH]; intros c nd buf i Hnd Hc Hdepth.
  { unfold depth_below, built in *. destruct (c <? 0); lia. }
  cbn [pbg_gets_r].
  destruct (below_MAX_LT (_type nd)) eqn:Hop; [fueled|].
  pose proof (node_behind _ _ Hnd Hc Hop) as Hch.
  cbn [below_MAX_OP].
  apply fueled_bind; [fueled|intros r1 _].
  apply fueled_bind; [fueled|intros r2 _].
  apply fueled_bind; [fueled|intros r3 _].
  apply fueled_bind; [|intros; fueled].
  apply fueled_gets_children. intros j cj ndj b k Hcj Hndj.
  apply data_int_elem in Hcj.
  destruct (Hch cj Hcj) as [Hlt Hd']. eapply IH; eauto. lia.
Qed.

End Walks.

Lemma well_formed_forward (e : pbg_expr) :
  well_formed e ->
  forall (i : nat) nd, Z.of_nat i < _staticsz e ->
    _static e !! i = Some (Some nd) -> below_MAX_LT (_type nd) = false ->
    forall c, c ∈ children_refs nd -> built e c /\ (0 <= c -> Z.of_nat i < c).
Proof.
  intros [Hs _] i nd Hi Hnd Hop.
  destruct (Hs i Hi) as (nd' & Hnd' & Hshape).
  rewrite Hnd in Hnd'. injection Hnd' as <-.
  unfold static_shape in Hshape. rewrite Hop in Hshape.
  destruct Hshape as (_ & _ & Hb & _). exact Hb.
Qed.

Lemma resolve_key_literals e dict i s s' :
  (forall k len, below_MAX_LT (_type (dict k len)) = true) ->
  resolve_key e dict i s = inr s' ->
  (forall (j : nat) nd, fst s !! j = Some (Some nd) ->
                        below_MAX_LT (_type nd) = true) ->
  (forall (j : nat) nd, fst s' !! j = Some (Some nd) ->
                        below_MAX_LT (_type nd) = true).
Proof.
  intros Hdict H Hs j nd Hj. unfold resolve_key in H.
  inv_bind H. inv_bind H. injection H as <-. simpl in Hj.
  apply aset_inr in Hx0 as [Hr ->].
  destruct (Nat.eq_dec j (Z.to_nat i)) as [->|Hne].
  - rewrite list_lookup_insert_eq in Hj by lia. injection Hj as <-. apply Hdict.
  - rewrite list_lookup_insert_ne in Hj by lia. eauto.
Qed.

(** The walks of a parsed expression terminate.  In a parse that runs to
    its end the static children of a
    node come after it in the arena, so a walk from the root goes no deeper
    than the number of static nodes: with that much recursion, evaluation
    (against a dictionary that returns literals) and rendering run to their
    end, whether that is a value or a fault of the C code. *)
Theorem parsed_walks_terminate
    (str : charp) (n : Z) (e : pbg_expr) (r : int2ret)
    (dict : dictionary) (fuel : nat) :
  pbg_parse str n = inr (e, r) ->
  (forall k len, below_MAX_LT (_type (dict k len)) = true) ->
  (Z.to_nat (_staticsz e) < fuel)%nat ->
  fueled (pbg_evaluate fuel e dict) /\ fueled (pbg_gets fuel e).
Proof.
  intros H Hdict Hfuel.
  apply pbg_parse_well_formed in H as (Hwf & [Hbs Hbd] & [Hcs Hcd] & _).
  pose proof (well_formed_forward _ Hwf) as Hfw.
  split.
  - unfold pbg_evaluate.
    apply fueled_bind.
    { apply fueled_for_up. intros i s. unfold resolve_key. fueled. }
    intros s Hs.
    assert (Hlits : forall (j : nat) nd, fst s !! j = Some (Some nd) ->
                                         below_MAX_LT (_type nd) = true).
    { eapply (for_up_invariant
                (fun s => forall (j : nat) nd, fst s !! j = Some (Some nd) ->
                                               below_MAX_LT (_type nd) = true));
        [|exact Hs|].
      - intros i s0 s1 H1 H0. eapply resolve_key_literals; eauto.
      - simpl. intros j nd Hj. unfold malloc in Hj.
        apply lookup_replicate in Hj as [Hj _]. discriminate. }
    apply fueled_bind; [fueled|intros root Hroot].
    apply fueled_bind; [|intros; fueled].
    cbn [_static] in Hroot.
    apply (fueled_pbg_evaluate_r
             (Expr (_static e) (fst s) (_staticsz e) (_dynamicsz e))) with (c := 0).
    + exact Hfw.
    + intros c nd Hb Hneg Hnd.
      apply get_expr_node_inr in Hnd as [[Hge _]|[_ Hnd]]; [lia|].
      simpl in Hnd. eauto.
    + unfold get_expr_node. simpl. exact Hroot.
    + apply aget_inr in Hroot as [_ Hroot]. apply Hcs in Hroot.
      unfold built. simpl. lia.
    + unfold depth_below. simpl. lia.
  - unfold pbg_gets.
    apply fueled_bind; [fueled|intros root Hroot].
    apply fueled_bind; [|intros; fueled].
    apply (fueled_pbg_gets_r e) with (c := 0).
    + exact Hfw.
    + intros c nd Hb Hneg Hnd. unfold built in Hb.
      apply get_expr_node_inr in Hnd as [[Hge _]|[_ Hnd]]; [lia|].
      destruct Hwf as [_ Hd].
      destruct (Hd (Z.to_nat (- (c + 1))) ltac:(lia)) as (nd' & Hnd' & Hk & _).
      rewrite Hnd in Hnd'. injection Hnd' as <-. rewrite Hk. reflexivity.
    + unfold get_expr_node. simpl. exact Hroot.
    + apply aget_inr in Hroot as [_ Hroot]. apply Hcs in Hroot.
      unfold built. simpl in *. lia.
    + unfold depth_below. simpl. lia.
Qed.

(** *** The release of a parsed expression *)

Lemma free_static_node e (i : nat) nd :
  static_shape e (Z.of_nat i) nd ->
  exists f, free_expr_node (Z.of_nat i) nd = inr f /\
            ((_data nd = DNull /\ f = []) \/
             (_data nd <> DNull /\ f = [FreeData (Z.of_nat i)])).
Proof.
  unfold static_shape, free_expr_node.
  destruct (below_MAX_LT (_type nd)) eqn:Hlt.
  - intros [_ Hl]. unfold literal_shape in Hl.
    destruct (_type nd); try contradiction; try discriminate; simpl.
    + destruct Hl as [_ ->]. eauto.
    + destruct Hl as [_ ->]. eauto.
    + destruct Hl as (_ & bs & -> & _). simpl. eexists. split; [reflexivity|].
      right. split; [discriminate|reflexivity].
    + destruct Hl as (bs & -> & _). simpl. eexists. split; [reflexivity|].
      right. split; [discriminate|reflexivity].
    + destruct Hl as (_ & y & m & d & -> & _). simpl.
      eexists. split; [reflexivity|]. right. split; [discriminate|reflexivity].
    + destruct Hl as (bs & -> & _). simpl. eexists. split; [reflexivity|].
      right. split; [discriminate|reflexivity].
  - intros (Hd & _). rewrite Hd.
    destruct (_type nd); try discriminate; simpl;
      (destruct (_int nd =? 0); simpl;
       [eexists; split; [reflexivity|]; left; split; reflexivity
       |eexists; split; [reflexivity|]; right; split; [discriminate|reflexivity]]).
Qed.

Lemma free_static_loop e :
  well_formed e -> bounded e ->
  forall (k : nat) acc, Z.of_nat k <= _staticsz e ->
    exists tr,
      for_down k (Z.of_nat k - 1)
        (fun i acc => nd <- aget (_static e) i;;
                      f <- free_expr_node i nd;; ret (acc ++ f)) acc
      = inr (acc ++ tr) /\
      NoDup tr /\
      forall x, x ∈ tr <->
                exists c, x = FreeData c /\ 0 <= c < Z.of_nat k /\
                          holds_payload e c.
Proof.
  intros [Hs Hd] [_ Hbd]. induction k as [|k IH]; intros acc Hk.
  - exists []. split; [simpl; rewrite app_nil_r; reflexivity|].
    split; [constructor|]. intros x. split; [intros Hx; inversion Hx|].
    intros (c & _ & Hc & _). lia.
  - destruct (Hs k ltac:(lia)) as (nd & Hnd & Hshape).
    destruct (free_static_node _ _ _ Hshape) as (f & Hf & Hcase).
    cbn [for_down].
    replace (Z.of_nat (S k) - 1) with (Z.of_nat k) by lia.
    rewrite (aget_lookup _ _ _ Hnd), bind_ret_l, Hf, bind_ret_l, bind_ret_l.
    destruct (IH (acc ++ f) ltac:(lia)) as (tr & Htr & Hnd' & Hin).
    exists (f ++ tr). split; [rewrite Htr, app_assoc; reflexivity|].
    assert (Hget : get_expr_node e (Z.of_nat k) = inr nd).
    { apply get_expr_node_static; [lia|]. rewrite Nat2Z.id. exact Hnd. }
    assert (Hbk : built e (Z.of_nat k)).
    { unfold built. lia. }
    destruct Hcase as [[Hnull ->]|[Hpay ->]]; simpl.
    + split; [exact Hnd'|]. intros x. rewrite Hin. split.
      * intros (c & -> & Hc & Hp). exists c. split; [reflexivity|]. split; [lia|auto].
      * intros (c & -> & Hc & Hp). exists c. split; [reflexivity|].
        split; [|exact Hp].
        destruct (Z.eq_dec c (Z.of_nat k)) as [->|Hne]; [|lia].
        destruct Hp as (_ & nd' & Hnd'' & Hp). congruence.
    + split.
      * constructor; [|exact Hnd']. rewrite Hin.
        intros (c & [= <-] & Hc & _). lia.
      * intros x. rewrite elem_of_cons, Hin. split.
        -- intros [->|(c & -> & Hc & Hp)].
           ++ exists (Z.of_nat k). split; [reflexivity|]. split; [lia|].
              split; [exact Hbk|eauto].
           ++ exists c. split; [reflexivity|]. split; [lia|auto].
        -- intros (c & -> & Hc & Hp).
           destruct (Z.eq_dec c (Z.of_nat k)) as [->|Hne]; [left; reflexivity|].
           right. exists c. split; [reflexivity|]. split; [lia|exact Hp].
Qed.

Lemma free_dynamic_loop e :
  well_formed e -> bounded e ->
  forall (k i : nat) acc, Z.of_nat (i + k) <= _dynamicsz e ->
    exists tr,
      for_up k (Z.of_nat i)
        (fun i acc => nd <- aget (_dynamic e) i;;
                      f <- free_data (- i - 1) (_data nd);; ret (acc ++ f)) acc
      = inr (acc ++ tr) /\
      NoDup tr /\
      forall x, x ∈ tr <->
                exists c, x = FreeData c /\
                          - Z.of_nat (i + k) <= c < - Z.of_nat i /\
                          holds_payload e c.
Proof.
  intros [Hs Hd] [Hbs _]. induction k as [|k IH]; intros i acc Hk.
  - exists []. split; [simpl; rewrite app_nil_r; reflexivity|].
    split; [constructor|]. intros x. split; [intros Hx; inversion Hx|].
    intros (c & _ & Hc & _). lia.
  - destruct (Hd i ltac:(lia)) as (nd & Hnd & Hty & Hl).
    unfold literal_shape in Hl. rewrite Hty in Hl.
    destruct Hl as (bs & Hdata & _).
    cbn [for_up].
    rewrite (aget_lookup _ _ _ Hnd), bind_ret_l, Hdata. cbn [free_data].
    rewrite !bind_ret_l.
    replace (Z.of_nat i + 1) with (Z.of_nat (S i)) by lia.
    destruct (IH (S i) (acc ++ [FreeData (- Z.of_nat i - 1)]) ltac:(lia))
      as (tr & Htr & Hnd' & Hin).
    exists (FreeData (- Z.of_nat i - 1) :: tr).
    split; [rewrite Htr, <- app_assoc; reflexivity|].
    assert (Hp : holds_payload e (- Z.of_nat i - 1)).
    { split; [unfold built; lia|]. exists nd. split.
      - apply get_expr_node_dynamic; [lia|].
        replace (Z.to_nat (- (- Z.of_nat i - 1 + 1))) with i by lia. exact Hnd.
      - rewrite Hdata. discriminate. }
    split.
    + constructor; [|exact Hnd']. rewrite Hin.
      intros (c & [= <-] & Hc & _). lia.
    + intros x. rewrite elem_of_cons, Hin. split.
      * intros [->|(c & -> & Hc & Hp')].
        -- exists (- Z.of_nat i - 1). split; [reflexivity|]. split; [lia|exact Hp].
        -- exists c. split; [reflexivity|]. split; [lia|exact Hp'].
      * intros (c & -> & Hc & Hp').
        destruct (Z.eq_dec c (- Z.of_nat i - 1)) as [->|Hne]; [left; reflexivity|].
        right. exists c. split; [reflexivity|]. split; [lia|exact Hp'].
Qed.

(** [pbg_free] of a parsed expression runs to its end: it reads written
    nodes only and hands no unassigned pointer to [free].  It releases every
    payload the parser allocated, each exactly once, and the two arenas;
    the nodes TRUE and FALSE, which hold no payload, are skipped. *)
Theorem pbg_free_releases_each_payload_once
    (str : charp) (n : Z) (e : pbg_expr) (r : int2ret) :
  pbg_parse str n = inr (e, r) ->
  exists trace,
    pbg_free e = inr trace /\ NoDup trace /\
    FreeStatic ∈ trace /\ FreeDynamic ∈ trace /\
    forall c, FreeData c ∈ trace <-> holds_payload e c.
Proof.
  intros H. apply pbg_parse_well_formed in H as (Hwf & Hb & _ & _).
  pose proof Hb as [Hbs Hbd].
  destruct (free_static_loop e Hwf Hb (Z.to_nat (_staticsz e)) [] ltac:(lia))
    as (ts & Hts & Hnds & Hins).
  destruct (free_dynamic_loop e Hwf Hb (Z.to_nat (_dynamicsz e)) 0 ([] ++ ts)
              ltac:(lia)) as (td & Htd & Hndd & Hind).
  change (Z.of_nat 0) with 0 in Htd.
  exists (ts ++ td ++ [FreeStatic; FreeDynamic]).
  split.
  { unfold pbg_free.
    replace (_staticsz e - 1) with (Z.of_nat (Z.to_nat (_staticsz e)) - 1) by lia.
    rewrite Hts, bind_ret_l, Htd, bind_ret_l.
    rewrite <- app_assoc. reflexivity. }
  split.
  { apply NoDup_app. split; [exact Hnds|]. split.
    - intros x Hx Hx'. apply Hins in Hx as (c & -> & Hc & _).
      apply elem_of_app in Hx' as [Hx'|Hx'].
      + apply Hind in Hx' as (c' & [= <-] & Hc' & _). lia.
      + repeat (apply elem_of_cons in Hx' as [Hx'|Hx']; [discriminate|]).
        inversion Hx'.
    - apply NoDup_app. split; [exact Hndd|]. split.
      + intros x Hx Hx'. apply Hind in Hx as (c & -> & _).
        repeat (apply elem_of_cons in Hx' as [Hx'|Hx']; [discriminate|]).
        inversion Hx'.
      + apply NoDup_cons. split; [|apply NoDup_singleton].
        intros Hx. apply list_elem_of_singleton in Hx. discriminate. }
  split; [rewrite !elem_of_app; right; right; left|].
  split; [rewrite !elem_of_app; right; right; right; left|].
  intros c. rewrite !elem_of_app, Hins, Hind. split.
  - intros [(c' & [= <-] & _ & Hp)|[(c' & [= <-] & _ & Hp)|Hx]]; try exact Hp.
    repeat (apply elem_of_cons in Hx as [Hx|Hx]; [discriminate|]). inversion Hx.
  - intros Hp. pose proof Hp as [Hbc _]. unfold built in Hbc.
    destruct (Z.lt_ge_cases c 0).
    + right. left. exists c. split; [reflexivity|]. split; [lia|exact Hp].
    + left. exists c. split; [reflexivity|]. split; [lia|exact Hp].
Qed.

(** *** The renderer and its buffer *)

Lemma appends_ret : appends (fun buf i => ret (buf, i)) [].
Proof.
  intros buf i Hi. simpl. rewrite app_nil_r. repeat split; lia.
Qed.

Lemma appends_bind f g t1 t2 :
  appends f t1 -> appends g t2 ->
  appends (fun buf i => r <- f buf i;; g (fst r) (snd r)) (t1 ++ t2).
Proof.
  intros Hf Hg buf i Hi. specialize (Hf buf i Hi).
  rewrite length_app, Nat2Z.inj_add.
  destruct (f buf i) as [err|[buf1 i1]]; simpl in *.
  - destruct Hf as [-> Hf]. split; [reflexivity|lia].
  - destruct Hf as (-> & Hle & Hlen & Htake).
    specialize (Hg buf1 (i + Z.of_nat (length t1)) ltac:(lia)).
    destruct (g buf1 _) as [err|[buf2 i2]]; simpl in *.
    + destruct Hg as [-> Hg]. split; [reflexivity|lia].
    + destruct Hg as (-> & Hle2 & Hlen2 & Htake2).
      split; [lia|]. split; [lia|]. split; [lia|].
      replace (Z.to_nat (i + (Z.of_nat (length t1) + Z.of_nat (length t2))))
        with (Z.to_nat (i + Z.of_nat (length t1) + Z.of_nat (length t2))) by lia.
      rewrite Htake2, Htake, map_app, app_assoc. reflexivity.
Qed.

Lemma take_insert_snoc {A : Type} (l : list A) (i : nat) (x : A) :
  (i < length l)%nat -> take (S i) (<[i := x]> l) = take i l ++ [x].
Proof.
  intros Hi. rewrite (take_S_r _ _ x) by (apply list_lookup_insert_eq; exact Hi).
  rewrite take_insert_ge by lia. reflexivity.
Qed.

Lemma put_spec cs :
  forall buf i, 0 <= i <= Z.of_nat (length buf) ->
    match put cs buf i with
    | inr r =>
        snd r = i + Z.of_nat (length cs) /\
        snd r <= Z.of_nat (length buf) /\
        length (fst r) = length buf /\
        take (Z.to_nat (snd r)) (fst r) = take (Z.to_nat i) buf ++ map Some cs
    | inl err =>
        err = OutOfBounds /\ Z.of_nat (length buf) < i + Z.of_nat (length cs)
    end.
Proof.
  induction cs as [|c cs IH]; intros buf i Hi.
  { simpl. rewrite app_nil_r. repeat split; lia. }
  cbn [put].
  unfold aset. destruct (Z.ltb_spec i 0); [lia|].
  destruct (Z.leb_spec (Z.of_nat (length buf)) i) as [Hfull|Hroom]; simpl.
  { split; [reflexivity|lia]. }
  specialize (IH (<[Z.to_nat i := Some c]> buf) (i + 1)).
  rewrite length_insert in IH. specialize (IH ltac:(lia)).
  destruct (put cs _ _) as [err|[buf' i']]; simpl in *.
  - destruct IH as [-> IH]. split; [reflexivity|lia].
  - destruct IH as (-> & Hle & Hlen & Htake).
    split; [lia|]. split; [lia|]. split; [lia|].
    replace (Z.to_nat (i + Z.pos (Pos.of_succ_nat (length cs))))
      with (Z.to_nat (i + 1 + Z.of_nat (length cs))) by lia.
    rewrite Htake. replace (Z.to_nat (i + 1)) with (S (Z.to_nat i)) by lia.
    rewrite take_insert_snoc by lia. rewrite <- app_assoc. reflexivity.
Qed.

Lemma appends_put cs : appends (put cs) cs.
Proof.
  intros buf i Hi. pose proof (put_spec cs buf i Hi) as H.
  destruct (put cs buf i) as [err|r]; [|exact H].
  destruct H as [-> H]. split; [reflexivity|lia].
Qed.

Lemma appends_snprintf size cs :
  match size with Some sz => Z.of_nat (length cs) <= sz - 1 | None => True end ->
  appends (snprintf size cs) cs.
Proof.
  intros Hfit buf i Hi. unfold snprintf.
  assert (Hshown : match size with
                   | Some sz => take (Z.to_nat (sz - 1)) cs
                   | None => cs
                   end = cs).
  { destruct size as [sz|]; [|reflexivity]. apply take_ge. lia. }
  rewrite Hshown.
  pose proof (put_spec (cs ++ [0]) buf i Hi) as H.
  rewrite length_app in H. simpl in H.
  destruct (put (cs ++ [0]) buf i) as [err|[buf' i']]; simpl in *.
  - destruct H as [-> H]. split; [reflexivity|lia].
  - destruct H as (-> & Hle & Hlen & Htake).
    split; [reflexivity|]. split; [lia|]. split; [exact Hlen|].
    apply (f_equal (take (Z.to_nat (i + Z.of_nat (length cs))))) in Htake.
    rewrite take_take in Htake.
    rewrite Nat.min_l in Htake by lia.
    rewrite Htake, map_app, app_assoc.
    rewrite take_app_le.
    2:{ rewrite length_app, length_take, length_map. lia. }
    apply take_ge. rewrite length_app, length_take, length_map. lia.
Qed.

Lemma appends_put_data :
  forall k d j bs,
    read_data k d j = inr bs -> appends (put_data k d j) bs.
Proof.
  induction k as [|k IH]; intros d j bs H; cbn [read_data] in H.
  { injection H as <-. apply appends_ret. }
  inv_bind H. inv_bind H. injection H as <-.
  specialize (IH _ _ _ Hx0).
  intros buf i Hi. cbn [put_data]. rewrite Hx, bind_ret_l.
  pose proof (appends_bind (put [x]) (put_data k d (j + 1)) [x] x0
                (appends_put [x]) IH buf i Hi) as H.
  cbn [put] in H.
  destruct (aset buf i x) as [err|b]; simpl in *; exact H.
Qed.

Lemma all_from_spec (p : Z -> bool) :
  forall k y0 y,
    all_from k y0 p = true -> y0 <= y < y0 + Z.of_nat k -> p y = true.
Proof.
  induction k as [|k IH]; intros y0 y H Hy; [lia|].
  cbn [all_from] in H. apply andb_true_iff in H as [H0 H].
  destruct (Z.eq_dec y y0) as [->|Hne]; [exact H0|].
  apply (IH (y0 + 1)); [exact H|lia].
Qed.

Lemma same_digits_eq l ds : same_digits l ds = true -> l = ds.
Proof.
  revert ds. induction l as [|a l IH]; intros [|d ds] H; try discriminate.
  - reflexivity.
  - cbn [same_digits] in H. apply andb_true_iff in H as [Ha H].
    apply Z.eqb_eq in Ha. subst. f_equal. apply IH, H.
Qed.

Lemma fmt_0d_4 y :
  0 <= y <= 9999 ->
  fmt_0d 4 y
  = [48 + y / 1000; 48 + y / 100 mod 10; 48 + y / 10 mod 10; 48 + y mod 10].
Proof.
  intros Hy.
  assert (H : all_from (Z.to_nat 10000) 0
                (fun k => same_digits (fmt_0d 4 k)
                            [48 + k / 1000; 48 + k / 100 mod 10;
                             48 + k / 10 mod 10; 48 + k mod 10]) = true)
    by (vm_compute; reflexivity).
  pose proof (all_from_spec _ _ _ y H ltac:(lia)) as Hk.
  cbv beta in Hk. apply same_digits_eq, Hk.
Qed.

Lemma fmt_0d_2 m :
  0 <= m <= 99 -> fmt_0d 2 m = [48 + m / 10; 48 + m mod 10].
Proof.
  intros Hm.
  assert (H : all_from (Z.to_nat 100) 0
                (fun k => same_digits (fmt_0d 2 k) [48 + k / 10; 48 + k mod 10])
              = true)
    by (vm_compute; reflexivity).
  pose proof (all_from_spec _ _ _ m H ltac:(lia)) as Hk.
  cbv beta in Hk. apply same_digits_eq, Hk.
Qed.

Lemma appends_ext f g t :
  (forall buf i, f buf i = g buf i) -> appends f t -> appends g t.
Proof. intros Heq Hf buf i Hi. rewrite <- Heq. apply Hf, Hi. Qed.

Section GetsAppends.

Variable e : pbg_expr.
Hypothesis dates_fit : forall c nd, get_expr_node e c = inr nd -> date_fits nd.

Section Children.

Variable fuel : nat.
Variable node : pbg_expr_node.
Hypothesis child_appends :
  forall c nd text, get_expr_node e c = inr nd ->
    rendering fuel e nd = inr text -> appends (pbg_gets_r fuel e nd) text.

Lemma gets_children_appends :
  forall k j text,
    children_text (rendering fuel e) e node k j = inr text ->
    appends (gets_children (pbg_gets_r fuel e) e node k j) text.
Proof.
  induction k as [|k IH]; intros j text H; cbn [children_text] in H.
  { injection H as <-. apply appends_ret. }
  apply bind_inr in H as (cj & Hcj & H).
  apply bind_inr in H as (child & Hchild & H).
  apply bind_inr in H as (t & Ht & H).
  apply bind_inr in H as (rest & Hrest & H). injection H as <-.
  pose proof (child_appends _ _ _ Hchild Ht) as H1.
  assert (H2 : appends (if negb (j =? _int node - 1)
                        then put (bytes_of ",")
                        else fun buf i => ret (buf, i))
                       (if negb (j =? _int node - 1) then bytes_of "," else [])).
  { destruct (negb _); [apply appends_put|apply appends_ret]. }
  pose proof (appends_bind _ _ _ _ H2 (IH _ _ Hrest)) as H3.
  pose proof (appends_bind _ _ _ _ H1 H3) as H4.
  eapply appends_ext; [|exact H4].
  intros buf i. cbn [gets_children]. rewrite Hcj, bind_ret_l, Hchild, bind_ret_l.
  destruct (pbg_gets_r fuel e child buf i) as [err|[b k']]; [reflexivity|].
  simpl. destruct (negb _); reflexivity.
Qed.

End Children.

Lemma pbg_gets_r_appends :
  forall fuel c nd text,
    get_expr_node e c = inr nd ->
    rendering fuel e nd = inr text ->
    appends (pbg_gets_r fuel e nd) text.
Proof.
  induction fuel as [|fuel IH]; intros c nd text Hnd H; [discriminate|].
  pose proof (dates_fit _ _ Hnd) as Hfit.
  cbn [rendering] in H.
  destruct (below_MAX_LT (_type nd)) eqn:Hlt.
  - destruct (_type nd) eqn:Hty; try discriminate.
    + injection H as <-. eapply appends_ext; [|exact appends_ret].
      intros buf i. cbn [pbg_gets_r]. rewrite Hty. reflexivity.
    + injection H as <-. eapply appends_ext; [|exact (appends_put (bytes_of "TRUE"))].
      intros buf i. cbn [pbg_gets_r]. rewrite Hty. reflexivity.
    + injection H as <-. eapply appends_ext; [|exact (appends_put (bytes_of "FALSE"))].
      intros buf i. cbn [pbg_gets_r]. rewrite Hty. reflexivity.
    + apply bind_inr in H as (x & Hx & H). injection H as <-.
      eapply appends_ext; [|exact (appends_snprintf None _ I)].
      intros buf i. cbn [pbg_gets_r]. rewrite Hty. cbn [below_MAX_LT]. rewrite Hx. reflexivity.
    + apply bind_inr in H as (bs & Hbs & H). injection H as <-.
      eapply appends_ext.
      2:{ exact (appends_bind _ _ _ _ (appends_put (bytes_of "'"))
                   (appends_bind _ _ _ _ (appends_put_data _ _ _ _ Hbs)
                      (appends_put (bytes_of "'")))). }
      intros buf i. cbn [pbg_gets_r]. rewrite Hty. reflexivity.
    + apply bind_inr in H as ([[y m] d] & Hdt & H). injection H as <-.
      destruct (Hfit Hty) as (y' & m' & d' & Hd & Hy & Hm & Hdd).
      rewrite Hd in Hdt. injection Hdt as -> -> ->. cbn [fst snd].
      eapply appends_ext.
      2:{ assert (H4 : Z.of_nat (length (fmt_0d 4 y)) <= 5 - 1)
            by (rewrite fmt_0d_4 by lia; simpl; lia).
          assert (H2m : Z.of_nat (length (fmt_0d 2 m)) <= 3 - 1)
            by (rewrite fmt_0d_2 by lia; simpl; lia).
          assert (H2d : Z.of_nat (length (fmt_0d 2 d)) <= 3 - 1)
            by (rewrite fmt_0d_2 by lia; simpl; lia).
          exact (appends_bind _ _ _ _ (appends_snprintf (Some 5) _ H4)
                   (appends_bind _ _ _ _ (appends_put (bytes_of "-"))
                      (appends_bind _ _ _ _ (appends_snprintf (Some 3) _ H2m)
                         (appends_bind _ _ _ _ (appends_put (bytes_of "-"))
                            (appends_snprintf (Some 3) _ H2d))))). }
      intros buf i. cbn [pbg_gets_r]. rewrite Hty. cbn [below_MAX_LT]. rewrite Hd. reflexivity.
    + apply bind_inr in H as (bs & Hbs & H). injection H as <-.
      eapply appends_ext.
      2:{ exact (appends_bind _ _ _ _ (appends_put (bytes_of "["))
                   (appends_bind _ _ _ _ (appends_put_data _ _ _ _ Hbs)
                      (appends_put (bytes_of "]")))). }
      intros buf i. cbn [pbg_gets_r]. rewrite Hty. reflexivity.
  - apply bind_inr in H as (cs & Hcs & H). injection H as <-.
    eapply appends_ext.
    2:{ exact (appends_bind _ _ _ _ (appends_put (bytes_of "("))
                 (appends_bind _ _ _ _
                    (appends_put (bytes_of (operator_symbol (_type nd))))
                    (appends_bind _ _ _ _ (appends_put (bytes_of ","))
                       (appends_bind _ _ _ _
                          (gets_children_appends fuel nd IH _ _ _ Hcs)
                          (appends_put (bytes_of ")")))))). }
    intros buf i. cbn [pbg_gets_r]. rewrite Hlt. reflexivity.
Qed.

End GetsAppends.

Lemma c_string_until_nul (text : list Z) (rest : list (option Z)) :
  c_string (map Some text ++ Some 0 :: rest) = inr (until_nul text).
Proof.
  induction text as [|c text IH]; [reflexivity|].
  simpl. destruct (c =? 0); [reflexivity|]. rewrite IH. reflexivity.
Qed.

Lemma well_formed_dates_fit e :
  well_formed e -> counted e ->
  forall c nd, get_expr_node e c = inr nd -> date_fits nd.
Proof.
  intros [Hs Hd] [Hcs Hcd] c nd Hnd Hty.
  apply get_expr_node_inr in Hnd as [[Hc Hnd]|[Hc Hnd]].
  - pose proof (Hcs _ _ Hnd) as Hlt.
    destruct (Hs (Z.to_nat c) Hlt) as (nd' & Hnd' & Hshape).
    rewrite Hnd in Hnd'. injection Hnd' as <-.
    unfold static_shape in Hshape. rewrite Hty in Hshape. simpl in Hshape.
    destruct Hshape as [_ Hl]. unfold literal_shape in Hl. rewrite Hty in Hl.
    apply Hl.
  - pose proof (Hcd _ _ Hnd) as Hlt.
    destruct (Hd (Z.to_nat (- (c + 1))) Hlt) as (nd' & Hnd' & Hk & _).
    rewrite Hnd in Hnd'. injection Hnd' as <-. congruence.
Qed.

(** [pbg_gets] writes the text of a parsed expression (one whose parse
    ran to its end) into its buffer of 1000 bytes: a text of at most 999 bytes is returned, up to its first NUL
    byte if it holds one, and a longer text is written past the end of the
    buffer. *)
Theorem pbg_gets_holds_999_bytes
    (str : charp) (n : Z) (e : pbg_expr) (r : int2ret)
    (fuel : nat) (text : list Z) :
  pbg_parse str n = inr (e, r) ->
  expression_text fuel e = inr text ->
  (Z.of_nat (length text) <= 999 -> pbg_gets fuel e = inr (until_nul text)) /\
  (1000 <= Z.of_nat (length text) -> pbg_gets fuel e = inl OutOfBounds).
Proof.
  intros H Ht. apply pbg_parse_well_formed in H as (Hwf & _ & Hcnt & _).
  unfold expression_text in Ht. apply bind_inr in Ht as (root & Hroot & Ht).
  pose proof (pbg_gets_r_appends e (well_formed_dates_fit e Hwf Hcnt)
                fuel 0 root text Hroot Ht (malloc 1000) 0) as Happ.
  unfold pbg_gets. rewrite Hroot, bind_ret_l.
  unfold malloc in *. rewrite length_replicate in Happ.
  specialize (Happ ltac:(lia)).
  destruct (pbg_gets_r fuel e root (replicate (Z.to_nat 1000) None) 0)
    as [err|[buf i]]; simpl in *.
  - destruct Happ as [-> Happ]. split; [lia|reflexivity].
  - destruct Happ as (Hi & Hle & Hlen & Htake).
    rewrite Z.add_0_l in Hi. subst i.
    unfold aset. destruct (Z.ltb_spec (Z.of_nat (length text)) 0); [lia|].
    rewrite Hlen.
    destruct (Z.leb_spec (Z.of_nat (Z.to_nat 1000)) (Z.of_nat (length text)))
      as [Hfull|Hroom]; simpl.
    + split; [lia|reflexivity].
    + split; [|lia]. intros _. rewrite Nat2Z.id.
      rewrite Nat2Z.id in Htake.
      rewrite <- (take_drop (length text) buf) at 1.
      rewrite Htake.
      rewrite insert_app_r_alt by (rewrite length_map; lia).
      rewrite length_map, Nat.sub_diag.
      destruct (drop (length text) buf) as [|x rest] eqn:Hdrop.
      { apply (f_equal length) in Hdrop. rewrite length_drop in Hdrop.
        simpl in Hdrop. lia. }
      simpl. apply c_string_until_nul.
Qed.

(** *** Tokens *)

Lemma range_bytes_1 str c : rd str 0 = inr c -> range_bytes 1 str 0 = inr [c].
Proof. intros H. cbn [range_bytes]. rewrite H. reflexivity. Qed.

Lemma range_bytes_2 str c d :
  rd str 0 = inr c -> rd str 1 = inr d -> range_bytes 2 str 0 = inr [c; d].
Proof.
  intros H0 H1. cbn [range_bytes]. rewrite H0, bind_ret_l.
  change (0 + 1) with 1. rewrite H1. reflexivity.
Qed.

(** The symbols that [pbg_gets_r] writes for the operators are exactly the
    fields that [pbg_toop] recognizes: a range that [pbg_toop] takes for an
    operator holds the symbol of that operator and nothing else, and the
    symbol of an operator is read back as that operator. *)
Theorem toop_reads_the_symbols_of_the_renderer
    (str : charp) (n : Z) (t : pbg_node_type) :
  pbg_toop str n = inr t -> t <> PBG_UNKNOWN ->
  t ∈ operators /\
  pbg_toop (cstr (operator_symbol t))
    (Z.of_nat (String.length (operator_symbol t))) = inr t /\
  range_bytes (Z.to_nat n) str 0 = inr (bytes_of (operator_symbol t)).
Proof.
  unfold pbg_toop. intros H Hne.
  destruct (Z.eqb_spec n 1) as [->|Hn1].
  - inv_bind H.
    repeat match type of H with
           | (if ?x =? ?c then _ else _) = _ =>
               destruct (Z.eqb_spec x c) as [->|]
           end;
      injection H as <-; try congruence;
      (split; [unfold operators; repeat constructor|]);
      (split; [reflexivity|apply range_bytes_1, Hx]).
  - destruct (Z.eqb_spec n 2) as [->|Hn2]; [|injection H as <-; congruence].
    assert (Hpair : forall a b, is_ch str 0 a &&& is_ch str 1 b = inr true ->
                      range_bytes 2 str 0 = inr [chr a; chr b]).
    { intros a b Hab. apply and_then_true in Hab as [Ha Hb].
      unfold is_ch in Ha, Hb. inv_bind Ha. inv_bind Hb.
      injection Ha as Ha. injection Hb as Hb.
      apply Z.eqb_eq in Ha, Hb. subst. apply range_bytes_2; assumption. }
    inv_bind H. destruct x.
    { injection H as <-. split; [unfold operators; repeat constructor|].
      split; [reflexivity|]. apply (Hpair "!"%char "="%char), Hx. }
    inv_bind H. destruct x.
    { injection H as <-. split; [unfold operators; repeat constructor|].
      split; [reflexivity|]. apply (Hpair "<"%char "="%char), Hx0. }
    inv_bind H. destruct x.
    { injection H as <-. split; [unfold operators; repeat constructor|].
      split; [reflexivity|]. apply (Hpair ">"%char "="%char), Hx1. }
    injection H as <-. congruence.
Qed.

(** *** Negation twice *)

(** NOT over NOT gives back the value of the inner child: every
    evaluation returns 0 or 1, so that negating twice changes nothing; the
    walk visits both NOT nodes' children. *)
Theorem not_not_is_the_child
    (fuel : nat) (e : pbg_expr) (outer inner : pbg_expr_node)
    (c0 c1 : Z) (rest0 rest1 : list Z) (v : Z) (visited : list Z) :
  _type outer = PBG_OP_NOT -> _data outer = DInts (c0 :: rest0) ->
  get_expr_node e c0 = inr inner ->
  _type inner = PBG_OP_NOT -> _data inner = DInts (c1 :: rest1) ->
  child_result fuel e c1 = inr (v, visited) ->
  pbg_evaluate_r (S (S fuel)) e outer = inr (v, c0 :: c1 :: visited).
Proof.
  intros Hto Hdo Hin Hti Hdi Hc.
  pose proof (child_result_bool _ _ _ _ _ Hc) as Hv.
  unfold child_result in Hc. inv_bind Hc.
  assert (Hinner : pbg_evaluate_r (S fuel) e inner
                   = inr (Z.b2z (v =? 0), c1 :: visited)).
  { cbn [pbg_evaluate_r]. rewrite Hti, Hdi. simpl.
    rewrite Hx. simpl. rewrite Hc. reflexivity. }
  remember (S fuel) as f1 eqn:Hf1. cbn [pbg_evaluate_r]. rewrite Hto, Hdo.
  simpl. rewrite Hin. simpl. rewrite Hinner. simpl.
  destruct Hv as [->| ->]; reflexivity.
Qed.

(** *** A sign in front of anything is a number *)

(** [pbg_isnumber] asks for no digit after a sign: a range that starts
    with a sign followed by a byte that is no digit, no dot and no exponent
    mark is taken for a number, whatever its length and whatever else it
    holds. *)
Theorem isnumber_accepts_a_sign_before_anything
    (str : charp) (n s c : Z) :
  rd str 0 = inr s -> s = chr "-" \/ s = chr "+" ->
  rd str 1 = inr c ->
  is_a_digit c = false -> c <> chr "." -> c <> chr "e" -> c <> chr "E" ->
  pbg_isnumber str n = inr true.
Proof.
  intros Hs Hsign Hc Hdig Hdot He HE.
  assert (H0 : (c =? chr "0") = false).
  { destruct (Z.eqb_spec c (chr "0")) as [->|]; [discriminate Hdig|reflexivity]. }
  assert (Hsg : (s =? chr "-") || (s =? chr "+") = true)
    by (destruct Hsign as [-> | ->]; reflexivity).
  apply Z.eqb_neq in Hdot, He, HE.
  unfold pbg_isnumber, isnumber_sign, isnumber_int, isnumber_frac,
    isnumber_exp, is_ch, or_else, and_then.
  repeat (rewrite ?Hs, ?Hc, ?Hsg, ?Hdig, ?H0, ?Hdot, ?He, ?HE;
          cbn [bind ret negb andb orb]).
  reflexivity.
Qed.

(** *** Literals are rendered as they were written *)




Lemma range_bytes_lookup :
  forall k str j bs, range_bytes k str j = inr bs ->
    forall (i : nat) c, bs !! i = Some c -> rd str (j + Z.of_nat i) = inr c.
Proof.
  induction k as [|k IH]; intros str j bs H i c Hi; cbn [range_bytes] in H.
  - injection H as <-. discriminate.
  - inv_bind H. inv_bind H. injection H as <-.
    destruct i as [|i]; simpl in Hi.
    + injection Hi as <-. rewrite Z.add_0_r. exact Hx.
    + replace (j + Z.of_nat (S i)) with (j + 1 + Z.of_nat i) by lia. eauto.
Qed.










(** *** The theorems at concrete expressions *)

Lemma C1_witness :
  exists v visited,
    pbg_evaluate_r 2 and_arena (Node PBG_OP_AND 3 (DInts [1; 2; 3]))
    = inr (v, visited) /\
    (PBG_OP_AND = PBG_OP_AND ->
     (v = 1 <-> forall c, c ∈ [1; 2; 3] -> child_value 1 and_arena c 1)) /\
    (PBG_OP_AND = PBG_OP_OR ->
     (v = 1 <-> exists c, c ∈ [1; 2; 3] /\ child_value 1 and_arena c 1)) /\
    walked 1 and_arena 0 [1; 2; 3] visited.
Proof.
  apply (C1_and_or_short_circuit 1 and_arena
           (Node PBG_OP_AND 3 (DInts [1; 2; 3])) [1; 2; 3]).
  - left; reflexivity.
  - reflexivity.
  - reflexivity.
  - discriminate.
  - simpl. eexists. split; [vm_compute; reflexivity|]. right.
    eexists. split; [vm_compute; reflexivity|]. left. reflexivity.
Defined.

Lemma C2_witness :
  exists v,
    pbg_evaluate_r 1 eq_arena (Node PBG_OP_EQ 3 (DInts [1; 2; 3]))
    = inr (v, []) /\
    (v = 0 \/ v = 1) /\
    (v = 1 <->
     forall c, c ∈ [2; 3] ->
       exists nd, get_expr_node eq_arena c = inr nd /\
                  _type nd = PBG_LT_STRING /\ _int nd = 2 /\
                  payload nd = bytes_of "ab").
Proof.
  apply (C2_eq_compares_kind_length_and_bytes 0 eq_arena
           (Node PBG_OP_EQ 3 (DInts [1; 2; 3]))
           (Node PBG_LT_STRING 2 (DBytes (bytes_of "ab"))) 1 [2; 3]).
  - reflexivity.
  - reflexivity.
  - reflexivity.
  - reflexivity.
  - intros c Hc.
    repeat (apply elem_of_cons in Hc as [->|Hc];
            [eexists; split; [vm_compute; reflexivity|];
             unfold payload_readable; simpl; lia|]).
    inversion Hc.
Defined.

Lemma root_is_static_0_unless_key_witness :
  exists sc t nd,
    pbg_scan (cstr "(&,TRUE,FALSE)") 14 = inr sc /\
    first_field_kind (cstr "(&,TRUE,FALSE)") sc = inr t /\
    get_expr_node
      (Expr [Some (Node PBG_OP_AND 2 (DInts [1; 2]));
             Some (Node PBG_LT_TRUE 0 DNull);
             Some (Node PBG_LT_FALSE 0 DNull)] [] 3 0)
      (nodeidx (Int2Ret (Int2Arg 3 1) 0)) = inr nd /\
    _type nd = t /\
    (t <> PBG_LT_KEY -> nodeidx (Int2Ret (Int2Arg 3 1) 0) = 0) /\
    (t = PBG_LT_KEY -> nodeidx (Int2Ret (Int2Arg 3 1) 0) = -1).
Proof.
  apply (root_is_static_0_unless_key (cstr "(&,TRUE,FALSE)") 14).
  vm_compute. reflexivity.
Defined.

Lemma C6_witness :
  pbg_evaluate 2 key_arena no_dict
  = (root <- aget (_static key_arena) 0;;
     r <- pbg_evaluate_r 2
            (Expr (_static key_arena)
                  (resolved no_dict [Node PBG_LT_KEY 1 (DBytes (bytes_of "k"))])
                  (_staticsz key_arena) (_dynamicsz key_arena))
            root;;
     ret (fst r,
          dict_calls [Node PBG_LT_KEY 1 (DBytes (bytes_of "k"))]
          ++ map EvVisit (0 :: snd r))) /\
  pbg_evaluate 2 key_arena no_dict
  = inr (0, [EvDict 0 (bytes_of "k") 1; EvVisit 0; EvVisit 1]).
Proof.
  split; [|vm_compute; reflexivity].
  apply (C6_dictionary_called_once_per_key 2 key_arena no_dict
           [Node PBG_LT_KEY 1 (DBytes (bytes_of "k"))]).
  - reflexivity.
  - intros i k Hk. destruct i as [|i]; [|destruct i; discriminate].
    injection Hk as <-. reflexivity.
Defined.

Lemma C7_witness :
  pbg_evaluate_r 1 date_arena (Node PBG_OP_LT 2 (DInts [1; 2]))
  = inr (Z.b2z (Double.lt (operand (Node PBG_LT_DATE 12 (DDate 2020 1 2)))
                          (operand (Node PBG_LT_DATE 12 (DDate 2020 1 3)))),
         []).
Proof.
  apply (C7_comparison_ignores_operand_kinds 0 date_arena
           (Node PBG_OP_LT 2 (DInts [1; 2]))
           (Node PBG_LT_DATE 12 (DDate 2020 1 2))
           (Node PBG_LT_DATE 12 (DDate 2020 1 3)) 1 2 [] Double.lt).
  - reflexivity.
  - reflexivity.
  - reflexivity.
  - reflexivity.
  - simpl. lia.
  - simpl. lia.
Defined.

Lemma evaluation_returns_a_boolean_witness :
  pbg_evaluate_r 2 and_arena (Node PBG_OP_AND 3 (DInts [1; 2; 3]))
  = inr (0, [1; 2]) /\ (0 = 0 \/ 0 = 1).
Proof.
  split; [vm_compute; reflexivity|].
  apply (evaluation_returns_a_boolean 2 and_arena
           (Node PBG_OP_AND 3 (DInts [1; 2; 3])) 0 [1; 2]).
  vm_compute. reflexivity.
Defined.

Lemma literal_truth_value_witness :
  pbg_evaluate_r 1 and_arena (Node PBG_LT_NUMBER 8 (DBytes (Double.to_bytes 0)))
  = inr (0, []).
Proof.
  apply (literal_truth_value 0 and_arena
           (Node PBG_LT_NUMBER 8 (DBytes (Double.to_bytes 0)))).
  reflexivity.
Defined.

Lemma not_negates_its_child_witness :
  pbg_evaluate_r 2 and_arena (Node PBG_OP_NOT 1 (DInts [2]))
  = inr (1, [2]).
Proof.
  apply (not_negates_its_child 1 and_arena (Node PBG_OP_NOT 1 (DInts [2]))
           2 [] 0 []).
  - reflexivity.
  - reflexivity.
  - vm_compute. reflexivity.
Defined.

Lemma exst_tests_for_unknown_witness :
  pbg_evaluate_r 1
    (Expr (_static key_arena) (resolved no_dict [Node PBG_LT_KEY 1 (DBytes (bytes_of "k"))]) 2 1)
    (Node PBG_OP_EXST 1 (DInts [-1]))
  = inr (0, []).
Proof.
  apply (exst_tests_for_unknown 0
           (Expr (_static key_arena)
                 (resolved no_dict [Node PBG_LT_KEY 1 (DBytes (bytes_of "k"))]) 2 1)
           (Node PBG_OP_EXST 1 (DInts [-1]))
           (Node PBG_UNKNOWN 0 DNull) (-1) []).
  - reflexivity.
  - reflexivity.
  - vm_compute. reflexivity.
Defined.

Lemma neq_negates_eq_without_zero_bytes_witness :
  exists v,
    (v = 0 \/ v = 1) /\
    pbg_evaluate_r 1 eq_arena (Node PBG_OP_EQ 2 (DInts [1; 3])) = inr (v, []) /\
    pbg_evaluate_r 1 eq_arena (Node PBG_OP_NEQ 2 (DInts [1; 3]))
    = inr (1 - v, []).
Proof.
  apply (neq_negates_eq_without_zero_bytes 0 eq_arena
           (Node PBG_OP_NEQ 2 (DInts [1; 3])) (Node PBG_OP_EQ 2 (DInts [1; 3]))
           (Node PBG_LT_STRING 2 (DBytes (bytes_of "ab")))
           (Node PBG_LT_STRING 2 (DBytes (bytes_of "ac"))) 1 3).
  - reflexivity.
  - reflexivity.
  - reflexivity.
  - reflexivity.
  - reflexivity.
  - reflexivity.
  - reflexivity.
  - unfold payload_readable. simpl. lia.
  - unfold payload_readable. simpl. lia.
  - simpl. lia.
  - vm_compute. intros H. repeat (apply elem_of_cons in H as [H|H]; [discriminate|]).
    inversion H.
Defined.

Lemma scan_writes_only_the_first_closing_witness :
  exists sc,
    pbg_scan (cstr "(&,(!,TRUE),FALSE)") 18 = inr sc /\
    sd_closings sc = [Some 17; None] /\
    (forall (j : nat) (x : Z), sd_closings sc !! j = Some (Some x) -> j = 0%nat).
Proof.
  eexists. split; [vm_compute; reflexivity|].
  split; [reflexivity|].
  apply (scan_writes_only_the_first_closing (cstr "(&,(!,TRUE),FALSE)") 18).
  vm_compute. reflexivity.
Defined.

Lemma isstring_iskey_test_the_two_end_bytes_witness :
  pbg_isstring (cstr "'ab'") 4 = inr ((chr "'" =? chr "'") && (chr "'" =? chr "'")) /\
  pbg_iskey (cstr "'ab'") 4 = inr ((chr "'" =? chr "[") && (chr "'" =? chr "]")).
Proof.
  apply (isstring_iskey_test_the_two_end_bytes (cstr "'ab'") 4 (chr "'") (chr "'"));
    reflexivity.
Defined.

Lemma isnumber_reads_up_to_the_delimiter_witness :
  pbg_isnumber (cstr "12.5,FALSE)") 4 = pbg_isnumber (cstr "12.5,[k])") 4.
Proof.
  apply (isnumber_reads_up_to_the_delimiter
           (cstr "12.5,[k])") (cstr "12.5,FALSE)") 4).
  - lia.
  - intros i Hi.
    assert (i = 0 \/ i = 1 \/ i = 2 \/ i = 3 \/ i = 4) as H by lia.
    destruct H as [->|[->|[->|[->| ->]]]]; eexists; reflexivity.
  - intros i Hi.
    assert (i = 0 \/ i = 1 \/ i = 2 \/ i = 3 \/ i = 4) as H by lia.
    destruct H as [->|[->|[->|[->| ->]]]]; reflexivity.
  - left. reflexivity.
Defined.

Lemma parse_builds_complete_literals_witness :
  exists nd,
    get_expr_node key_arena (-1) = inr nd /\
    (-1 < 0 <-> _type nd = PBG_LT_KEY) /\
    _type nd <> PBG_UNKNOWN /\
    (below_MAX_LT (_type nd) = true -> literal_shape nd /\ payload_readable nd).
Proof.
  apply (parse_builds_complete_literals (cstr "(&,FALSE,[k])") 13 key_arena
           (Int2Ret (Int2Arg 3 1) 0)).
  - vm_compute. reflexivity.
  - unfold built. simpl. lia.
Defined.

Lemma parsed_children_follow_their_parent_witness :
  _data (Node PBG_OP_AND 2 (DInts [1; -1]))
  = (if _int (Node PBG_OP_AND 2 (DInts [1; -1])) =? 0 then DNull
     else DInts (children_refs (Node PBG_OP_AND 2 (DInts [1; -1])))) /\
  _int (Node PBG_OP_AND 2 (DInts [1; -1]))
  = Z.of_nat (length (children_refs (Node PBG_OP_AND 2 (DInts [1; -1])))) /\
  forall c, c ∈ children_refs (Node PBG_OP_AND 2 (DInts [1; -1])) ->
            built key_arena c /\ (0 <= c -> 0 < c).
Proof.
  apply (parsed_children_follow_their_parent (cstr "(&,FALSE,[k])") 13
           key_arena (Int2Ret (Int2Arg 3 1) 0)).
  - vm_compute. reflexivity.
  - simpl. lia.
  - reflexivity.
  - reflexivity.
Defined.

Lemma only_the_last_child_is_an_operator_witness : literal_at key_arena 1.
Proof.
  apply (only_the_last_child_is_an_operator (cstr "(&,FALSE,[k])") 13
           key_arena (Int2Ret (Int2Arg 3 1) 0) 0
           (Node PBG_OP_AND 2 (DInts [1; -1])) 0%nat 1).
  - vm_compute. reflexivity.
  - simpl. lia.
  - reflexivity.
  - reflexivity.
  - simpl. lia.
Defined.

Lemma parsed_walks_terminate_witness :
  fueled (pbg_evaluate 3 key_arena no_dict) /\ fueled (pbg_gets 3 key_arena).
Proof.
  apply (parsed_walks_terminate (cstr "(&,FALSE,[k])") 13 key_arena
           (Int2Ret (Int2Arg 3 1) 0)).
  - vm_compute. reflexivity.
  - intros k len. reflexivity.
  - simpl. lia.
Defined.

Lemma pbg_free_releases_each_payload_once_witness :
  exists trace,
    pbg_free key_arena = inr trace /\ NoDup trace /\
    FreeStatic ∈ trace /\ FreeDynamic ∈ trace /\
    forall c, FreeData c ∈ trace <-> holds_payload key_arena c.
Proof.
  apply (pbg_free_releases_each_payload_once (cstr "(&,FALSE,[k])") 13
           key_arena (Int2Ret (Int2Arg 3 1) 0)).
  vm_compute. reflexivity.
Defined.

Lemma pbg_gets_holds_999_bytes_witness :
  (Z.of_nat (length (bytes_of "(&,FALSE,[k])")) <= 999 ->
   pbg_gets 2 key_arena = inr (until_nul (bytes_of "(&,FALSE,[k])"))) /\
  (1000 <= Z.of_nat (length (bytes_of "(&,FALSE,[k])")) ->
   pbg_gets 2 key_arena = inl OutOfBounds).
Proof.
  apply (pbg_gets_holds_999_bytes (cstr "(&,FALSE,[k])") 13 key_arena
           (Int2Ret (Int2Arg 3 1) 0)).
  - vm_compute. reflexivity.
  - vm_compute. reflexivity.
Defined.

Lemma toop_reads_the_symbols_of_the_renderer_witness :
  PBG_OP_LTE ∈ operators /\
  pbg_toop (cstr (operator_symbol PBG_OP_LTE))
    (Z.of_nat (String.length (operator_symbol PBG_OP_LTE))) = inr PBG_OP_LTE /\
  range_bytes (Z.to_nat 2) (cstr "<=,1,2)") 0
  = inr (bytes_of (operator_symbol PBG_OP_LTE)).
Proof.
  apply (toop_reads_the_symbols_of_the_renderer (cstr "<=,1,2)") 2 PBG_OP_LTE).
  - reflexivity.
  - discriminate.
Defined.

Lemma not_not_is_the_child_witness :
  pbg_evaluate_r 3 not_not_arena (Node PBG_OP_NOT 1 (DInts [1]))
  = inr (1, [1; 2]).
Proof.
  apply (not_not_is_the_child 1 not_not_arena
           (Node PBG_OP_NOT 1 (DInts [1])) (Node PBG_OP_NOT 1 (DInts [2]))
           1 2 [] [] 1 []); reflexivity.
Defined.

Lemma isnumber_accepts_a_sign_before_anything_witness :
  pbg_isnumber (cstr "-x,") 2 = inr true.
Proof.
  apply (isnumber_accepts_a_sign_before_anything (cstr "-x,") 2
           (chr "-") (chr "x")).
  - reflexivity.
  - left. reflexivity.
  - reflexivity.
  - reflexivity.
  - discriminate.
  - discriminate.
  - discriminate.
Defined.

